(** * Qualcomm shared-memory heap (SMEM): a shallow embedding

    The allocator of [drivers/input/touchscreen/synaptics-s3908.c]
    (the "smem:" part of that file) works on raw shared memory through
    pointers to packed little-endian structures.  The embedding keeps that
    shape: memory is a map from byte addresses to bytes, structure fields are
    loads and stores at the field offsets of the C declarations, unsigned C
    integers are [Z] with their wrap-around written out, and every C function
    is a Rocq function of the same name that threads the memory explicitly.
    The handle [__smem] lives outside the shared memory and is a record.

    Pointers are 64 bits wide, and arithmetic on [size_t], [u64], [u32] and
    [u16] wraps as in C.  A pointer plus a 16-bit or 32-bit field of the
    shared memory, or plus a structure offset, is written as a plain sum: the
    shared memory is taken to lie more than 16 GiB below the end of the
    address space, where such a sum stays under [2^64]; the statements on
    allocation have that bound among their hypotheses ([size_fits]).  The
    pointer expressions that can leave the address space wrap at [2^64] as
    the machine does: the sum of the free position and the caller's [size_t]
    in [qcom_smem_alloc_private], and the subtractions of the backward list,
    [phdr_to_first_cached_entry], [cached_entry_next] and
    [cached_entry_to_item].

    Loops are functions by recursion on a bound that the caller computes from
    the distance to walk.  A function whose loop could fail to end returns an
    [option]; [None] is "did not return within the bound".  The forward walks
    always return ([uncached_scan_total], [alloc_private_total]).  The
    backward walk of a lookup returns whenever the cache line is not 0 and no
    step wraps below address 0 ([get_private_total]); it runs out of its
    bound only on an entry that is its own successor, on which the C loop
    spins for ever, or after a step that wrapped, from which the C loop goes
    on at the top of the address space ([cached_scan_none]).  The bank
    parser is [None] where it reads through an error pointer.

    The file has the definitions first: machine integers and memory, the
    structure layouts, the functions of the driver in the order of the
    source, then the predicates and the sample heaps the statements use.  The
    properties follow: memory, the walks, allocation, and one theorem for
    each of the statements C1 to C10 of the specification, each shown at work
    on a sample heap.

    The rest of the interface of the allocator (free space, address
    translation), the bank parser of [arch/arm/mach-snapdragon/dram.c] that
    calls it, and the report handler of the touch controller in the same
    source file are defined behind the sample heaps; the properties X1 to
    X24 of these and of the allocator close the file. *)

From Stdlib Require Import ZArith List Lia Bool.
Import ListNotations.
Local Open Scope Z_scope.

Ltac Zify.zify_post_hook ::= Z.to_euclidean_division_equations.

(** ** Machine integers *)

Definition wrap16 (x : Z) : Z := x mod 2 ^ 16.
Definition wrap32 (x : Z) : Z := x mod 2 ^ 32.
(** [size_t], [u64] and [phys_addr_t] are 64 bits wide on the arm64 targets of
    this driver (the code casts [u64] values to pointers). *)
Definition wrap64 (x : Z) : Z := x mod 2 ^ 64.

(** Modelled from the spec: the [ALIGN] macro is not defined under the
    sources at hand; the specification calls it [align_up(size, 8)].  It is
    taken as the usual mask form [((x) + ((a) - 1)) & ~((a) - 1)], computed in
    [size_t] as the code does ([size] and [sizeof] are [size_t]). *)
Definition ALIGN (x a : Z) : Z :=
  Z.land (wrap64 (x + wrap64 (a - 1))) (Z.lnot (wrap64 (a - 1))).

(** ** Error codes

    The specification's names for them: AlreadyExists is [EEXIST], OutOfSpace
    [ENOSPC], OutOfMemory [ENOMEM], NotFound [ENOENT]; Corrupt,
    InvalidArgument and UnsupportedVersion are all [EINVAL]; NotReady is
    [ENXIO] for a free directory slot and [EPROBE_DEFER] before
    initialisation. *)

Inductive errno : Set :=
| EINVAL | EEXIST | ENOSPC | ENOMEM | ENXIO | ENOENT | ENODEV | EPROBE_DEFER.

(** The result of a C function that returns either a value or [-errno]
    (an [int] status, or a pointer wrapped by [ERR_PTR]). *)
Inductive result (A : Type) : Type :=
| Ok (a : A)
| Err (e : errno).
Arguments Ok {A} a.
Arguments Err {A} e.

(** ** Byte-addressed shared memory *)

Definition mem : Type := Z -> Z.

Definition load8 (m : mem) (a : Z) : Z := m a mod 256.
Definition load16 (m : mem) (a : Z) : Z := load8 m a + 256 * load8 m (a + 1).
Definition load32 (m : mem) (a : Z) : Z := load16 m a + 65536 * load16 m (a + 2).

Definition store8 (m : mem) (a v : Z) : mem :=
  fun x => if x =? a then v mod 256 else m x.
Definition store16 (m : mem) (a v : Z) : mem :=
  store8 (store8 m a v) (a + 1) (v / 256).
Definition store32 (m : mem) (a v : Z) : mem :=
  store16 (store16 m a v) (a + 2) (v / 65536).

(** [le32_add_cpu(&x, val)]: [val] is a [u32] parameter. *)
Definition le32_add_cpu (m : mem) (a val : Z) : mem :=
  store32 m a (wrap32 (load32 m a + wrap32 val)).

(** ** Constants of the driver *)

Definition SMEM_MASTER_SBL_VERSION_INDEX : Z := 7.
Definition SMEM_GLOBAL_HEAP_VERSION : Z := 11.
Definition SMEM_GLOBAL_PART_VERSION : Z := 12.
Definition SMEM_ITEM_LAST_FIXED : Z := 8.
Definition SMEM_ITEM_COUNT : Z := 512.
Definition SMEM_HOST_APPS : Z := 0.
Definition SMEM_GLOBAL_HOST : Z := 0xfffe.
Definition SMEM_HOST_COUNT : Z := 20.
Definition AUX_BASE_MASK : Z := 0xfffffffc.
Definition SMEM_PRIVATE_CANARY : Z := 0xa5a5.
Definition SZ_4K : Z := 4096.

Definition SMEM_PTABLE_MAGIC : list Z := [0x24; 0x54; 0x4f; 0x43].
Definition SMEM_PART_MAGIC : list Z := [0x24; 0x50; 0x52; 0x54].
Definition SMEM_INFO_MAGIC : list Z := [0x53; 0x49; 0x49; 0x49].

(** [memcmp(p, magic, 4) == 0] *)
Definition magic_ok (m : mem) (p : Z) (magic : list Z) : bool :=
  forallb (fun iv => load8 m (p + fst iv) =? snd iv)
          (combine [0; 1; 2; 3] magic).

(** ** Structure layouts (byte offsets of the packed C structures) *)

(** [struct smem_private_entry], 16 bytes. *)
Definition sizeof_private_entry : Z := 16.
Definition entry_canary (m : mem) (e : Z) : Z := load16 m e.
Definition entry_item (m : mem) (e : Z) : Z := load16 m (e + 2).
Definition entry_size (m : mem) (e : Z) : Z := load32 m (e + 4).
Definition entry_padding_data (m : mem) (e : Z) : Z := load16 m (e + 8).
Definition entry_padding_hdr (m : mem) (e : Z) : Z := load16 m (e + 10).

(** [struct smem_partition_header], 32 bytes. *)
Definition sizeof_partition_header : Z := 32.
Definition phdr_host0 (m : mem) (p : Z) : Z := load16 m (p + 4).
Definition phdr_host1 (m : mem) (p : Z) : Z := load16 m (p + 6).
Definition phdr_size (m : mem) (p : Z) : Z := load32 m (p + 8).
Definition phdr_offset_free_uncached (m : mem) (p : Z) : Z := load32 m (p + 12).
Definition phdr_offset_free_cached (m : mem) (p : Z) : Z := load32 m (p + 16).

(** [struct smem_header]: [proc_comm[4]] (64 bytes), [version[32]] at 64,
    [initialized] at 192, [free_offset] at 196, [available] at 200,
    [reserved] at 204, [toc[]] at 208 with 16-byte entries. *)
Definition header_version (m : mem) (h i : Z) : Z := load32 m (h + 64 + 4 * i).
Definition header_initialized (m : mem) (h : Z) : Z := load32 m (h + 192).
Definition header_free_offset (m : mem) (h : Z) : Z := load32 m (h + 196).
Definition header_available (m : mem) (h : Z) : Z := load32 m (h + 200).
Definition header_reserved (m : mem) (h : Z) : Z := load32 m (h + 204).
Definition header_toc (h item : Z) : Z := h + 208 + 16 * item.

(** [struct smem_global_entry], 16 bytes. *)
Definition gentry_allocated (m : mem) (g : Z) : Z := load32 m g.
Definition gentry_offset (m : mem) (g : Z) : Z := load32 m (g + 4).
Definition gentry_size (m : mem) (g : Z) : Z := load32 m (g + 8).
Definition gentry_aux_base (m : mem) (g : Z) : Z := load32 m (g + 12).

(** [struct smem_ptable]: [magic] at 0, [version] at 4, [num_entries] at 8,
    [entry[]] at 32 with 48-byte entries. *)
Definition ptable_version (m : mem) (t : Z) : Z := load32 m (t + 4).
Definition ptable_num_entries (m : mem) (t : Z) : Z := load32 m (t + 8).
Definition ptable_entry (t i : Z) : Z := t + 32 + 48 * i.

(** [struct smem_ptable_entry], 48 bytes. *)
Definition pentry_offset (m : mem) (p : Z) : Z := load32 m p.
Definition pentry_size (m : mem) (p : Z) : Z := load32 m (p + 4).
Definition pentry_host0 (m : mem) (p : Z) : Z := load16 m (p + 12).
Definition pentry_host1 (m : mem) (p : Z) : Z := load16 m (p + 14).
Definition pentry_cacheline (m : mem) (p : Z) : Z := load32 m (p + 16).

(** [struct smem_info]: [magic] at 0, [num_items] at 16. *)
Definition info_num_items (m : mem) (p : Z) : Z := load16 m (p + 16).

(** ** Driver state kept outside the shared memory *)

Record smem_partition : Type := mk_partition {
  part_virt_base : Z;
  part_phys_base : Z;
  part_cacheline : Z;
  part_size : Z
}.

Record smem_region : Type := mk_region {
  region_aux_base : Z;
  region_virt_base : Z;
  region_size : Z
}.

Record qcom_smem : Type := mk_smem {
  item_count : Z;
  ptable : Z;
  global_partition : smem_partition;
  partitions : list smem_partition;
  num_regions : Z;
  regions : list smem_region
}.

(** What [kzalloc] hands out: all fields zero. *)
Definition no_partition : smem_partition := mk_partition 0 0 0 0.
Definition no_region : smem_region := mk_region 0 0 0.

Definition partition_of (smem : qcom_smem) (host : Z) : smem_partition :=
  nth (Z.to_nat host) (partitions smem) no_partition.
Definition region_of (smem : qcom_smem) (i : Z) : smem_region :=
  nth (Z.to_nat i) (regions smem) no_region.

(** ** Walking a partition *)

Definition phdr_to_last_uncached_entry (m : mem) (phdr : Z) : Z :=
  phdr + phdr_offset_free_uncached m phdr.

Definition phdr_to_first_cached_entry (m : mem) (phdr cacheline : Z) : Z :=
  wrap64 (phdr + phdr_size m phdr - ALIGN sizeof_private_entry cacheline).

Definition phdr_to_last_cached_entry (m : mem) (phdr : Z) : Z :=
  phdr + phdr_offset_free_cached m phdr.

Definition phdr_to_first_uncached_entry (phdr : Z) : Z :=
  phdr + sizeof_partition_header.

Definition uncached_entry_next (m : mem) (e : Z) : Z :=
  e + sizeof_private_entry + entry_padding_hdr m e + entry_size m e.

Definition cached_entry_next (m : mem) (e cacheline : Z) : Z :=
  wrap64 (e - entry_size m e - ALIGN sizeof_private_entry cacheline).

Definition uncached_entry_to_item (m : mem) (e : Z) : Z :=
  e + sizeof_private_entry + entry_padding_hdr m e.

Definition cached_entry_to_item (m : mem) (e : Z) : Z :=
  wrap64 (e - entry_size m e).

(** How a list walk ends. *)
Inductive scan_res : Set :=
| ScanFound (e : Z)
| ScanBadCanary (e : Z)
| ScanEnd (e : Z).

(** The loop [while (hdr < end) { canary check; item check; hdr = next }]
    shared by [qcom_smem_alloc_private] and the first half of
    [qcom_smem_get_private].  Besides the way the loop ends it returns the
    entries it dereferenced, in order.  [None] is reserved for running out of
    [fuel]; [uncached_scan_total] shows that the callers never do. *)
Fixpoint uncached_scan (fuel : nat) (m : mem) (e end_ item : Z)
  : option (list Z * scan_res) :=
  if e <? end_ then
    match fuel with
    | O => None
    | S fuel' =>
        if negb (entry_canary m e =? SMEM_PRIVATE_CANARY) then
          Some ([e], ScanBadCanary e)
        else if entry_item m e =? item then
          Some ([e], ScanFound e)
        else
          match uncached_scan fuel' m (uncached_entry_next m e) end_ item with
          | Some (tr, r) => Some (e :: tr, r)
          | None => None
          end
    end
  else Some ([], ScanEnd e).

(** The loop [while (e > end) { ...; e = cached_entry_next(e, cacheline) }] of
    [qcom_smem_get_private].  An entry of size 0 in a partition whose
    [cacheline] aligns the entry header to 0 bytes makes the C loop spin on
    the same entry for ever; an entry larger than its own address makes the
    pointer wrap to the top of the address space, where the loop goes on.
    These are the only ways the fuel given by the caller runs out
    ([cached_scan_none]), and they show as [None]. *)
Fixpoint cached_scan (fuel : nat) (m : mem) (e end_ cacheline item : Z)
  : option (list Z * scan_res) :=
  if e >? end_ then
    match fuel with
    | O => None
    | S fuel' =>
        if negb (entry_canary m e =? SMEM_PRIVATE_CANARY) then
          Some ([e], ScanBadCanary e)
        else if entry_item m e =? item then
          Some ([e], ScanFound e)
        else
          match cached_scan fuel' m (cached_entry_next m e cacheline)
                            end_ cacheline item with
          | Some (tr, r) => Some (e :: tr, r)
          | None => None
          end
    end
  else Some ([], ScanEnd e).

(** ** Allocation in a partition *)

(** The stores of a successful [qcom_smem_alloc_private], one constructor per
    C statement after the free-space check, in program order. *)
Inductive alloc_step : Set :=
| WrCanary        (* hdr->canary = SMEM_PRIVATE_CANARY *)
| WrItem          (* hdr->item = cpu_to_le16(item) *)
| WrSize          (* hdr->size = cpu_to_le32(ALIGN(size, 8)) *)
| WrPaddingData   (* hdr->padding_data = cpu_to_le16(le32_to_cpu(hdr->size) - size) *)
| WrPaddingHdr    (* hdr->padding_hdr = 0 *)
| Wmb             (* wmb() *)
| AdvanceCursor.  (* le32_add_cpu(&phdr->offset_free_uncached, alloc_size) *)

Definition alloc_step_exec (phdr hdr item size alloc_size : Z)
  (m : mem) (s : alloc_step) : mem :=
  match s with
  | WrCanary => store16 m hdr SMEM_PRIVATE_CANARY
  | WrItem => store16 m (hdr + 2) item
  | WrSize => store32 m (hdr + 4) (ALIGN size 8)
  | WrPaddingData => store16 m (hdr + 8) (wrap64 (entry_size m hdr - size))
  | WrPaddingHdr => store16 m (hdr + 10) 0
  | Wmb => m
  | AdvanceCursor => le32_add_cpu m (phdr + 12) alloc_size
  end.

Definition alloc_private_steps : list alloc_step :=
  [WrCanary; WrItem; WrSize; WrPaddingData; WrPaddingHdr; Wmb; AdvanceCursor].

Definition run_steps (phdr hdr item size alloc_size : Z)
  (steps : list alloc_step) (m : mem) : mem :=
  fold_left (alloc_step_exec phdr hdr item size alloc_size) steps m.

(** [alloc_size = sizeof hdr[0] + ALIGN(size, 8)], a [size_t]. *)
Definition private_alloc_size (size : Z) : Z :=
  wrap64 (sizeof_private_entry + ALIGN size 8).

(** [qcom_smem_alloc_private], with the entries its loop visited. *)
Definition qcom_smem_alloc_private_run (m : mem) (part : smem_partition)
  (item size : Z) : option (list Z * (result unit * mem)) :=
  let phdr := part_virt_base part in
  let p_end := phdr + part_size part in
  let hdr := phdr_to_first_uncached_entry phdr in
  let end_ := phdr_to_last_uncached_entry m phdr in
  let cached := phdr_to_last_cached_entry m phdr in
  if (end_ >? p_end) || (cached >? p_end) then Some ([], (Err EINVAL, m))
  else
    match uncached_scan (Z.to_nat (end_ - hdr)) m hdr end_ item with
    | None => None
    | Some (tr, ScanBadCanary _) => Some (tr, (Err EINVAL, m))
    | Some (tr, ScanFound _) => Some (tr, (Err EEXIST, m))
    | Some (tr, ScanEnd hdr) =>
        if hdr >? p_end then Some (tr, (Err EINVAL, m))
        else
          let alloc_size := private_alloc_size size in
          if wrap64 (hdr + alloc_size) >? cached then
            Some (tr, (Err ENOSPC, m))
          else
            Some (tr, (Ok tt,
                       run_steps phdr hdr item size alloc_size
                                 alloc_private_steps m))
    end.

Definition qcom_smem_alloc_private (m : mem) (part : smem_partition)
  (item size : Z) : option (result unit * mem) :=
  option_map snd (qcom_smem_alloc_private_run m part item size).

(** ** Allocation in the global heap (legacy) *)

Definition qcom_smem_alloc_global (smem : qcom_smem) (m : mem)
  (item size : Z) : result unit * mem :=
  let header := region_virt_base (region_of smem 0) in
  let entry := header_toc header item in
  if negb (gentry_allocated m entry =? 0) then (Err EEXIST, m)
  else
    let size := ALIGN size 8 in
    if size >? header_available m header then (Err ENOMEM, m)
    else
      let m := store32 m (entry + 4) (header_free_offset m header) in
      let m := store32 m (entry + 8) size in
      (* wmb() *)
      let m := store32 m entry 1 in
      let m := le32_add_cpu m (header + 196) size in
      let m := le32_add_cpu m (header + 200) (- size) in
      (Ok tt, m).

(** ** The allocation entry point *)

(** The partition [qcom_smem_alloc], [qcom_smem_get] and
    [qcom_smem_get_free_space] pick for [host]; [None] is the global heap. *)
Definition select_partition (smem : qcom_smem) (host : Z)
  : option smem_partition :=
  if (host <? SMEM_HOST_COUNT)
     && negb (part_virt_base (partition_of smem host) =? 0)
  then Some (partition_of smem host)
  else if negb (part_virt_base (global_partition smem) =? 0)
  then Some (global_partition smem)
  else None.

(** [__smem] is [None] until [qcom_smem_init] has succeeded. *)
Definition qcom_smem_alloc (smem : option qcom_smem) (m : mem)
  (host item size : Z) : option (result unit * mem) :=
  match smem with
  | None => Some (Err EPROBE_DEFER, m)
  | Some smem =>
      if item <? SMEM_ITEM_LAST_FIXED then Some (Err EINVAL, m)
      else if item >=? item_count smem then Some (Err EINVAL, m)
      else
        match select_partition smem host with
        | Some part => qcom_smem_alloc_private m part item size
        | None => Some (qcom_smem_alloc_global smem m item size)
        end
  end.

(** ** Lookup *)

(** The body of [if (le16_to_cpu(e->item) == item) { ... }] in the first loop
    of [qcom_smem_get_private].  [want_size] is [size != NULL]; the result is
    the item pointer and what was stored to [*size]. *)
Definition get_uncached_item (m : mem) (part : smem_partition) (e : Z)
  (want_size : bool) : result (Z * option Z) :=
  let p_end := part_virt_base part + part_size part in
  let e_size := entry_size m e in
  let padding_data := entry_padding_data m e in
  if want_size && ((e_size >? part_size part) || (padding_data >? e_size))
  then Err EINVAL
  else
    let item_ptr := uncached_entry_to_item m e in
    if item_ptr >? p_end then Err EINVAL
    else Ok (item_ptr,
             if want_size then Some (wrap32 (e_size - padding_data)) else None).

(** The same for the second loop. *)
Definition get_cached_item (m : mem) (part : smem_partition) (e : Z)
  (want_size : bool) : result (Z * option Z) :=
  let phdr := part_virt_base part in
  let e_size := entry_size m e in
  let padding_data := entry_padding_data m e in
  if want_size && ((e_size >? part_size part) || (padding_data >? e_size))
  then Err EINVAL
  else
    let item_ptr := cached_entry_to_item m e in
    if item_ptr <? phdr then Err EINVAL
    else Ok (item_ptr,
             if want_size then Some (wrap32 (e_size - padding_data)) else None).

(** The second half of [qcom_smem_get_private], from the comment
    "Item was not found in the uncached list, search the cached list". *)
Definition get_private_cached (m : mem) (part : smem_partition)
  (item : Z) (want_size : bool)
  : option (list Z * result (Z * option Z)) :=
  let phdr := part_virt_base part in
  let p_end := phdr + part_size part in
  let e := phdr_to_first_cached_entry m phdr (part_cacheline part) in
  let end_ := phdr_to_last_cached_entry m phdr in
  if (e <? phdr) || (end_ >? p_end) then Some ([], Err EINVAL)
  else
    match cached_scan (Z.to_nat (e - end_)) m e end_
                      (part_cacheline part) item with
    | None => None
    | Some (tr, ScanBadCanary _) => Some (tr, Err EINVAL)
    | Some (tr, ScanFound e) => Some (tr, get_cached_item m part e want_size)
    | Some (tr, ScanEnd e) =>
        if e <? phdr then Some (tr, Err EINVAL) else Some (tr, Err ENOENT)
    end.

(** [qcom_smem_get_private], with the entries its loops visited. *)
Definition qcom_smem_get_private_run (m : mem) (part : smem_partition)
  (item : Z) (want_size : bool)
  : option (list Z * result (Z * option Z)) :=
  let phdr := part_virt_base part in
  let p_end := phdr + part_size part in
  let e := phdr_to_first_uncached_entry phdr in
  let end_ := phdr_to_last_uncached_entry m phdr in
  match uncached_scan (Z.to_nat (end_ - e)) m e end_ item with
  | None => None
  | Some (tr, ScanBadCanary _) => Some (tr, Err EINVAL)
  | Some (tr, ScanFound e) => Some (tr, get_uncached_item m part e want_size)
  | Some (tr, ScanEnd e) =>
      if e >? p_end then Some (tr, Err EINVAL)
      else
        match get_private_cached m part item want_size with
        | None => None
        | Some (tr2, r) => Some (tr ++ tr2, r)
        end
  end.

Definition qcom_smem_get_private (m : mem) (part : smem_partition)
  (item : Z) (want_size : bool) : option (result (Z * option Z)) :=
  option_map snd (qcom_smem_get_private_run m part item want_size).

(** The [for] loop of [qcom_smem_get_global] over the regions
    [i, i + n). *)
Fixpoint get_global_regions (n : nat) (smem : qcom_smem) (m : mem)
  (i entry aux_base : Z) (want_size : bool) : result (Z * option Z) :=
  match n with
  | O => Err ENOENT
  | S n' =>
      let region := region_of smem i in
      if (wrap32 (region_aux_base region) =? aux_base) || (aux_base =? 0) then
        let e_size := gentry_size m entry in
        let entry_offset := gentry_offset m entry in
        if e_size + entry_offset >? region_size region then Err EINVAL
        else Ok (region_virt_base region + entry_offset,
                 if want_size then Some e_size else None)
      else get_global_regions n' smem m (i + 1) entry aux_base want_size
  end.

Definition qcom_smem_get_global (smem : qcom_smem) (m : mem)
  (item : Z) (want_size : bool) : result (Z * option Z) :=
  let header := region_virt_base (region_of smem 0) in
  let entry := header_toc header item in
  if gentry_allocated m entry =? 0 then Err ENXIO
  else
    let aux_base := Z.land (gentry_aux_base m entry) AUX_BASE_MASK in
    get_global_regions (Z.to_nat (num_regions smem)) smem m 0
                       entry aux_base want_size.

Definition qcom_smem_get (smem : option qcom_smem) (m : mem)
  (host item : Z) (want_size : bool) : option (result (Z * option Z)) :=
  match smem with
  | None => Some (Err EPROBE_DEFER)
  | Some smem =>
      if item >=? item_count smem then Some (Err EINVAL)
      else
        match select_partition smem host with
        | Some part => qcom_smem_get_private m part item want_size
        | None => Some (qcom_smem_get_global smem m item want_size)
        end
  end.

(** ** Partition table and initialisation *)

Definition qcom_smem_get_sbl_version (smem : qcom_smem) (m : mem) : Z :=
  header_version m (region_virt_base (region_of smem 0))
                 SMEM_MASTER_SBL_VERSION_INDEX.

Definition qcom_smem_get_ptable (smem : qcom_smem) (m : mem) : result Z :=
  let ptable := ptable smem in
  if negb (magic_ok m ptable SMEM_PTABLE_MAGIC) then Err ENOENT
  else if negb (ptable_version m ptable =? 1) then Err EINVAL
  else Ok ptable.

Definition qcom_smem_get_item_count (smem : qcom_smem) (m : mem) : Z :=
  match qcom_smem_get_ptable smem m with
  | Err _ => SMEM_ITEM_COUNT
  | Ok ptable =>
      if ptable =? 0 then SMEM_ITEM_COUNT
      else
        let info := ptable_entry ptable (ptable_num_entries m ptable) in
        if negb (magic_ok m info SMEM_INFO_MAGIC) then SMEM_ITEM_COUNT
        else info_num_items m info
  end.

(** [qcom_smem_partition_header]: [None] is the null pointer. *)
Definition qcom_smem_partition_header (smem : qcom_smem) (m : mem)
  (entry host0 host1 : Z) : option Z :=
  let phys_addr :=
    wrap64 (region_aux_base (region_of smem 0) + pentry_offset m entry) in
  let header := phys_addr in
  if header =? 0 then None
  else if negb (magic_ok m header SMEM_PART_MAGIC) then None
  else if negb (host0 =? phdr_host0 m header) then None
  else if negb (host1 =? phdr_host1 m header) then None
  else
    let size := phdr_size m header in
    if negb (size =? pentry_size m entry) then None
    else if phdr_offset_free_uncached m header >? size then None
    else Some header.

(** The partition descriptor both [qcom_smem_set_global_partition] and
    [qcom_smem_enumerate_partitions] fill in for a validated header. *)
Definition partition_from_entry (smem : qcom_smem) (m : mem)
  (entry header : Z) : smem_partition :=
  {| part_virt_base := header;
     part_phys_base :=
       wrap64 (region_aux_base (region_of smem 0) + pentry_offset m entry);
     part_cacheline := pentry_cacheline m entry;
     part_size := pentry_size m entry |}.

(** The search loop of [qcom_smem_set_global_partition] over the table
    entries [i, i + n): the entry at which it breaks with [found]. *)
Fixpoint find_global_entry (n : nat) (m : mem) (ptable i : Z) : option Z :=
  match n with
  | O => None
  | S n' =>
      let entry := ptable_entry ptable i in
      if pentry_offset m entry =? 0 then
        find_global_entry n' m ptable (i + 1)
      else if pentry_size m entry =? 0 then
        find_global_entry n' m ptable (i + 1)
      else if negb (pentry_host0 m entry =? SMEM_GLOBAL_HOST) then
        find_global_entry n' m ptable (i + 1)
      else if pentry_host1 m entry =? SMEM_GLOBAL_HOST then Some entry
      else find_global_entry n' m ptable (i + 1)
  end.

Definition with_global_partition (smem : qcom_smem) (p : smem_partition)
  : qcom_smem :=
  {| item_count := item_count smem;
     ptable := ptable smem;
     global_partition := p;
     partitions := partitions smem;
     num_regions := num_regions smem;
     regions := regions smem |}.

Definition qcom_smem_set_global_partition (smem : qcom_smem) (m : mem)
  : result unit * qcom_smem :=
  if negb (part_virt_base (global_partition smem) =? 0) then (Err EINVAL, smem)
  else
    match qcom_smem_get_ptable smem m with
    | Err e => (Err e, smem)
    | Ok ptable =>
        match find_global_entry (Z.to_nat (ptable_num_entries m ptable))
                                m ptable 0 with
        | None => (Err EINVAL, smem)
        | Some entry =>
            match qcom_smem_partition_header smem m entry
                    SMEM_GLOBAL_HOST SMEM_GLOBAL_HOST with
            | None => (Err EINVAL, smem)
            | Some header =>
                (Ok tt,
                 with_global_partition smem
                   (partition_from_entry smem m entry header))
            end
        end
    end.

Fixpoint list_set {A : Type} (l : list A) (n : nat) (x : A) : list A :=
  match l, n with
  | [], _ => []
  | _ :: t, O => x :: t
  | h :: t, S n' => h :: list_set t n' x
  end.

Definition with_partition (smem : qcom_smem) (host : Z) (p : smem_partition)
  : qcom_smem :=
  {| item_count := item_count smem;
     ptable := ptable smem;
     global_partition := global_partition smem;
     partitions := list_set (partitions smem) (Z.to_nat host) p;
     num_regions := num_regions smem;
     regions := regions smem |}.

(** The remote host of a table entry as seen from [local_host], if the entry
    involves [local_host] at all. *)
Definition remote_host_of (host0 host1 local_host : Z) : option Z :=
  if host0 =? local_host then Some host1
  else if host1 =? local_host then Some host0
  else None.

(** The [for] loop of [qcom_smem_enumerate_partitions] over the table entries
    [i, i + n). *)
Fixpoint enumerate_loop (n : nat) (smem : qcom_smem) (m : mem)
  (ptable i local_host : Z) : result unit * qcom_smem :=
  match n with
  | O => (Ok tt, smem)
  | S n' =>
      let entry := ptable_entry ptable i in
      if pentry_offset m entry =? 0 then
        enumerate_loop n' smem m ptable (i + 1) local_host
      else if pentry_size m entry =? 0 then
        enumerate_loop n' smem m ptable (i + 1) local_host
      else
        let host0 := pentry_host0 m entry in
        let host1 := pentry_host1 m entry in
        match remote_host_of host0 host1 local_host with
        | None => enumerate_loop n' smem m ptable (i + 1) local_host
        | Some remote_host =>
            if remote_host >=? SMEM_HOST_COUNT then (Err EINVAL, smem)
            else if negb (part_virt_base (partition_of smem remote_host) =? 0)
            then (Err EINVAL, smem)
            else
              match qcom_smem_partition_header smem m entry host0 host1 with
              | None => (Err EINVAL, smem)
              | Some header =>
                  enumerate_loop n'
                    (with_partition smem remote_host
                       (partition_from_entry smem m entry header))
                    m ptable (i + 1) local_host
              end
        end
  end.

Definition qcom_smem_enumerate_partitions (smem : qcom_smem) (m : mem)
  (local_host : Z) : result unit * qcom_smem :=
  match qcom_smem_get_ptable smem m with
  | Err e => (Err e, smem)
  | Ok ptable =>
      enumerate_loop (Z.to_nat (ptable_num_entries m ptable))
                     smem m ptable 0 local_host
  end.

Definition with_region0 (smem : qcom_smem) (r : smem_region) : qcom_smem :=
  {| item_count := item_count smem;
     ptable := ptable smem;
     global_partition := global_partition smem;
     partitions := partitions smem;
     num_regions := num_regions smem;
     regions := list_set (regions smem) 0 r |}.

Definition with_ptable (smem : qcom_smem) (p : Z) : qcom_smem :=
  {| item_count := item_count smem;
     ptable := p;
     global_partition := global_partition smem;
     partitions := partitions smem;
     num_regions := num_regions smem;
     regions := regions smem |}.

Definition with_item_count (smem : qcom_smem) (n : Z) : qcom_smem :=
  {| item_count := n;
     ptable := ptable smem;
     global_partition := global_partition smem;
     partitions := partitions smem;
     num_regions := num_regions smem;
     regions := regions smem |}.

(** [qcom_smem_map_toc(smem, &smem->regions[0])] *)
Definition qcom_smem_map_toc (smem : qcom_smem) : result unit * qcom_smem :=
  let region := region_of smem 0 in
  let virt_base := region_aux_base region in
  let ptable_start :=
    wrap32 (region_aux_base region + region_size region - SZ_4K) in
  let smem :=
    with_ptable
      (with_region0 smem
         (mk_region (region_aux_base region) virt_base (region_size region)))
      ptable_start in
  if (virt_base =? 0) || (ptable_start =? 0) then (Err ENOMEM, smem)
  else (Ok tt, smem).

Definition qcom_smem_map_global (smem : qcom_smem) (size : Z)
  : result unit * qcom_smem :=
  let phys_addr := region_aux_base (region_of smem 0) in
  let smem :=
    with_region0 smem (mk_region (region_aux_base (region_of smem 0))
                                 phys_addr size) in
  if phys_addr =? 0 then (Err ENOMEM, smem) else (Ok tt, smem).

(** What [qcom_smem_init] obtains from outside the shared memory: whether the
    "qcom,smem" node exists, whether [kzalloc] succeeds, and the address and
    size of the memory node ([None] for [FDT_ADDR_T_NONE]). *)
Record smem_config : Type := mk_config {
  cfg_node_valid : bool;
  cfg_kzalloc_ok : bool;
  cfg_addr : option Z;
  cfg_size : Z
}.

(** The [switch (version >> 16)] of [qcom_smem_init]. *)
Definition init_select_mode (smem : qcom_smem) (m : mem) (size : Z)
  : result qcom_smem :=
  let version := qcom_smem_get_sbl_version smem m in
  let major := Z.shiftr version 16 in
  if major =? SMEM_GLOBAL_PART_VERSION then
    match qcom_smem_set_global_partition smem m with
    | (Err e, _) => Err e
    | (Ok _, smem) =>
        Ok (with_item_count smem (qcom_smem_get_item_count smem m))
    end
  else if major =? SMEM_GLOBAL_HEAP_VERSION then
    let smem := snd (qcom_smem_map_global smem size) in
    Ok (with_item_count smem SMEM_ITEM_COUNT)
  else Err EINVAL.

(** The handle [qcom_smem_init] gets from [kzalloc] and fills with the
    address and size of the memory node: one region, everything else zero. *)
Definition fresh_smem (aux_base size : Z) : qcom_smem :=
  {| item_count := 0;
     ptable := 0;
     global_partition := no_partition;
     partitions := repeat no_partition (Z.to_nat SMEM_HOST_COUNT);
     num_regions := 1;
     regions := [mk_region aux_base 0 size] |}.

(** [qcom_smem_init]: [Ok smem] stands for [__smem = smem; return 0]. *)
Definition qcom_smem_init (cfg : smem_config) (m : mem) : result qcom_smem :=
  if negb (cfg_node_valid cfg) then Err ENODEV
  else if negb (cfg_kzalloc_ok cfg) then Err ENOMEM
  else
    match cfg_addr cfg with
    | None => Err EINVAL
    | Some aux_base =>
        match qcom_smem_map_toc (fresh_smem aux_base (cfg_size cfg)) with
        | (Err e, _) => Err e
        | (Ok _, smem) =>
            let header := region_virt_base (region_of smem 0) in
            if negb (header_initialized m header =? 1)
               || negb (header_reserved m header =? 0)
            then Err EINVAL
            else
              let size :=
                wrap32 (header_available m header
                        + header_free_offset m header) in
              match init_select_mode smem m size with
              | Err e => Err e
              | Ok smem =>
                  match qcom_smem_enumerate_partitions smem m
                                                       SMEM_HOST_APPS with
                  | (Err ENOENT, smem) => Ok smem
                  | (Err e, _) => Err e
                  | (Ok _, smem) => Ok smem
                  end
              end
        end
    end.

(** ** Well-formed heaps and call sequences *)

(** Following the forward entries from [e] lands exactly on [end_]. *)
Fixpoint uncached_chain (fuel : nat) (m : mem) (e end_ : Z) : bool :=
  if e <? end_ then
    match fuel with
    | O => false
    | S fuel' => uncached_chain fuel' m (uncached_entry_next m e) end_
    end
  else e =? end_.

(** The forward list of the partition at [phdr] tiles the bytes between the
    partition header and the free offset [offset_free_uncached]. *)
Definition uncached_list_ok (m : mem) (phdr : Z) : bool :=
  let e := phdr_to_first_uncached_entry phdr in
  let end_ := phdr_to_last_uncached_entry m phdr in
  uncached_chain (Z.to_nat (end_ - e)) m e end_.

(** The global heap can serve slot [item]: the free bytes the header
    advertises lie inside the first region, and the slot names the default
    region. *)
Definition global_heap_ok (smem : qcom_smem) (m : mem) (item : Z) : bool :=
  let region := region_of smem 0 in
  let header := region_virt_base region in
  (1 <=? num_regions smem)
  && (header_free_offset m header + header_available m header
      <=? region_size region)
  && (Z.land (gentry_aux_base m (header_toc header item)) AUX_BASE_MASK =? 0).

(** The list [qcom_smem_alloc] walks for [host] is well formed, and item
    numbers fit the 16-bit [item] field of a private entry (what
    [qcom_smem_init] sets [item_count] to never exceeds that,
    [init_item_count]). *)
Definition owner_list_ok (smem : qcom_smem) (m : mem) (host : Z) : bool :=
  (item_count smem <=? 65536)
  && match select_partition smem host with
     | Some part => uncached_list_ok m (part_virt_base part)
     | None => true
     end.

(** The part of the heap that serves [(host, item)] is well formed. *)
Definition heap_ok (smem : qcom_smem) (m : mem) (host item : Z) : bool :=
  owner_list_ok smem m host
  && match select_partition smem host with
     | Some _ => true
     | None => global_heap_ok smem m item
     end.

(** The sizes for which [sizeof(struct smem_private_entry) + ALIGN(size, 8)]
    is computed without wrapping around [size_t]. *)
Definition valid_size (size : Z) : Prop := 0 <= size <= 2 ^ 64 - 24.

(** The sizes that fit a partition: a record of that size placed at the very
    end of the partition would still end 16 GiB or more below [2^64].  Then
    the pointer sum [hdr + alloc_size] of the free-space check of
    [qcom_smem_alloc_private] stays inside the 64-bit address space wherever
    in the partition [hdr] lies, and so does every pointer of a forward walk
    that starts in the partition.  For a larger size the sum wraps and the
    check compares a small address with the backward cursor. *)
Definition size_fits (part : smem_partition) (size : Z) : Prop :=
  0 <= size /\ 0 <= part_virt_base part /\ 0 <= part_size part
  /\ part_virt_base part + part_size part + size + 24 + 2 ^ 34 <= 2 ^ 64.

(** The same for the memory that serves [host]; the global heap adds no
    pointer to the size and only rounds it up to a multiple of 8. *)
Definition owner_size_fits (smem : qcom_smem) (host size : Z) : Prop :=
  match select_partition smem host with
  | Some part => size_fits part size
  | None => 0 <= size <= 2 ^ 64 - 8
  end.

(** The bounds of the memory that serves [host]: the selected partition, or
    the first region for the global heap. *)
Definition owner_bounds (smem : qcom_smem) (host : Z) : Z * Z :=
  match select_partition smem host with
  | Some part => (part_virt_base part, part_virt_base part + part_size part)
  | None =>
      let region := region_of smem 0 in
      (region_virt_base region, region_virt_base region + region_size region)
  end.

(** A sequence of [qcom_smem_alloc_private] calls [(item, size)] on one
    partition, each on the memory the previous one left. *)
Fixpoint alloc_private_seq (m : mem) (part : smem_partition)
  (reqs : list (Z * Z)) : option mem :=
  match reqs with
  | [] => Some m
  | (item, size) :: rest =>
      match qcom_smem_alloc_private m part item size with
      | None => None
      | Some (_, m') => alloc_private_seq m' part rest
      end
  end.

(** The growth-direction invariant of a partition header. *)
Definition cursors_ordered (m : mem) (phdr : Z) : Prop :=
  phdr_offset_free_uncached m phdr <= phdr_offset_free_cached m phdr.

(** ** An allocation as other processors see it *)

(** The record of [item] with [size] bytes of data is complete at [hdr]: all
    five fields hold what [qcom_smem_alloc_private] stores there. *)
Definition record_complete (m : mem) (hdr item size : Z) : Prop :=
  entry_canary m hdr = SMEM_PRIVATE_CANARY
  /\ entry_item m hdr = wrap16 item
  /\ entry_size m hdr = wrap32 (ALIGN size 8)
  /\ entry_padding_data m hdr = wrap16 (wrap64 (wrap32 (ALIGN size 8) - size))
  /\ entry_padding_hdr m hdr = 0.

(** The bytes a step of the allocation stores to. *)
Definition step_writes (phdr hdr : Z) (s : alloc_step) (x : Z) : bool :=
  match s with
  | WrCanary => (hdr <=? x) && (x <? hdr + 2)
  | WrItem => (hdr + 2 <=? x) && (x <? hdr + 4)
  | WrSize => (hdr + 4 <=? x) && (x <? hdr + 8)
  | WrPaddingData => (hdr + 8 <=? x) && (x <? hdr + 10)
  | WrPaddingHdr => (hdr + 10 <=? x) && (x <? hdr + 12)
  | Wmb => false
  | AdvanceCursor => (phdr + 12 <=? x) && (x <? phdr + 16)
  end.

(** Modelled from the spec: [wmb()] is not defined under the sources at
    hand.  The specification calls it a write-visibility barrier that
    "ensures the record is durably visible before the cursor update is
    observed by any concurrent reader on another processor", and the comment
    in [qcom_smem_alloc_private] says the same of remote processors that do
    not take the lock.  So a reader on another processor receives the stores
    of the writer one by one in an order of its own, except that once it has
    received a store issued after a barrier it has received every store
    issued before that barrier.

    [observe] is the memory such a reader sees while the writer, whose own
    view is [mw], runs [steps]: the reader started from [mo] and has received
    the stores of the steps in [seen], with the bytes the writer's execution
    gave them, and none of the others. *)
Fixpoint observe (phdr hdr item size alloc_size : Z)
  (seen : alloc_step -> bool) (steps : list alloc_step) (mw mo : mem) : mem :=
  match steps with
  | [] => mo
  | s :: rest =>
      let mw' := alloc_step_exec phdr hdr item size alloc_size mw s in
      let mo' :=
        if seen s
        then fun x => if step_writes phdr hdr s x then mw' x else mo x
        else mo in
      observe phdr hdr item size alloc_size seen rest mw' mo'
  end.

Definition respects_wmb (steps : list alloc_step) (seen : alloc_step -> bool)
  : Prop :=
  forall pre post, steps = pre ++ Wmb :: post ->
  forall before after,
    In before pre -> In after post -> seen after = true -> seen before = true.

(** The reader that has received exactly the stores of the first [k] steps:
    the writer's own view after [k] steps. *)
Definition seen_first (k : nat) (s : alloc_step) : bool :=
  existsb (fun s' => match s, s' with
                     | WrCanary, WrCanary | WrItem, WrItem | WrSize, WrSize
                     | WrPaddingData, WrPaddingData
                     | WrPaddingHdr, WrPaddingHdr | Wmb, Wmb
                     | AdvanceCursor, AdvanceCursor => true
                     | _, _ => false
                     end)
          (firstn k alloc_private_steps).

(** ** Traces of a walk *)

Definition canary_good (m : mem) (e : Z) : Prop :=
  entry_canary m e = SMEM_PRIVATE_CANARY.

(** The shape of the entries a walk visited, by the way it ended. *)
Definition trace_shape (m : mem) (tr : list Z) (r : scan_res) : Prop :=
  match r with
  | ScanBadCanary x =>
      ~ canary_good m x
      /\ exists pre, tr = pre ++ [x] /\ Forall (canary_good m) pre
  | _ => Forall (canary_good m) tr
  end.

(** ** Bookkeeping for initialisation *)

(** Enumeration only fills in [partitions]. *)
Definition same_outside_partitions (a b : qcom_smem) : Prop :=
  item_count a = item_count b /\ ptable a = ptable b
  /\ global_partition a = global_partition b
  /\ num_regions a = num_regions b /\ regions a = regions b.

(** ** Sample heaps *)

Definition zero_mem : mem := fun _ => 0.

(** The bytes of [magic] at [p]. *)
Definition store_magic (m : mem) (p : Z) (magic : list Z) : mem :=
  fold_left (fun m iv => store8 m (p + fst iv) (snd iv))
            (combine [0; 1; 2; 3] magic) m.

(** A legacy (version 11) heap in a region at 8192: the header with its 512
    directory slots takes 8400 bytes, 1000 bytes are free behind it, and slot
    3, one of the items reserved to the boot loader, holds 64 bytes. *)
Definition legacy_mem : mem :=
  let h := 8192 in
  let m := store32 zero_mem (h + 64 + 4 * 7) (Z.shiftl 11 16) in
  let m := store32 m (h + 192) 1 in
  let m := store32 m (h + 196) 8464 in
  let m := store32 m (h + 200) 1000 in
  let m := store32 m (header_toc h 3) 1 in
  let m := store32 m (header_toc h 3 + 4) 8400 in
  store32 m (header_toc h 3 + 8) 64.

Definition legacy_smem : qcom_smem :=
  {| item_count := SMEM_ITEM_COUNT;
     ptable := 8192 + 9464 - 4096;
     global_partition := no_partition;
     partitions := repeat no_partition (Z.to_nat SMEM_HOST_COUNT);
     num_regions := 1;
     regions := [mk_region 8192 8192 9464] |}.

(** The same heap with nothing left to allocate. *)
Definition legacy_full_mem : mem := store32 legacy_mem (8192 + 200) 0.


(** Writers for the structures of a partitioned heap. *)
Definition write_phdr (m : mem) (p host0 host1 size ofu ofc : Z) : mem :=
  let m := store_magic m p SMEM_PART_MAGIC in
  let m := store16 m (p + 4) host0 in
  let m := store16 m (p + 6) host1 in
  let m := store32 m (p + 8) size in
  let m := store32 m (p + 12) ofu in
  store32 m (p + 16) ofc.

Definition write_entry (m : mem) (e item size padding_data padding_hdr : Z)
  : mem :=
  let m := store16 m e SMEM_PRIVATE_CANARY in
  let m := store16 m (e + 2) item in
  let m := store32 m (e + 4) size in
  let m := store16 m (e + 8) padding_data in
  store16 m (e + 10) padding_hdr.

Definition write_pentry (m : mem) (p offset size host0 host1 cacheline : Z)
  : mem :=
  let m := store32 m p offset in
  let m := store32 m (p + 4) size in
  let m := store16 m (p + 12) host0 in
  let m := store16 m (p + 14) host1 in
  store32 m (p + 16) cacheline.

(** A version 12 heap in a 32 KiB region at 65536.  The partition table, 4 KiB
    before the end, lists the global partition (256 bytes at offset 16384)
    and the partition of hosts 0 and 1 (256 bytes at offset 20480), and is
    followed by the [smem_info] block with 512 items.  The partition of hosts
    0 and 1 holds item 9 (5 bytes, padded to 8) in its forward list and item
    10 (16 bytes) in its backward list; the global partition is empty. *)
Definition part_mem : mem :=
  let h := 65536 in
  let t := 65536 + 32768 - 4096 in
  let m := store32 zero_mem (h + 64 + 4 * 7) (Z.shiftl 12 16) in
  let m := store32 m (h + 192) 1 in
  let m := store_magic m t SMEM_PTABLE_MAGIC in
  let m := store32 m (t + 4) 1 in
  let m := store32 m (t + 8) 2 in
  let m := write_pentry m (ptable_entry t 0) 16384 256
                        SMEM_GLOBAL_HOST SMEM_GLOBAL_HOST 64 in
  let m := write_pentry m (ptable_entry t 1) 20480 256 0 1 64 in
  let m := store_magic m (ptable_entry t 2) SMEM_INFO_MAGIC in
  let m := store16 m (ptable_entry t 2 + 16) 512 in
  let m := write_phdr m (h + 16384) SMEM_GLOBAL_HOST SMEM_GLOBAL_HOST
                      256 32 192 in
  let m := write_phdr m (h + 20480) 0 1 256 56 176 in
  let m := write_entry m (h + 20480 + 32) 9 8 3 0 in
  write_entry m (h + 20480 + 192) 10 16 0 0.

Definition part_cfg : smem_config := mk_config true true (Some 65536) 32768.

(** The handle [qcom_smem_init] builds for that heap. *)
Definition part_smem : qcom_smem :=
  match qcom_smem_init part_cfg part_mem with
  | Ok smem => smem
  | Err _ => fresh_smem 0 0
  end.

(** The partition of hosts 0 and 1 in that heap, as seen by host 0. *)
Definition demo_part : smem_partition := mk_partition 86016 86016 64 256.

(** That heap after [qcom_smem_alloc(1, 100, 20)]. *)
Definition part_mem_after : mem :=
  match qcom_smem_alloc (Some part_smem) part_mem 1 100 20 with
  | Some (_, m') => m'
  | None => part_mem
  end.

(** That heap after two more allocations in the same partition. *)
Definition demo_requests : list (Z * Z) := [(11, 24); (12, 8)].
Definition part_mem_seq : mem :=
  match alloc_private_seq part_mem demo_part demo_requests with
  | Some m' => m'
  | None => part_mem
  end.

(** The heap with the first canary byte of item 9 overwritten. *)
Definition bad_canary_mem : mem := store8 part_mem (86016 + 32) 0.



(** The heap with the magic of the partition of hosts 0 and 1 destroyed. *)
Definition bad_magic_mem : mem := store8 part_mem 86016 0.

(** The heap with the partition of hosts 0 and 1 filled up: item 12 takes
    the 120 bytes that were free, and the forward cursor meets the backward
    cursor at offset 176, where the data of item 10 begins. *)
Definition full_part_mem : mem :=
  write_entry (store32 part_mem (86016 + 12) 176) (86016 + 56) 12 104 0 0.

(** That heap after [qcom_smem_alloc_private] for item 100 with [2^64 - 24]
    bytes. *)
Definition full_part_mem_after : mem :=
  match qcom_smem_alloc_private full_part_mem demo_part 100 (2 ^ 64 - 24) with
  | Some (_, m') => m'
  | None => full_part_mem
  end.

(** The heap after [qcom_smem_alloc(1, 100, 2^64 - 16)], a request whose
    record size wraps to 0. *)
Definition part_mem_wrapped : mem :=
  match qcom_smem_alloc (Some part_smem) part_mem 1 100 (2 ^ 64 - 16) with
  | Some (_, m') => m'
  | None => part_mem
  end.

(** The heap after [qcom_smem_alloc(1, 100, 2^64 - 24)], a request whose
    record size is [2^64 - 8]: added to the free position it wraps the
    pointer to 8 bytes below that position. *)
Definition part_mem_huge : mem :=
  match qcom_smem_alloc (Some part_smem) part_mem 1 100 (2 ^ 64 - 24) with
  | Some (_, m') => m'
  | None => part_mem
  end.

(** The heap after [qcom_smem_alloc_private] for item 100 with [2^64 - 80]
    bytes, a request whose record size is [2^64 - 64]. *)
Definition part_mem_backed : mem :=
  match qcom_smem_alloc_private part_mem demo_part 100 (2 ^ 64 - 80) with
  | Some (_, m') => m'
  | None => part_mem
  end.


Definition legacy_cfg : smem_config := mk_config true true (Some 8192) 9464.

(** The handle as it is when [qcom_smem_init] starts on the partition
    table: region mapped, no partition recorded yet. *)
Definition part_smem_mapped : qcom_smem :=
  snd (qcom_smem_map_toc (fresh_smem 65536 32768)).

(** ** Free space and address translation *)

(** [qcom_smem_is_available]: [!!__smem]. *)
Definition qcom_smem_is_available (smem : option qcom_smem) : bool :=
  match smem with
  | Some _ => true
  | None => false
  end.

(** The [int] a C function returns for an unsigned value: the low 32 bits,
    read as two's complement. *)
Definition int_of_unsigned (x : Z) : Z :=
  if wrap32 x <? 2 ^ 31 then wrap32 x else wrap32 x - 2 ^ 32.

(** [qcom_smem_get_free_space].  The two partition branches of the source
    have the same body and are chosen as in [qcom_smem_alloc]
    ([select_partition]).  [ret] is an [unsigned], so the difference of the
    cursors wraps; [le32_to_cpu(part->size)] keeps the low 32 bits of the
    [size_t].  The function returns an [int]: the negated value of the error
    macro for an error, and [ret] converted to [int] otherwise, so that a
    [ret] above [INT_MAX] reads as a negative number, which the caller cannot
    tell from an error.  The values of the error macros are not defined
    under the sources at hand; they are the parameter [errno_num]. *)
Definition qcom_smem_get_free_space (errno_num : errno -> Z)
  (smem : option qcom_smem) (m : mem) (host : Z) : Z :=
  match smem with
  | None => - errno_num EPROBE_DEFER
  | Some smem =>
      match select_partition smem host with
      | Some part =>
          let phdr := part_virt_base part in
          let ret := wrap32 (phdr_offset_free_cached m phdr
                             - phdr_offset_free_uncached m phdr) in
          if ret >? wrap32 (part_size part) then - errno_num EINVAL
          else int_of_unsigned ret
      | None =>
          let header := region_virt_base (region_of smem 0) in
          let ret := header_available m header in
          if ret >? region_size (region_of smem 0) then - errno_num EINVAL
          else int_of_unsigned ret
      end
  end.

Definition addr_in_range (base size addr : Z) : bool :=
  negb (base =? 0) && ((addr >=? base) && (addr <? base + size)).

(** The first loop of [qcom_smem_virt_to_phys], over the partitions
    [i, i + n): the translation at which it returns, if it does. *)
Fixpoint virt_to_phys_partitions (n : nat) (smem : qcom_smem) (i p : Z)
  : option Z :=
  match n with
  | O => None
  | S n' =>
      let part := partition_of smem i in
      if addr_in_range (part_virt_base part) (part_size part) p then
        let offset := wrap64 (p - part_virt_base part) in
        Some (wrap64 (part_phys_base part + offset))
      else virt_to_phys_partitions n' smem (i + 1) p
  end.

(** Its last loop, over the regions [i, i + n). *)
Fixpoint virt_to_phys_regions (n : nat) (smem : qcom_smem) (i p : Z)
  : option Z :=
  match n with
  | O => None
  | S n' =>
      let area := region_of smem i in
      if addr_in_range (region_virt_base area) (region_size area) p then
        let offset := wrap64 (p - region_virt_base area) in
        Some (wrap64 (region_aux_base area + offset))
      else virt_to_phys_regions n' smem (i + 1) p
  end.

(** [qcom_smem_virt_to_phys].  The source reads [__smem] without a null
    check, so the function is modelled for an initialised handle only. *)
Definition qcom_smem_virt_to_phys (smem : qcom_smem) (p : Z) : Z :=
  match virt_to_phys_partitions (Z.to_nat SMEM_HOST_COUNT) smem 0 p with
  | Some phys => phys
  | None =>
      let part := global_partition smem in
      if addr_in_range (part_virt_base part) (part_size part) p then
        let offset := wrap64 (p - part_virt_base part) in
        wrap64 (part_phys_base part + offset)
      else
        match virt_to_phys_regions (Z.to_nat (num_regions smem)) smem 0 p with
        | Some phys => phys
        | None => 0
        end
  end.

(** ** The memory banks of [arch/arm/mach-snapdragon/dram.c]

    The caller of the allocator: it reads the RAM partition table, item 402
    of the heap, into the array [prevbl_ddr_banks]. *)

Definition load64 (m : mem) (a : Z) : Z :=
  load32 m a + 2 ^ 32 * load32 m (a + 4).

Definition SMEM_USABLE_RAM_PARTITION_TABLE : Z := 402.
Definition RAM_NUM_PART_ENTRIES : Z := 32.
Definition CATEGORY_SDRAM : Z := 0x0E.
Definition TYPE_SYSMEM : Z := 0x01.
(** [QCOM_SMEM_HOST_ANY] is [-1], passed for an [unsigned] parameter. *)
Definition QCOM_SMEM_HOST_ANY : Z := wrap32 (-1).

(** [struct smem_ram_ptable], packed: the 20-byte header and 4 reserved bytes
    are followed by [parts[]], 72 bytes each.  In [struct smem_ram_ptn],
    [start] is at 16, [size] at 24, [category] at 36 and [type] at 44. *)
Definition ram_ptable_part (t i : Z) : Z := t + 24 + 72 * i.
Definition ram_ptn_start (m : mem) (p : Z) : Z := load64 m (p + 16).
Definition ram_ptn_size (m : mem) (p : Z) : Z := load64 m (p + 24).
Definition ram_ptn_category (m : mem) (p : Z) : Z := load32 m (p + 36).
Definition ram_ptn_type (m : mem) (p : Z) : Z := load32 m (p + 44).

(** An element of [prevbl_ddr_banks].  The array is a list; its length is
    [CONFIG_NR_DRAM_BANKS]. *)
Record ddr_bank : Type := mk_bank {
  bank_start : Z;
  bank_size : Z
}.

Definition no_bank : ddr_bank := mk_bank 0 0.

(** [prevbl_ddr_banks[j].start + prevbl_ddr_banks[j].size], a [u64]. *)
Definition bank_end (b : ddr_bank) : Z := wrap64 (bank_start b + bank_size b).

(** [ddr_bank_cmp]: the difference of two [u64] is returned as an [int]. *)
Definition ddr_bank_cmp (res1 res2 : ddr_bank) : Z :=
  if bank_size res1 =? 0 then 1
  else if bank_size res2 =? 0 then -1
  else
    int_of_unsigned
      (wrap64 (Z.shiftr (bank_start res1) 24 - Z.shiftr (bank_start res2) 24)).

(** The loop of [qcom_configure_bi_dram] over the banks [i, i + n):
    [bi_dram] is the array [gd->bd->bi_dram], as long as the bank array. *)
Fixpoint configure_bi_dram_loop (n : nat) (banks bi_dram : list ddr_bank)
  (i : Z) : list ddr_bank :=
  match n with
  | O => bi_dram
  | S n' =>
      let b := nth (Z.to_nat i) banks no_bank in
      let bi_dram := list_set bi_dram (Z.to_nat i) b in
      if bank_size b =? 0 then bi_dram
      else configure_bi_dram_loop n' banks bi_dram (i + 1)
  end.

Definition qcom_configure_bi_dram (banks bi_dram : list ddr_bank)
  : list ddr_bank :=
  configure_bi_dram_loop (length banks) banks bi_dram 0.

(** The loop of [qcom_parse_memory_smem] over the table entries [i, i + n),
    with [j] banks recorded so far: the final [j], the bank array and
    [*ram_end]. *)
Fixpoint parse_memory_smem_loop (n : nat) (m : mem) (ram_ptable i j : Z)
  (banks : list ddr_bank) (ram_end : Z) : Z * list ddr_bank * Z :=
  match n with
  | O => (j, banks, ram_end)
  | S n' =>
      if negb (j <? Z.of_nat (length banks)) then (j, banks, ram_end)
      else
        let p := ram_ptable_part ram_ptable i in
        if negb (ram_ptn_category m p =? CATEGORY_SDRAM)
           || negb (ram_ptn_type m p =? TYPE_SYSMEM)
        then parse_memory_smem_loop n' m ram_ptable (i + 1) j banks ram_end
        else if (ram_ptn_size m p =? 0) && (ram_ptn_start m p =? 0)
        then (j, banks, ram_end)
        else
          let b := mk_bank (ram_ptn_start m p) (ram_ptn_size m p) in
          parse_memory_smem_loop n' m ram_ptable (i + 1) (j + 1)
            (list_set banks (Z.to_nat j) b) (Z.max ram_end (bank_end b))
  end.

(** [qcom_parse_memory_smem].  [qcom_smem_get] hands back either the item or
    an error wrapped by [ERR_PTR]; the function tests the pointer against
    null only, so that after a failed lookup the loop reads the table through
    the error pointer, in its first round unless the bank array is empty.
    [ERR_PTR], which the sources at hand do not define, is a parameter.  An
    error pointer is not the address of an object, and a read through it has
    no defined result: the call is [None] then.  [Err e] is [return -e],
    [Ok (j, banks, ram_end)] is [return j] with the array and [*ram_end] as
    the loop left them. *)
Definition qcom_parse_memory_smem (ERR_PTR : errno -> Z) (cfg : smem_config)
  (m : mem) (banks : list ddr_bank) (ram_end : Z)
  : option (result (Z * list ddr_bank * Z)) :=
  match qcom_smem_init cfg m with
  | Err e => Some (Err e)
  | Ok smem =>
      match qcom_smem_get (Some smem) m QCOM_SMEM_HOST_ANY
                          SMEM_USABLE_RAM_PARTITION_TABLE true with
      | None => None
      | Some (Ok (ram_ptable, _)) =>
          if ram_ptable =? 0 then Some (Err ENODEV)
          else
            Some (Ok (parse_memory_smem_loop
                        (Z.to_nat RAM_NUM_PART_ENTRIES) m ram_ptable 0 0
                        banks ram_end))
      | Some (Err e) =>
          if ERR_PTR e =? 0 then Some (Err ENODEV)
          else if 0 <? Z.of_nat (length banks) then None
          else Some (Ok (0, banks, ram_end))
      end
  end.

(** The loop of [qcom_parse_memory_dt] for [n] more banks, the next one in
    the cells [i] and [i + 1] of [memory] and stored at index [j].
    [memory i] is [get_unaligned_be64(&memory[i])].  A store past the end of
    the array has no defined behaviour and is [None]. *)
Fixpoint parse_memory_dt_loop (n : nat) (memory : Z -> Z) (i j : Z)
  (banks : list ddr_bank) (ram_end : Z) : option (list ddr_bank * Z) :=
  match n with
  | O => Some (banks, ram_end)
  | S n' =>
      if negb (j <? Z.of_nat (length banks)) then None
      else
        let b := mk_bank (wrap64 (memory i)) (wrap64 (memory (i + 1))) in
        let banks := list_set banks (Z.to_nat j) b in
        if bank_size b =? 0 then
          (* j--; continue; and the j++ of the loop header *)
          parse_memory_dt_loop n' memory (i + 2) j banks ram_end
        else
          parse_memory_dt_loop n' memory (i + 2) (j + 1) banks
                               (Z.max ram_end (bank_end b))
  end.

(** [qcom_parse_memory_dt(memory, banks, ram_end)] on the array
    [prevbl_ddr_banks]; the parameter [banks] is [nbanks] here. *)
Definition qcom_parse_memory_dt (memory : Z -> Z) (nbanks : Z)
  (banks : list ddr_bank) (ram_end : Z) : option (list ddr_bank * Z) :=
  parse_memory_dt_loop (Z.to_nat nbanks) memory 0 0 banks ram_end.

(** The bank in the cells [2 * k] and [2 * k + 1] of the "reg" property. *)
Definition dt_bank (memory : Z -> Z) (k : nat) : ddr_bank :=
  mk_bank (wrap64 (memory (2 * Z.of_nat k)))
          (wrap64 (memory (2 * Z.of_nat k + 1))).

Definition bank_nonempty (b : ddr_bank) : bool := negb (bank_size b =? 0).

(** [max] of [ram_end] and the ends of [bs], taken from left to right. *)
Definition ram_end_of (bs : list ddr_bank) (ram_end : Z) : Z :=
  fold_left (fun r b => Z.max r (bank_end b)) bs ram_end.

(** ** More sample data *)

(** The sample heap after [qcom_smem_alloc_private] for item 11 with 24
    bytes in the partition of hosts 0 and 1. *)
Definition mem_after_first_request : mem :=
  match qcom_smem_alloc_private part_mem demo_part 11 24 with
  | Some (_, m') => m'
  | None => part_mem
  end.

(** The sample heap with a third table entry, in place of the [smem_info]
    block, that names hosts 1 and 0 again. *)
Definition dup_table_mem : mem :=
  let t := 65536 + 32768 - 4096 in
  write_pentry (store32 part_mem (t + 8) 3) (ptable_entry t 2)
               24576 256 1 0 64.

(** The banks the RAM partition table at [t] lists in its entries
    [i, i + n): the SDRAM system-memory entries, in table order, up to the
    first of them whose size and start are both 0. *)
Fixpoint ram_ptable_banks (n : nat) (m : mem) (t i : Z) : list ddr_bank :=
  match n with
  | O => []
  | S n' =>
      let p := ram_ptable_part t i in
      if negb (ram_ptn_category m p =? CATEGORY_SDRAM)
         || negb (ram_ptn_type m p =? TYPE_SYSMEM)
      then ram_ptable_banks n' m t (i + 1)
      else if (ram_ptn_size m p =? 0) && (ram_ptn_start m p =? 0) then []
      else mk_bank (ram_ptn_start m p) (ram_ptn_size m p)
           :: ram_ptable_banks n' m t (i + 1)
  end.

(** A "reg" property with three banks, the second one empty, and an array
    of four banks that is still zero. *)
Definition sample_reg (i : Z) : Z :=
  nth (Z.to_nat i)
      [0x80000000; 0x3c000000; 0xc0000000; 0; 0x880000000; 0x100000000] 0.

Definition zero_banks : list ddr_bank := repeat no_bank 4.

(** A stand-in for [ERR_PTR] in the examples: every error is a pointer into
    the last page of the address space. *)
Definition sample_ERR_PTR (e : errno) : Z := 2 ^ 64 - 4095.

(** A stand-in for the values of the error macros in the examples: the
    usual ones. *)
Definition sample_errno_num (e : errno) : Z :=
  match e with
  | EINVAL => 22 | EEXIST => 17 | ENOSPC => 28 | ENOMEM => 12
  | ENXIO => 6 | ENOENT => 2 | ENODEV => 19 | EPROBE_DEFER => 517
  end.

Definition store64 (m : mem) (a v : Z) : mem :=
  store32 (store32 m a v) (a + 4) (v / 2 ^ 32).

(** Entry [i] of the RAM partition table at [t]. *)
Definition write_ram_ptn (m : mem) (t i start size category type : Z) : mem :=
  let p := ram_ptable_part t i in
  let m := store64 m (p + 16) start in
  let m := store64 m (p + 24) size in
  let m := store32 m (p + 36) category in
  store32 m (p + 44) type.

(** A legacy heap in a region at 8192 whose item 402 is a RAM partition
    table, 2328 bytes behind the header: a bank of system memory, an entry
    of another category, a second bank, and the all-zero entry that ends the
    table. *)
Definition ram_table_mem : mem :=
  let h := 8192 in
  let t := h + 8400 in
  let m := store32 zero_mem (h + 64 + 4 * 7) (Z.shiftl 11 16) in
  let m := store32 m (h + 192) 1 in
  let m := store32 m (h + 196) 10728 in
  let m := store32 m (h + 200) 1000 in
  let m := store32 m (header_toc h 402) 1 in
  let m := store32 m (header_toc h 402 + 4) 8400 in
  let m := store32 m (header_toc h 402 + 8) 2328 in
  let m := write_ram_ptn m t 0 0x80000000 0x3c000000
                         CATEGORY_SDRAM TYPE_SYSMEM in
  let m := write_ram_ptn m t 1 0xc0000000 0x1000000 0x0F TYPE_SYSMEM in
  let m := write_ram_ptn m t 2 0x880000000 0x100000000
                         CATEGORY_SDRAM TYPE_SYSMEM in
  write_ram_ptn m t 3 0 0 CATEGORY_SDRAM TYPE_SYSMEM.

Definition ram_table_cfg : smem_config :=
  mk_config true true (Some 8192) 11728.


Definition ram_table_handle : qcom_smem :=
  match qcom_smem_init ram_table_cfg ram_table_mem with
  | Ok smem => smem
  | Err _ => fresh_smem 0 0
  end.

(** ** The touch controller

    The other half of [drivers/input/touchscreen/synaptics-s3908.c] reads
    reports of the touch controller over I2C.  The transfers are outside the
    model; what a transfer delivered is an argument of the functions below.
    A buffer is a list of bytes. *)

Definition REPORT_OK : Z := 0x01.
Definition REPORT_IDENTIFY : Z := 0x10.
Definition REPORT_TOUCH : Z := 0x11.
Definition REPORT_DELTA : Z := 0x12.
Definition REPORT_RAW : Z := 0x13.
Definition REPORT_DEBUG : Z := 0x14.
Definition REPORT_TOUCH_HOLD : Z := 0x20.

(** [sizeof(struct tcm_message_header) + 2] *)
Definition REPORT_PEAK_LEN : Z := 4.

Definition WIDTH : Z := 1080.
Definition HEIGHT : Z := 2400.
Definition CHARWIDTH : Z := 67.
Definition CHARHEIGHT : Z := 74.

(** [((u8 * )buf)[i]] *)
Definition byte_at (buf : list Z) (i : Z) : Z :=
  nth (Z.to_nat i) buf 0 mod 256.

(** [get_unaligned_le16(buf + i)]: two bytes, the low one first. *)
Definition get_unaligned_le16 (buf : list Z) (i : Z) : Z :=
  byte_at buf i + 256 * byte_at buf (i + 1).

(** The bit-fields [x : 12] and [y : 12] of the packed point structure that
    starts at byte [p]: they follow three bytes ([unknown], [buttons], and
    [idx] with [classification]) and are laid out from the low bits up, as
    the little-endian targets of the driver do and as the report format
    quoted in the source has them (X position 12 bits, then Y position 12
    bits). *)
Definition point_x (buf : list Z) (p : Z) : Z :=
  byte_at buf (p + 3) + 256 * (byte_at buf (p + 4) mod 16).
Definition point_y (buf : list Z) (p : Z) : Z :=
  byte_at buf (p + 4) / 16 + 16 * byte_at buf (p + 5).

(** [tcm_handle_touch_report(tcm, buf, len)]: the column and the row given
    to [vidconsole_position_cursor], if the function gets to draw.  [len] is
    a [size_t]; the loop over the points ends with [break], so it runs for
    the first point only, and it runs if [0 < (len - 1) / 11] holds in
    [size_t].  The points are 11 bytes each and follow the byte [fps]. *)
Definition tcm_handle_touch_report (buf : list Z) (len : Z)
  : option (Z * Z) :=
  let data := REPORT_PEAK_LEN in
  let len := wrap64 (len - REPORT_PEAK_LEN) in
  if 0 <? wrap64 (len - 1) / 11 then
    let p := data + 1 + 11 * 0 in
    let row := wrap64 (point_y buf p * CHARHEIGHT * 1000) / HEIGHT / 1000 in
    let col := wrap64 (point_x buf p * CHARWIDTH * 1000) / WIDTH / 1000 in
    Some (col, row)
  else None.

(** The part of [struct tcm_data] the report handler writes: [buf_size] and
    the 256 bytes of [buf]. *)
Record tcm_data : Type := mk_tcm {
  tcm_buf_size : Z;
  tcm_buf : list Z
}.

(** The [switch (header->code)] of [tcm_report_irq]: the codes that
    [break]. *)
Definition report_code_handled (code : Z) : bool :=
  existsb (Z.eqb code)
          [REPORT_OK; REPORT_IDENTIFY; REPORT_TOUCH; REPORT_DELTA; REPORT_RAW;
           REPORT_DEBUG; REPORT_TOUCH_HOLD].

(** [tcm_report_irq].  [recv] is what [tcm_recv_report] left in the local
    buffer of 256 bytes, [None] if the transfer failed.  The result is the
    new state and the position given to the console, if any; the function
    itself always returns [IRQ_HANDLED]. *)
Definition tcm_report_irq (tcm : tcm_data) (recv : option (list Z))
  : tcm_data * option (Z * Z) :=
  match recv with
  | None => (tcm, None)
  | Some buf =>
      let code := byte_at buf 1 in
      if negb (report_code_handled code) then (tcm, None)
      else
        let len := get_unaligned_le16 buf 2 in
        if len >? 256 - 2 then (tcm, None)
        else if code =? REPORT_TOUCH then
          (tcm, tcm_handle_touch_report buf (len + 2))
        else
          ({| tcm_buf_size := wrap16 (len + 2);
              tcm_buf := firstn (Z.to_nat (len + 2)) buf
                         ++ skipn (Z.to_nat (len + 2)) (tcm_buf tcm) |},
           None)
  end.

(** A touch report of 23 bytes, the frame rate and two points, the first
    at x = 540, y = 1200, and an identification report of 4 bytes, each
    padded to the 256 bytes of a transfer. *)
Definition touch_report : list Z :=
  [0xa5; 0x11; 23; 0; 80; 0; 0; 0x10; 0x1c; 0x02; 0x4b; 40; 3; 4; 0; 0]
    ++ repeat 0 240.

Definition identify_report : list Z :=
  [0xa5; 0x10; 4; 0; 1; 1; 0x53; 0x33] ++ repeat 0 248.

Definition idle_tcm : tcm_data := mk_tcm 0 (repeat 0 256).

(** The global partition of the sample heap, which serves every host
    without a partition of its own. *)
Definition demo_global_part : smem_partition :=
  mk_partition 81920 81920 64 256.

(** A partition above 4 GiB, and the sample handle with that partition
    recorded for host 1. *)
Definition high_part : smem_partition :=
  mk_partition (2 ^ 33) (2 ^ 33) 64 256.
Definition part_smem_high : qcom_smem := with_partition part_smem 1 high_part.

(** The sample heap with a copy of the partition of hosts 0 and 1 placed
    there. *)
Definition high_mem : mem :=
  let p := 2 ^ 33 in
  let m := write_phdr part_mem p 0 1 256 56 176 in
  let m := write_entry m (p + 32) 9 8 3 0 in
  write_entry m (p + 192) 10 16 0 0.

(** The sample heap after [qcom_smem_alloc(5, 100, 20)], which the global
    partition serves. *)
Definition global_mem_after : mem :=
  match qcom_smem_alloc (Some part_smem) part_mem 5 100 20 with
  | Some (_, m') => m'
  | None => part_mem
  end.

(** * Properties *)

(** ** Memory *)

Lemma load8_range m a : 0 <= load8 m a < 256.
Proof. unfold load8. lia. Qed.

Lemma load16_range m a : 0 <= load16 m a < 65536.
Proof. unfold load16. pose proof (load8_range m a). pose proof (load8_range m (a + 1)). lia. Qed.

Lemma load32_range m a : 0 <= load32 m a < 2 ^ 32.
Proof.
  unfold load32. pose proof (load16_range m a). pose proof (load16_range m (a + 2)).
  change (2 ^ 32) with 4294967296. lia.
Qed.

Lemma store8_at m a v x :
  store8 m a v x = if x =? a then v mod 256 else m x.
Proof. reflexivity. Qed.

Lemma store16_outside m a v x :
  x < a \/ a + 2 <= x -> store16 m a v x = m x.
Proof.
  intros H. unfold store16, store8.
  destruct (Z.eqb_spec x (a + 1)); [lia|].
  destruct (Z.eqb_spec x a); [lia|]. reflexivity.
Qed.

Lemma store32_outside m a v x :
  x < a \/ a + 4 <= x -> store32 m a v x = m x.
Proof.
  intros H. unfold store32. rewrite !store16_outside by lia. reflexivity.
Qed.

Lemma load8_ext m m' a : m' a = m a -> load8 m' a = load8 m a.
Proof. unfold load8. congruence. Qed.

Lemma load16_ext m m' a :
  (forall x, a <= x < a + 2 -> m' x = m x) -> load16 m' a = load16 m a.
Proof.
  intros H. unfold load16. rewrite !(load8_ext m m') by (apply H; lia). reflexivity.
Qed.

Lemma load32_ext m m' a :
  (forall x, a <= x < a + 4 -> m' x = m x) -> load32 m' a = load32 m a.
Proof.
  intros H. unfold load32.
  rewrite !(load16_ext m m') by (intros; apply H; lia). reflexivity.
Qed.

Lemma load16_store16_same m a v : load16 (store16 m a v) a = wrap16 v.
Proof.
  unfold load16, load8, store16, store8, wrap16.
  rewrite Z.eqb_refl.
  destruct (Z.eqb_spec a (a + 1)); [lia|].
  destruct (Z.eqb_spec (a + 1) (a + 1)); [|lia].
  change (2 ^ 16) with 65536. lia.
Qed.

Lemma load32_store32_same m a v : load32 (store32 m a v) a = wrap32 v.
Proof.
  unfold load32, store32.
  rewrite load16_store16_same.
  rewrite (load16_ext (store16 m a v)) by (intros; apply store16_outside; lia).
  rewrite load16_store16_same.
  unfold wrap16, wrap32. change (2 ^ 16) with 65536. change (2 ^ 32) with 4294967296.
  lia.
Qed.

Lemma load16_store16_other m a v a' :
  a' + 2 <= a \/ a + 2 <= a' -> load16 (store16 m a v) a' = load16 m a'.
Proof. intros H. apply load16_ext. intros. apply store16_outside. lia. Qed.

Lemma load16_store32_other m a v a' :
  a' + 2 <= a \/ a + 4 <= a' -> load16 (store32 m a v) a' = load16 m a'.
Proof. intros H. apply load16_ext. intros. apply store32_outside. lia. Qed.

Lemma load32_store16_other m a v a' :
  a' + 4 <= a \/ a + 2 <= a' -> load32 (store16 m a v) a' = load32 m a'.
Proof. intros H. apply load32_ext. intros. apply store16_outside. lia. Qed.

Lemma load32_store32_other m a v a' :
  a' + 4 <= a \/ a + 4 <= a' -> load32 (store32 m a v) a' = load32 m a'.
Proof. intros H. apply load32_ext. intros. apply store32_outside. lia. Qed.

Lemma le32_add_cpu_outside m a v x :
  x < a \/ a + 4 <= x -> le32_add_cpu m a v x = m x.
Proof. intros. unfold le32_add_cpu. apply store32_outside. assumption. Qed.

Lemma load32_le32_add_cpu_same m a v :
  load32 (le32_add_cpu m a v) a = wrap32 (load32 m a + v).
Proof.
  unfold le32_add_cpu. rewrite load32_store32_same.
  unfold wrap32. rewrite Z.mod_mod by (change (2 ^ 32) with 4294967296; lia).
  rewrite Z.add_mod_idemp_r by (change (2 ^ 32) with 4294967296; lia).
  reflexivity.
Qed.

(** ** [ALIGN] *)

Lemma wrap64_range x : 0 <= wrap64 x < 2 ^ 64.
Proof. unfold wrap64. apply Z.mod_pos_bound. reflexivity. Qed.

Lemma ALIGN_nonneg x a : 0 <= ALIGN x a.
Proof.
  unfold ALIGN. apply Z.land_nonneg. left. apply wrap64_range.
Qed.

Lemma ALIGN_8 x : ALIGN x 8 = 8 * (wrap64 (x + 7) / 8).
Proof.
  unfold ALIGN. change (wrap64 (8 - 1)) with (Z.ones 3).
  rewrite <- Z.ldiff_land, Z.ldiff_ones_r by lia.
  rewrite Z.shiftr_div_pow2, Z.shiftl_mul_pow2 by lia.
  change (2 ^ 3) with 8. change (Z.ones 3) with 7. lia.
Qed.

Lemma ALIGN_8_range x : 0 <= ALIGN x 8 < 2 ^ 64.
Proof.
  rewrite ALIGN_8. pose proof (wrap64_range (x + 7)).
  change (2 ^ 64) with 18446744073709551616 in *. lia.
Qed.

Lemma ALIGN_8_bounds x :
  0 <= x <= 2 ^ 64 - 8 -> x <= ALIGN x 8 < x + 8.
Proof.
  intros H. rewrite ALIGN_8. unfold wrap64.
  change (2 ^ 64) with 18446744073709551616 in *.
  rewrite Z.mod_small by lia. lia.
Qed.

(** ** Walking the forward list *)

Lemma uncached_entry_next_ge m e :
  e + sizeof_private_entry <= uncached_entry_next m e.
Proof.
  unfold uncached_entry_next, entry_padding_hdr, entry_size.
  pose proof (load16_range m (e + 10)). pose proof (load32_range m (e + 4)). lia.
Qed.

Lemma uncached_scan_total fuel m end_ item : forall e,
  (Z.to_nat (end_ - e) <= fuel)%nat ->
  exists tr r, uncached_scan fuel m e end_ item = Some (tr, r).
Proof.
  induction fuel as [|fuel IH]; intros e Hf; simpl.
  - destruct (Z.ltb_spec e end_); [lia|]. eauto.
  - destruct (Z.ltb_spec e end_); [|eauto].
    destruct (negb _); [eauto|].
    destruct (_ =? item); [eauto|].
    pose proof (uncached_entry_next_ge m e). unfold sizeof_private_entry in *.
    destruct (IH (uncached_entry_next m e)) as (tr & r & ->); [lia|]. eauto.
Qed.

Lemma uncached_scan_fuel_mono fuel m end_ item : forall e fuel' x,
  uncached_scan fuel m e end_ item = Some x ->
  (fuel <= fuel')%nat ->
  uncached_scan fuel' m e end_ item = Some x.
Proof.
  induction fuel as [|fuel IH]; intros e fuel' x H Hle; simpl in H.
  - destruct fuel'; simpl; destruct (e <? end_); congruence.
  - destruct fuel' as [|fuel']; [lia|]. simpl.
    destruct (e <? end_); [|assumption].
    destruct (negb _); [assumption|].
    destruct (_ =? item); [assumption|].
    destruct (uncached_scan fuel m _ end_ item) as [[tr r]|] eqn:E; [|discriminate].
    rewrite (IH _ fuel' _ E) by lia. assumption.
Qed.

Lemma uncached_scan_fuel_indep m end_ item e f1 f2 x y :
  uncached_scan f1 m e end_ item = Some x ->
  uncached_scan f2 m e end_ item = Some y ->
  x = y.
Proof.
  intros H1 H2.
  apply (uncached_scan_fuel_mono _ _ _ _ _ (Nat.max f1 f2)) in H1; [|lia].
  apply (uncached_scan_fuel_mono _ _ _ _ _ (Nat.max f1 f2)) in H2; [|lia].
  congruence.
Qed.

Lemma uncached_scan_end_ge fuel m end_ item : forall e tr h,
  uncached_scan fuel m e end_ item = Some (tr, ScanEnd h) ->
  e <= h /\ end_ <= h.
Proof.
  induction fuel as [|fuel IH]; intros e tr h H; simpl in H.
  - destruct (Z.ltb_spec e end_); [discriminate|]. inversion H; subst. lia.
  - destruct (Z.ltb_spec e end_).
    + destruct (negb _); [discriminate|].
      destruct (_ =? item); [discriminate|].
      destruct (uncached_scan fuel m _ end_ item) as [[tr' r]|] eqn:E; [|discriminate].
      inversion H; subst. apply IH in E.
      pose proof (uncached_entry_next_ge m e). unfold sizeof_private_entry in *. lia.
    + inversion H; subst. lia.
Qed.

(** On a well-formed list the walk that finds nothing stops on the free
    offset itself. *)
Lemma uncached_chain_scan_end fuel m end_ item : forall e f tr h,
  uncached_chain fuel m e end_ = true ->
  uncached_scan f m e end_ item = Some (tr, ScanEnd h) ->
  h = end_.
Proof.
  induction fuel as [|fuel IH]; intros e f tr h Hc Hs; simpl in Hc.
  - destruct f; simpl in Hs; destruct (Z.ltb_spec e end_); try discriminate;
      inversion Hs; subst; lia.
  - destruct f; simpl in Hs; destruct (Z.ltb_spec e end_); try discriminate;
      try (inversion Hs; subst; lia).
    destruct (negb _); [discriminate|].
    destruct (_ =? item); [discriminate|].
    destruct (uncached_scan f m _ end_ item) as [[tr' r]|] eqn:E; [|discriminate].
    inversion Hs; subst. eapply IH; eassumption.
Qed.

Lemma uncached_scan_S fuel m e end_ item :
  uncached_scan (S fuel) m e end_ item =
  if e <? end_ then
    if negb (entry_canary m e =? SMEM_PRIVATE_CANARY) then Some ([e], ScanBadCanary e)
    else if entry_item m e =? item then Some ([e], ScanFound e)
    else match uncached_scan fuel m (uncached_entry_next m e) end_ item with
         | Some (tr, r) => Some (e :: tr, r)
         | None => None
         end
  else Some ([], ScanEnd e).
Proof. reflexivity. Qed.

(** The walk only reads the entries it visits: a memory that agrees with [m]
    below the stopping point [h], and holds a record for [item] at [h], makes
    the walk towards a later end find that record. *)
Lemma uncached_scan_appended fuel m m' end_ end' item : forall e tr h,
  uncached_scan fuel m e end_ item = Some (tr, ScanEnd h) ->
  (forall x, e <= x < h -> m' x = m x) ->
  h < end' ->
  entry_canary m' h = SMEM_PRIVATE_CANARY ->
  entry_item m' h = item ->
  uncached_scan (S fuel) m' e end' item = Some (tr ++ [h], ScanFound h).
Proof.
  assert (Hbase : forall e, e < end' ->
            entry_canary m' e = SMEM_PRIVATE_CANARY -> entry_item m' e = item ->
            forall f, uncached_scan (S f) m' e end' item = Some ([e], ScanFound e)).
  { intros e Hlt Hc Hi f. rewrite uncached_scan_S.
    destruct (Z.ltb_spec e end'); [|lia].
    rewrite Hc, Hi, !Z.eqb_refl. reflexivity. }
  induction fuel as [|fuel IH]; intros e tr h H Hag Hlt Hc Hi.
  - simpl in H. destruct (Z.ltb_spec e end_); [discriminate|].
    injection H as Htr Hh; subst tr h. apply Hbase; assumption.
  - rewrite uncached_scan_S in H. destruct (Z.ltb_spec e end_).
    + destruct (negb (entry_canary m e =? _)) eqn:Ec; [discriminate|].
      destruct (entry_item m e =? item) eqn:Ei; [discriminate|].
      destruct (uncached_scan fuel m _ end_ item) as [[tr' r]|] eqn:E; [|discriminate].
      injection H as Htr Hr; subst tr r.
      pose proof (uncached_scan_end_ge _ _ _ _ _ _ _ E) as [Hn _].
      pose proof (uncached_entry_next_ge m e) as Hge. unfold sizeof_private_entry in Hge.
      assert (Hcan : entry_canary m' e = entry_canary m e).
      { apply load16_ext. intros. apply Hag. lia. }
      assert (Hitem : entry_item m' e = entry_item m e).
      { apply load16_ext. intros. apply Hag. lia. }
      assert (Hnext : uncached_entry_next m' e = uncached_entry_next m e).
      { unfold uncached_entry_next, entry_padding_hdr, entry_size.
        rewrite (load16_ext m m'), (load32_ext m m'); [reflexivity| |];
          intros; apply Hag; lia. }
      rewrite uncached_scan_S.
      destruct (Z.ltb_spec e end'); [|lia].
      rewrite Hcan, Ec, Hitem, Ei, Hnext.
      rewrite (IH _ _ _ E); [reflexivity| |assumption..].
      intros. apply Hag. lia.
    + injection H as Htr Hh; subst tr h. apply Hbase; assumption.
Qed.

(** ** The stores of a successful allocation *)

Lemma private_alloc_size_range size : 0 <= private_alloc_size size < 2 ^ 64.
Proof. apply wrap64_range. Qed.

Lemma private_alloc_size_valid size :
  valid_size size ->
  private_alloc_size size = sizeof_private_entry + ALIGN size 8
  /\ size <= ALIGN size 8 < size + 8.
Proof.
  unfold valid_size, private_alloc_size, sizeof_private_entry, wrap64. intros H.
  change (2 ^ 64) with 18446744073709551616 in *.
  assert (Hb : size <= ALIGN size 8 < size + 8).
  { apply ALIGN_8_bounds. change (2 ^ 64) with 18446744073709551616. lia. }
  pose proof (ALIGN_8 size) as Ha. unfold wrap64 in Ha.
  change (2 ^ 64) with 18446744073709551616 in *.
  split; [|assumption]. rewrite Z.mod_small; lia.
Qed.

Lemma run_steps_all phdr hdr item size asz m :
  run_steps phdr hdr item size asz alloc_private_steps m =
  le32_add_cpu
    (store16
       (store16
          (store32 (store16 (store16 m hdr SMEM_PRIVATE_CANARY) (hdr + 2) item)
                   (hdr + 4) (ALIGN size 8))
          (hdr + 8)
          (wrap64
             (entry_size
                (store32 (store16 (store16 m hdr SMEM_PRIVATE_CANARY) (hdr + 2) item)
                         (hdr + 4) (ALIGN size 8)) hdr - size)))
       (hdr + 10) 0)
    (phdr + 12) asz.
Proof. reflexivity. Qed.

Lemma run_steps_outside phdr hdr item size asz m x :
  x < phdr + 12 \/ phdr + 16 <= x < hdr \/ hdr + 12 <= x ->
  phdr + 16 <= hdr ->
  run_steps phdr hdr item size asz alloc_private_steps m x = m x.
Proof.
  intros Hx Hh. rewrite run_steps_all.
  rewrite le32_add_cpu_outside by lia.
  rewrite !store16_outside, store32_outside, !store16_outside by lia.
  reflexivity.
Qed.

Lemma run_steps_entry phdr hdr item size asz m :
  phdr + 16 <= hdr ->
  let m' := run_steps phdr hdr item size asz alloc_private_steps m in
  entry_canary m' hdr = SMEM_PRIVATE_CANARY
  /\ entry_item m' hdr = wrap16 item
  /\ entry_size m' hdr = wrap32 (ALIGN size 8)
  /\ entry_padding_data m' hdr = wrap16 (wrap64 (wrap32 (ALIGN size 8) - size))
  /\ entry_padding_hdr m' hdr = 0.
Proof.
  intros Hh m'. subst m'. rewrite run_steps_all.
  unfold entry_canary, entry_item, entry_size, entry_padding_data, entry_padding_hdr,
    le32_add_cpu.
  repeat split.
  - rewrite load16_store32_other, !load16_store16_other, load16_store32_other,
      load16_store16_other, load16_store16_same by lia. reflexivity.
  - rewrite load16_store32_other, !load16_store16_other, load16_store32_other,
      load16_store16_same by lia. reflexivity.
  - rewrite load32_store32_other, !load32_store16_other, load32_store32_same by lia.
    reflexivity.
  - rewrite load16_store32_other, load16_store16_other, load16_store16_same,
      load32_store32_same by lia. reflexivity.
  - rewrite load16_store32_other, load16_store16_same by lia. reflexivity.
Qed.

Lemma run_steps_cursor phdr hdr item size asz m :
  phdr + 16 <= hdr ->
  phdr_offset_free_uncached
    (run_steps phdr hdr item size asz alloc_private_steps m) phdr
  = wrap32 (phdr_offset_free_uncached m phdr + asz).
Proof.
  intros Hh. rewrite run_steps_all. unfold phdr_offset_free_uncached.
  rewrite load32_le32_add_cpu_same.
  rewrite !load32_store16_other, load32_store32_other, !load32_store16_other by lia.
  reflexivity.
Qed.

Lemma run_steps_cached phdr hdr item size asz m :
  phdr + 20 <= hdr ->
  phdr_offset_free_cached
    (run_steps phdr hdr item size asz alloc_private_steps m) phdr
  = phdr_offset_free_cached m phdr.
Proof.
  intros Hh. unfold phdr_offset_free_cached. apply load32_ext.
  intros x Hx. apply run_steps_outside; lia.
Qed.

(** ** [qcom_smem_alloc_private] case by case *)

Lemma first_uncached_le_scan_end m phdr fuel end_ item tr hdr :
  uncached_scan fuel m (phdr_to_first_uncached_entry phdr) end_ item
  = Some (tr, ScanEnd hdr) ->
  phdr + 32 <= hdr /\ end_ <= hdr.
Proof.
  intros H. apply uncached_scan_end_ge in H.
  unfold phdr_to_first_uncached_entry, sizeof_partition_header in H. lia.
Qed.

Lemma alloc_private_run_ok m part item size tr m' :
  qcom_smem_alloc_private_run m part item size = Some (tr, (Ok tt, m')) ->
  let phdr := part_virt_base part in
  let end_ := phdr_to_last_uncached_entry m phdr in
  let cached := phdr_to_last_cached_entry m phdr in
  exists hdr,
    uncached_scan (Z.to_nat (end_ - phdr_to_first_uncached_entry phdr)) m
                  (phdr_to_first_uncached_entry phdr) end_ item
    = Some (tr, ScanEnd hdr)
    /\ phdr + 32 <= hdr /\ end_ <= hdr
    /\ hdr <= phdr + part_size part
    /\ wrap64 (hdr + private_alloc_size size) <= cached
    /\ cached <= phdr + part_size part
    /\ m' = run_steps phdr hdr item size (private_alloc_size size)
                      alloc_private_steps m.
Proof.
  intros H phdr end_ cached. unfold qcom_smem_alloc_private_run in H.
  cbv zeta in H. fold phdr in H. fold end_ cached in H.
  destruct (Z.gtb_spec end_ (phdr + part_size part)); simpl in H; [discriminate|].
  destruct (Z.gtb_spec cached (phdr + part_size part)); simpl in H; [discriminate|].
  destruct (uncached_scan _ m _ end_ item) as [[tr0 [e|e|hdr]]|] eqn:E;
    try discriminate.
  destruct (Z.gtb_spec hdr (phdr + part_size part)); [discriminate|].
  destruct (Z.gtb_spec (wrap64 (hdr + private_alloc_size size)) cached);
    [discriminate|].
  injection H as Htr Hm; subst tr0 m'.
  exists hdr. pose proof (first_uncached_le_scan_end _ _ _ _ _ _ _ E).
  repeat split; first [lia | reflexivity | assumption].
Qed.

Lemma size_fits_valid part size : size_fits part size -> valid_size size.
Proof. unfold size_fits, valid_size. lia. Qed.

(** For a size that fits, the pointer sum of the free-space check does not
    wrap, wherever in the partition the free position [hdr] lies. *)
Lemma size_fits_no_wrap part size hdr :
  size_fits part size ->
  part_virt_base part <= hdr <= part_virt_base part + part_size part ->
  wrap64 (hdr + private_alloc_size size) = hdr + private_alloc_size size.
Proof.
  intros Hf Hh. pose proof (size_fits_valid _ _ Hf) as Hv.
  destruct (private_alloc_size_valid _ Hv) as [-> Hal].
  unfold size_fits, sizeof_private_entry, wrap64 in *.
  change (2 ^ 64) with 18446744073709551616 in *.
  apply Z.mod_small. lia.
Qed.

(** The same case for a size that fits: the new record ends at or below the
    backward cursor. *)
Lemma alloc_private_run_fits m part item size tr m' :
  qcom_smem_alloc_private_run m part item size = Some (tr, (Ok tt, m')) ->
  size_fits part size ->
  let phdr := part_virt_base part in
  let end_ := phdr_to_last_uncached_entry m phdr in
  let cached := phdr_to_last_cached_entry m phdr in
  exists hdr,
    uncached_scan (Z.to_nat (end_ - phdr_to_first_uncached_entry phdr)) m
                  (phdr_to_first_uncached_entry phdr) end_ item
    = Some (tr, ScanEnd hdr)
    /\ phdr + 32 <= hdr /\ end_ <= hdr
    /\ hdr + private_alloc_size size <= cached
    /\ cached <= phdr + part_size part
    /\ m' = run_steps phdr hdr item size (private_alloc_size size)
                      alloc_private_steps m.
Proof.
  intros H Hf phdr end_ cached.
  apply alloc_private_run_ok in H as (hdr & Hs & Hh & He & Hend & Hfit & Hc & Hm).
  fold phdr in Hs, Hh, He, Hend, Hfit, Hc, Hm. fold end_ in Hs, He.
  fold cached in Hfit, Hc.
  rewrite (size_fits_no_wrap part size hdr Hf) in Hfit by (fold phdr; lia).
  exists hdr. repeat split; assumption.
Qed.

Lemma alloc_private_run_err m part item size tr e m' :
  qcom_smem_alloc_private_run m part item size = Some (tr, (Err e, m')) ->
  m' = m.
Proof.
  unfold qcom_smem_alloc_private_run. intros H.
  destruct (_ || _); [congruence|].
  destruct (uncached_scan _ m _ _ item) as [[tr0 [x|x|hdr]]|]; try congruence.
  destruct (hdr >? _); [congruence|].
  destruct (_ >? _); congruence.
Qed.

Lemma alloc_private_run_total m part item size :
  exists tr r m', qcom_smem_alloc_private_run m part item size = Some (tr, (r, m')).
Proof.
  unfold qcom_smem_alloc_private_run.
  destruct (_ || _); [eauto|].
  destruct (uncached_scan_total
              (Z.to_nat (phdr_to_last_uncached_entry m (part_virt_base part)
                         - phdr_to_first_uncached_entry (part_virt_base part)))
              m (phdr_to_last_uncached_entry m (part_virt_base part)) item
              (phdr_to_first_uncached_entry (part_virt_base part)))
    as (tr & r & ->); [lia|].
  destruct r; eauto.
  destruct (_ >? _); [eauto|]. destruct (_ >? _); eauto.
Qed.

Lemma alloc_private_total m part item size :
  exists r m', qcom_smem_alloc_private m part item size = Some (r, m').
Proof.
  unfold qcom_smem_alloc_private.
  destruct (alloc_private_run_total m part item size) as (tr & r & m' & ->).
  simpl. eauto.
Qed.

Lemma alloc_private_of_run m part item size r :
  qcom_smem_alloc_private m part item size = Some r ->
  exists tr, qcom_smem_alloc_private_run m part item size = Some (tr, r).
Proof.
  unfold qcom_smem_alloc_private.
  destruct (qcom_smem_alloc_private_run m part item size) as [[tr r0]|];
    simpl; intros H; [|discriminate].
  injection H as ->. eauto.
Qed.

(** After a successful allocation of a size that fits, the forward cursor is
    the old one advanced by the record size, and it does not pass the
    backward cursor. *)
Lemma alloc_private_ok_cursors m part item size m' :
  qcom_smem_alloc_private m part item size = Some (Ok tt, m') ->
  size_fits part size ->
  let phdr := part_virt_base part in
  phdr_offset_free_uncached m' phdr
  = phdr_offset_free_uncached m phdr + private_alloc_size size
  /\ phdr_offset_free_cached m' phdr = phdr_offset_free_cached m phdr
  /\ phdr_offset_free_uncached m' phdr <= phdr_offset_free_cached m' phdr.
Proof.
  intros H Hf phdr. apply alloc_private_of_run in H as [tr H].
  apply alloc_private_run_fits in H as (hdr & _ & Hh & He & Hfit & _ & ->);
    [|assumption].
  fold phdr in Hh, He, Hfit |- *.
  unfold phdr_to_last_uncached_entry, phdr_to_last_cached_entry in *.
  rewrite run_steps_cursor, run_steps_cached by lia.
  pose proof (private_alloc_size_range size).
  pose proof (load32_range m (phdr + 12)). pose proof (load32_range m (phdr + 16)).
  unfold phdr_offset_free_uncached, phdr_offset_free_cached, wrap32 in *.
  change (2 ^ 32) with 4294967296 in *.
  rewrite Z.mod_small by lia. lia.
Qed.

(** ** C3: the growth-direction invariant *)

Lemma alloc_private_preserves_order m part item size r m' :
  qcom_smem_alloc_private m part item size = Some (r, m') ->
  size_fits part size ->
  cursors_ordered m (part_virt_base part) ->
  cursors_ordered m' (part_virt_base part).
Proof.
  intros H Hf Hinv. destruct r as [[]|e].
  - apply alloc_private_ok_cursors in H; [|assumption].
    unfold cursors_ordered. lia.
  - apply alloc_private_of_run in H as [tr H].
    apply alloc_private_run_err in H. subst m'. assumption.
Qed.

Lemma alloc_private_seq_total part reqs : forall m,
  exists m', alloc_private_seq m part reqs = Some m'.
Proof.
  induction reqs as [|[item size] reqs IH]; intros m; simpl; [eauto|].
  destruct (alloc_private_total m part item size) as (r & m1 & ->). apply IH.
Qed.

Lemma alloc_private_seq_preserves_order part reqs : forall m m',
  Forall (fun r => size_fits part (snd r)) reqs ->
  alloc_private_seq m part reqs = Some m' ->
  cursors_ordered m (part_virt_base part) ->
  cursors_ordered m' (part_virt_base part).
Proof.
  induction reqs as [|[item size] reqs IH]; intros m m' Hf H Hinv; simpl in H.
  - injection H as <-. assumption.
  - destruct (qcom_smem_alloc_private m part item size) as [[r m1]|] eqn:E;
      [|discriminate].
    inversion Hf as [|? ? Hf1 Hf2]; subst. simpl in Hf1.
    eapply IH; [eassumption|eassumption|].
    eapply alloc_private_preserves_order; eassumption.
Qed.

Lemma alloc_private_rejects_overflow m part item size :
  size_fits part size ->
  phdr_offset_free_uncached m (part_virt_base part) + private_alloc_size size
  > phdr_offset_free_cached m (part_virt_base part) ->
  exists e,
    qcom_smem_alloc_private m part item size = Some (Err e, m)
    /\ (forall tr hdr,
          uncached_scan
            (Z.to_nat (phdr_to_last_uncached_entry m (part_virt_base part)
                       - phdr_to_first_uncached_entry (part_virt_base part)))
            m (phdr_to_first_uncached_entry (part_virt_base part))
            (phdr_to_last_uncached_entry m (part_virt_base part)) item
          = Some (tr, ScanEnd hdr) ->
          phdr_offset_free_cached m (part_virt_base part) <= part_size part ->
          hdr <= part_virt_base part + part_size part ->
          e = ENOSPC).
Proof.
  intros Hf Hover.
  destruct (alloc_private_total m part item size) as (r & m' & H).
  destruct r as [[]|e].
  - exfalso. apply alloc_private_of_run in H as [tr H].
    apply alloc_private_run_fits in H as (hdr & _ & _ & He & Hfit & _);
      [|assumption].
    unfold phdr_to_last_uncached_entry, phdr_to_last_cached_entry in *. lia.
  - pose proof H as H0. apply alloc_private_of_run in H0 as [tr H0].
    pose proof (alloc_private_run_err _ _ _ _ _ _ _ H0). subst m'.
    exists e. split; [assumption|].
    intros tr' hdr Hs Hc Hh.
    unfold qcom_smem_alloc_private_run in H0. rewrite Hs in H0.
    pose proof (first_uncached_le_scan_end _ _ _ _ _ _ _ Hs) as [Hge He].
    unfold phdr_to_last_uncached_entry, phdr_to_last_cached_entry in *.
    pose proof (private_alloc_size_range size).
    destruct (Z.gtb_spec (part_virt_base part + phdr_offset_free_uncached m (part_virt_base part))
                         (part_virt_base part + part_size part)); [lia|].
    destruct (Z.gtb_spec (part_virt_base part + phdr_offset_free_cached m (part_virt_base part))
                         (part_virt_base part + part_size part)); [lia|].
    simpl in H0.
    destruct (Z.gtb_spec hdr (part_virt_base part + part_size part)); [lia|].
    rewrite (size_fits_no_wrap part size hdr Hf) in H0 by lia.
    destruct (Z.gtb_spec (hdr + private_alloc_size size)
                (part_virt_base part + phdr_offset_free_cached m (part_virt_base part)));
      [|lia].
    congruence.
Qed.

(** C3 as the code has it.  Call a size fitting when a record of that size
    placed at the very end of the partition would still end 16 GiB or more
    below [2^64], so that the pointer sum of the free-space check cannot
    wrap.  On every partition, whatever sequence of
    [qcom_smem_alloc_private] calls with fitting sizes is made,
    [offset_free_uncached <= offset_free_cached] is preserved.  In the
    state so reached, a request of fitting size whose record size plus
    data size rounded up to a multiple of 8 would carry the forward cursor
    past the backward cursor is refused and writes nothing: the call
    returns an error with the memory untouched, and the error is [-ENOSPC]
    (OutOfSpace) whenever the walk of the list reaches the free-space
    check, that is, unless the call already failed on a corrupt list or an
    existing item. *)
Theorem growth_direction_invariant part reqs m m' item size :
  cursors_ordered m (part_virt_base part) ->
  Forall (fun r => size_fits part (snd r)) reqs ->
  alloc_private_seq m part reqs = Some m' ->
  cursors_ordered m' (part_virt_base part)
  /\ (size_fits part size ->
      size <= ALIGN size 8 < size + 8
      /\ (phdr_offset_free_uncached m' (part_virt_base part)
          + (sizeof_private_entry + ALIGN size 8)
          > phdr_offset_free_cached m' (part_virt_base part) ->
          exists e,
            qcom_smem_alloc_private m' part item size = Some (Err e, m')
            /\ (forall tr hdr,
                  uncached_scan
                    (Z.to_nat (phdr_to_last_uncached_entry m' (part_virt_base part)
                               - phdr_to_first_uncached_entry (part_virt_base part)))
                    m' (phdr_to_first_uncached_entry (part_virt_base part))
                    (phdr_to_last_uncached_entry m' (part_virt_base part)) item
                  = Some (tr, ScanEnd hdr) ->
                  phdr_offset_free_cached m' (part_virt_base part)
                  <= part_size part ->
                  hdr <= part_virt_base part + part_size part ->
                  e = ENOSPC))).
Proof.
  intros Hinv Hfits Hseq. split.
  - eapply alloc_private_seq_preserves_order; eassumption.
  - intros Hsize.
    destruct (private_alloc_size_valid _ (size_fits_valid _ _ Hsize)) as [Hasz Hal].
    split; [assumption|]. rewrite <- Hasz.
    apply alloc_private_rejects_overflow. assumption.
Qed.

(** ** Allocation followed by a walk of the same partition *)

(** What a successful allocation on a well-formed forward list leaves behind:
    the record sits at the old free offset [hdr], the cursors are as
    [alloc_private_ok_cursors] says, and the walk for [item] now finds it. *)
Lemma alloc_private_then_scan m part item size m' :
  qcom_smem_alloc_private m part item size = Some (Ok tt, m') ->
  uncached_list_ok m (part_virt_base part) = true ->
  size_fits part size ->
  wrap16 item = item ->
  let phdr := part_virt_base part in
  let hdr := phdr_to_last_uncached_entry m phdr in
  exists tr,
    uncached_scan
      (Z.to_nat (phdr_to_last_uncached_entry m' phdr
                 - phdr_to_first_uncached_entry phdr))
      m' (phdr_to_first_uncached_entry phdr)
      (phdr_to_last_uncached_entry m' phdr) item
    = Some (tr, ScanFound hdr)
    /\ phdr + 32 <= hdr
    /\ phdr_to_last_uncached_entry m' phdr = hdr + private_alloc_size size
    /\ phdr_to_last_cached_entry m' phdr = phdr_to_last_cached_entry m phdr
    /\ hdr + private_alloc_size size <= phdr_to_last_cached_entry m phdr
    /\ phdr_to_last_cached_entry m phdr <= phdr + part_size part
    /\ entry_size m' hdr = wrap32 (ALIGN size 8)
    /\ entry_padding_data m' hdr = wrap16 (wrap64 (wrap32 (ALIGN size 8) - size))
    /\ entry_padding_hdr m' hdr = 0.
Proof.
  intros H Hwf Hf Hitem phdr hdr.
  assert (Hpos : 0 < private_alloc_size size).
  { destruct (private_alloc_size_valid _ (size_fits_valid _ _ Hf)) as [-> ?].
    unfold size_fits, sizeof_private_entry in *. lia. }
  pose proof (alloc_private_ok_cursors _ _ _ _ _ H Hf) as (Hu & Hc & _).
  fold phdr in Hu, Hc.
  apply alloc_private_of_run in H as [tr H].
  apply alloc_private_run_fits in H as (h & Hs & Hh & He & Hfit & Hcend & Hm);
    [|assumption].
  fold phdr in Hs, Hh, He, Hfit, Hcend, Hm.
  assert (h = hdr) as ->.
  { eapply uncached_chain_scan_end; [exact Hwf|exact Hs]. }
  pose proof (run_steps_entry phdr hdr item size (private_alloc_size size) m
                ltac:(lia)) as (Ecan & Eitem & Esize & Epad & Ephdr).
  rewrite <- Hm in Ecan, Eitem, Esize, Epad, Ephdr.
  assert (Hend' : phdr_to_last_uncached_entry m' phdr = hdr + private_alloc_size size).
  { unfold phdr_to_last_uncached_entry in *. fold phdr. subst hdr. lia. }
  assert (Hcached' : phdr_to_last_cached_entry m' phdr = phdr_to_last_cached_entry m phdr).
  { unfold phdr_to_last_cached_entry. congruence. }
  exists (tr ++ [hdr]).
  repeat split; try assumption.
  destruct (uncached_scan_total
              (Z.to_nat (phdr_to_last_uncached_entry m' phdr
                         - phdr_to_first_uncached_entry phdr))
              m' (phdr_to_last_uncached_entry m' phdr) item
              (phdr_to_first_uncached_entry phdr)) as (tr' & r' & Hs'); [lia|].
  rewrite Hs'. f_equal.
  eapply uncached_scan_fuel_indep; [exact Hs'|].
  eapply uncached_scan_appended; [exact Hs| | |assumption|congruence].
  - intros x Hx. rewrite Hm. apply run_steps_outside; [|lia].
    unfold phdr_to_first_uncached_entry, sizeof_partition_header in Hx. lia.
  - lia.
Qed.

(** Looking the new item up finds it at [hdr + 16] with exactly the
    requested size, inside the partition. *)
Lemma alloc_private_then_get m part item size m' :
  qcom_smem_alloc_private m part item size = Some (Ok tt, m') ->
  uncached_list_ok m (part_virt_base part) = true ->
  size_fits part size ->
  wrap16 item = item ->
  exists p,
    qcom_smem_get_private m' part item true = Some (Ok (p, Some size))
    /\ part_virt_base part <= p
    /\ p + size <= part_virt_base part + part_size part.
Proof.
  intros H Hwf Hf Hitem.
  pose proof (size_fits_valid _ _ Hf) as Hsize.
  pose proof (private_alloc_size_valid _ Hsize) as [Hasz Hal].
  unfold sizeof_private_entry in Hasz.
  destruct (alloc_private_then_scan _ _ _ _ _ H Hwf Hf Hitem)
    as (tr & Hs & Hh & Hend & Hcached & Hfit & Hcend & Esize & Epad & Ephdr).
  set (phdr := part_virt_base part) in *.
  set (hdr := phdr_to_last_uncached_entry m phdr) in *.
  assert (Hc32 : phdr_to_last_cached_entry m phdr < phdr + 2 ^ 32).
  { unfold phdr_to_last_cached_entry, phdr_offset_free_cached.
    pose proof (load32_range m (phdr + 16)). lia. }
  change (2 ^ 32) with 4294967296 in *.
  assert (Ha32 : wrap32 (ALIGN size 8) = ALIGN size 8).
  { unfold wrap32. change (2 ^ 32) with 4294967296. apply Z.mod_small.
    unfold valid_size in *. lia. }
  assert (Hpad : wrap16 (wrap64 (ALIGN size 8 - size)) = ALIGN size 8 - size).
  { unfold wrap16, wrap64.
    change (2 ^ 64) with 18446744073709551616. change (2 ^ 16) with 65536.
    rewrite !Z.mod_small; lia. }
  exists (hdr + 16).
  unfold qcom_smem_get_private, qcom_smem_get_private_run. fold phdr.
  rewrite Hs. simpl option_map. unfold get_uncached_item. fold phdr.
  rewrite Esize, Epad, Ha32, Hpad.
  unfold uncached_entry_to_item, sizeof_private_entry. rewrite Ephdr.
  destruct (Z.gtb_spec (ALIGN size 8) (part_size part)); [lia|].
  destruct (Z.gtb_spec (ALIGN size 8 - size) (ALIGN size 8));
    [unfold valid_size in *; lia|].
  destruct (Z.gtb_spec (hdr + 16 + 0) (phdr + part_size part)); [lia|].
  simpl. replace (hdr + 16 + 0) with (hdr + 16) by lia.
  replace (wrap32 (ALIGN size 8 - (ALIGN size 8 - size))) with size.
  - repeat split; lia.
  - unfold wrap32. change (2 ^ 32) with 4294967296.
    rewrite Z.mod_small; unfold valid_size in *; lia.
Qed.

(** Asking for the same item again is refused and writes nothing. *)
Lemma alloc_private_twice m part item size m' size2 :
  qcom_smem_alloc_private m part item size = Some (Ok tt, m') ->
  uncached_list_ok m (part_virt_base part) = true ->
  size_fits part size ->
  wrap16 item = item ->
  qcom_smem_alloc_private m' part item size2 = Some (Err EEXIST, m').
Proof.
  intros H Hwf Hf Hitem.
  destruct (alloc_private_then_scan _ _ _ _ _ H Hwf Hf Hitem)
    as (tr & Hs & Hh & Hend & Hcached & Hfit & Hcend & _).
  set (phdr := part_virt_base part) in *.
  unfold qcom_smem_alloc_private, qcom_smem_alloc_private_run. fold phdr.
  destruct (Z.gtb_spec (phdr_to_last_uncached_entry m' phdr) (phdr + part_size part));
    [lia|].
  destruct (Z.gtb_spec (phdr_to_last_cached_entry m' phdr) (phdr + part_size part));
    [lia|].
  simpl orb. cbv iota. rewrite Hs. reflexivity.
Qed.

(** ** Allocation in the global heap followed by a lookup *)

Lemma alloc_global_ok smem m item size m' :
  qcom_smem_alloc_global smem m item size = (Ok tt, m') ->
  0 <= item ->
  let header := region_virt_base (region_of smem 0) in
  let entry := header_toc header item in
  gentry_allocated m entry = 0
  /\ ALIGN size 8 <= header_available m header
  /\ gentry_allocated m' entry = 1
  /\ gentry_offset m' entry = header_free_offset m header
  /\ gentry_size m' entry = ALIGN size 8
  /\ gentry_aux_base m' entry = gentry_aux_base m entry.
Proof.
  intros H Hitem header entry. unfold qcom_smem_alloc_global in H.
  fold header in H. fold entry in H.
  destruct (Z.eqb_spec (gentry_allocated m entry) 0) as [Ha|Ha]; simpl in H;
    [|discriminate].
  destruct (Z.gtb_spec (ALIGN size 8) (header_available m header)); [discriminate|].
  injection H as <-.
  assert (He : entry = header + 208 + 16 * item) by reflexivity.
  pose proof (load32_range m (header + 200)) as Hav.
  pose proof (ALIGN_nonneg size 8).
  unfold header_available, header_free_offset in *.
  unfold gentry_allocated, gentry_offset, gentry_size, gentry_aux_base, le32_add_cpu.
  repeat split; try assumption.
  - rewrite !load32_store32_other, load32_store32_same by lia. reflexivity.
  - rewrite !load32_store32_other, load32_store32_same by lia.
    unfold wrap32. apply Z.mod_small. apply load32_range.
  - rewrite !load32_store32_other, load32_store32_same by lia.
    unfold wrap32. apply Z.mod_small. lia.
  - rewrite !load32_store32_other by lia. reflexivity.
Qed.

Lemma alloc_global_err smem m item size e m' :
  qcom_smem_alloc_global smem m item size = (Err e, m') -> m' = m.
Proof.
  unfold qcom_smem_alloc_global. destruct (negb _); [congruence|].
  destruct (_ >? _); congruence.
Qed.

Lemma alloc_global_then_get smem m item size m' :
  qcom_smem_alloc_global smem m item size = (Ok tt, m') ->
  global_heap_ok smem m item = true ->
  0 <= item ->
  0 <= size <= 2 ^ 64 - 8 ->
  exists p sz,
    qcom_smem_get_global smem m' item true = Ok (p, Some sz)
    /\ size <= sz
    /\ region_virt_base (region_of smem 0) <= p
    /\ p + size <= region_virt_base (region_of smem 0)
                   + region_size (region_of smem 0).
Proof.
  intros H Hok Hitem Hsize.
  apply alloc_global_ok in H as (_ & Hav & Ea & Eo & Es & Eaux); [|assumption].
  unfold global_heap_ok in Hok.
  apply andb_prop in Hok as [Hok Haux]. apply andb_prop in Hok as [Hn Hfit].
  apply Z.leb_le in Hn, Hfit. apply Z.eqb_eq in Haux.
  set (header := region_virt_base (region_of smem 0)) in *.
  set (entry := header_toc header item) in *.
  pose proof (ALIGN_8_bounds size Hsize).
  pose proof (load32_range m (header + 196)) as Hfo.
  unfold header_free_offset, header_available in *.
  unfold qcom_smem_get_global. fold header. fold entry.
  rewrite Ea. simpl. rewrite Eaux, Haux.
  destruct (Z.to_nat (num_regions smem)) as [|n] eqn:En; [lia|].
  simpl. rewrite orb_true_r. rewrite Es, Eo.
  destruct (Z.gtb_spec (ALIGN size 8 + load32 m (header + 196))
                       (region_size (region_of smem 0))); [lia|].
  do 2 eexists. split; [reflexivity|]. lia.
Qed.

Lemma alloc_global_twice smem m item size m' size2 :
  qcom_smem_alloc_global smem m item size = (Ok tt, m') ->
  0 <= item ->
  qcom_smem_alloc_global smem m' item size2 = (Err EEXIST, m').
Proof.
  intros H Hitem.
  apply alloc_global_ok in H as (_ & _ & Ea & _); [|assumption].
  unfold qcom_smem_alloc_global. rewrite Ea. reflexivity.
Qed.

(** ** C1 and C2 at the entry points *)

Lemma alloc_accepts_item smem m host item size r :
  qcom_smem_alloc (Some smem) m host item size = Some (Ok tt, r) ->
  SMEM_ITEM_LAST_FIXED <= item < item_count smem
  /\ match select_partition smem host with
     | Some part => qcom_smem_alloc_private m part item size = Some (Ok tt, r)
     | None => qcom_smem_alloc_global smem m item size = (Ok tt, r)
     end.
Proof.
  unfold qcom_smem_alloc.
  destruct (Z.ltb_spec item SMEM_ITEM_LAST_FIXED); [discriminate|].
  destruct (Z.geb_spec item (item_count smem)); [discriminate|].
  intros Halloc. split; [lia|].
  destruct (select_partition smem host); [assumption|congruence].
Qed.

(** C1 as the code has it.  On a heap whose part serving [(host, item)] is
    well formed, and for a size that fits (in a partition, a record of
    that size placed at the very end of the partition would still end 16
    GiB or more below [2^64]; in the global heap, the size rounded up to a
    multiple of 8 is below [2^64]): when [qcom_smem_alloc(host, item,
    size)] succeeds (so [item] is at least [SMEM_ITEM_LAST_FIXED] and
    below the item count), [qcom_smem_get(host, item, &sz)] on the
    resulting heap returns a pointer, not an error; the size it reports is
    at least [size]; and the bytes [p, p + size) lie inside the partition
    selected for [host], or inside the first region when the global heap
    serves the request. *)
Theorem alloc_then_get smem m host item size m' :
  heap_ok smem m host item = true ->
  owner_size_fits smem host size ->
  qcom_smem_alloc (Some smem) m host item size = Some (Ok tt, m') ->
  exists p sz,
    qcom_smem_get (Some smem) m' host item true = Some (Ok (p, Some sz))
    /\ size <= sz
    /\ fst (owner_bounds smem host) <= p
    /\ p + size <= snd (owner_bounds smem host).
Proof.
  intros Hok Hsize H.
  apply alloc_accepts_item in H as [Hitem H].
  unfold heap_ok, owner_list_ok in Hok.
  apply andb_prop in Hok as [Hok Hg]. apply andb_prop in Hok as [Hcount Hl].
  apply Z.leb_le in Hcount. unfold SMEM_ITEM_LAST_FIXED in Hitem.
  unfold qcom_smem_get, owner_bounds. unfold owner_size_fits in Hsize.
  destruct (Z.geb_spec item (item_count smem)); [lia|].
  destruct (select_partition smem host) as [part|].
  - destruct (alloc_private_then_get _ _ _ _ _ H Hl Hsize) as (p & Hget & Hlo & Hhi).
    { unfold wrap16. change (2 ^ 16) with 65536. apply Z.mod_small. lia. }
    exists p, size. simpl. repeat split; try assumption. lia.
  - destruct (alloc_global_then_get _ _ _ _ _ H Hg) as (p & sz & Hget & Hsz & Hlo & Hhi).
    { lia. }
    { lia. }
    exists p, sz. simpl. rewrite Hget. repeat split; assumption.
Qed.

(** C2 as the code has it.  On a heap whose list for [host] is well
    formed, once [qcom_smem_alloc(host, item, size)] has succeeded, and
    provided that in a partition the size fits (a record of that size
    placed at the very end of the partition would still end 16 GiB or more
    below [2^64]), every further [qcom_smem_alloc(host, item, size2)],
    whatever [size2], returns [-EEXIST] (AlreadyExists) and hands back the
    memory unchanged: cursors, counters and records keep their values and
    no record is written. *)
Theorem alloc_twice_exists smem m host item size m' size2 :
  owner_list_ok smem m host = true ->
  (forall part, select_partition smem host = Some part -> size_fits part size) ->
  qcom_smem_alloc (Some smem) m host item size = Some (Ok tt, m') ->
  qcom_smem_alloc (Some smem) m' host item size2 = Some (Err EEXIST, m').
Proof.
  intros Hok Hsize H.
  apply alloc_accepts_item in H as [Hitem H].
  unfold owner_list_ok in Hok. apply andb_prop in Hok as [Hcount Hl].
  apply Z.leb_le in Hcount. unfold SMEM_ITEM_LAST_FIXED in Hitem.
  unfold qcom_smem_alloc.
  destruct (Z.ltb_spec item SMEM_ITEM_LAST_FIXED);
    [unfold SMEM_ITEM_LAST_FIXED in *; lia|].
  destruct (Z.geb_spec item (item_count smem)); [lia|].
  destruct (select_partition smem host) as [part|].
  - eapply alloc_private_twice; try eassumption.
    + apply Hsize. reflexivity.
    + unfold wrap16. change (2 ^ 16) with 65536. apply Z.mod_small. lia.
  - f_equal. eapply alloc_global_twice; [eassumption|lia].
Qed.

(** ** C4: a bad canary ends the walk *)

Lemma trace_shape_cons m e tr r :
  canary_good m e -> trace_shape m tr r -> trace_shape m (e :: tr) r.
Proof.
  intros He. destruct r as [x|x|x]; simpl; try (constructor; assumption).
  intros (Hx & pre & -> & Hpre). split; [assumption|].
  exists (e :: pre). split; [reflexivity|constructor; assumption].
Qed.

Lemma uncached_scan_trace fuel m end_ item : forall e tr r,
  uncached_scan fuel m e end_ item = Some (tr, r) -> trace_shape m tr r.
Proof.
  induction fuel as [|fuel IH]; intros e tr r H; simpl in H.
  - destruct (e <? end_); [discriminate|]. injection H as <- <-. constructor.
  - destruct (e <? end_); [|injection H as <- <-; constructor].
    destruct (Z.eqb_spec (entry_canary m e) SMEM_PRIVATE_CANARY) as [Hc|Hc];
      simpl in H.
    + destruct (_ =? item).
      * injection H as <- <-. simpl. constructor; [assumption|constructor].
      * destruct (uncached_scan fuel m _ end_ item) as [[tr' r']|] eqn:E;
          [|discriminate].
        injection H as <- <-. apply trace_shape_cons; [assumption|].
        eapply IH; eassumption.
    + injection H as <- <-. simpl. split; [assumption|].
      exists []. split; [reflexivity|constructor].
Qed.

Lemma cached_scan_trace fuel m end_ cacheline item : forall e tr r,
  cached_scan fuel m e end_ cacheline item = Some (tr, r) -> trace_shape m tr r.
Proof.
  induction fuel as [|fuel IH]; intros e tr r H; simpl in H.
  - destruct (e >? end_); [discriminate|]. injection H as <- <-. constructor.
  - destruct (e >? end_); [|injection H as <- <-; constructor].
    destruct (Z.eqb_spec (entry_canary m e) SMEM_PRIVATE_CANARY) as [Hc|Hc];
      simpl in H.
    + destruct (_ =? item).
      * injection H as <- <-. simpl. constructor; [assumption|constructor].
      * destruct (cached_scan fuel m _ end_ cacheline item) as [[tr' r']|] eqn:E;
          [|discriminate].
        injection H as <- <-. apply trace_shape_cons; [assumption|].
        eapply IH; eassumption.
    + injection H as <- <-. simpl. split; [assumption|].
      exists []. split; [reflexivity|constructor].
Qed.

(** A visited entry with a bad canary is where the walk stopped. *)
Lemma trace_shape_bad m tr r e :
  trace_shape m tr r -> In e tr -> ~ canary_good m e ->
  r = ScanBadCanary e
  /\ exists pre, tr = pre ++ [e] /\ Forall (canary_good m) pre.
Proof.
  intros Hs Hin Hbad.
  assert (Hgood : Forall (canary_good m) tr -> False).
  { intros Hall. rewrite Forall_forall in Hall. exact (Hbad (Hall _ Hin)). }
  destruct r as [x|x|x]; simpl in Hs; try (exfalso; exact (Hgood Hs)).
  destruct Hs as (Hx & pre & -> & Hpre).
  apply in_app_or in Hin as [Hin|[<-|[]]].
  - exfalso. rewrite Forall_forall in Hpre. exact (Hbad (Hpre _ Hin)).
  - split; [reflexivity|]. exists pre. split; [reflexivity|assumption].
Qed.

(** C4.  Let the canary of the entry at [e] differ from [0xa5a5].  Whenever
    the forward walk of [qcom_smem_alloc_private], or the forward or backward
    walk of [qcom_smem_get_private], visits [e], the call returns [-EINVAL]
    (Corrupt); [e] is the last entry visited, so it is not skipped and
    nothing past it is looked at; every entry visited before it had a good
    canary, so [e] is the first bad one; and the allocation writes
    nothing. *)
Theorem canary_mismatch_aborts m part item size want_size e :
  entry_canary m e <> SMEM_PRIVATE_CANARY ->
  (forall tr r m',
      qcom_smem_alloc_private_run m part item size = Some (tr, (r, m')) ->
      In e tr ->
      r = Err EINVAL /\ m' = m
      /\ exists pre, tr = pre ++ [e] /\ Forall (canary_good m) pre)
  /\ (forall tr r,
        qcom_smem_get_private_run m part item want_size = Some (tr, r) ->
        In e tr ->
        r = Err EINVAL
        /\ exists pre, tr = pre ++ [e] /\ Forall (canary_good m) pre).
Proof.
  intros Hbad. split.
  - intros tr r m' H Hin. unfold qcom_smem_alloc_private_run in H.
    destruct (_ || _); [injection H as <- <- <-; destruct Hin|].
    destruct (uncached_scan _ m _ _ item) as [[tr0 r0]|] eqn:E; [|discriminate].
    pose proof (uncached_scan_trace _ _ _ _ _ _ _ E) as Hs.
    assert (tr0 = tr) as ->.
    { destruct r0; [| |destruct (_ >? _); [|destruct (_ >? _)]]; congruence. }
    destruct (trace_shape_bad _ _ _ _ Hs Hin Hbad) as (-> & Hpre).
    injection H as <- <-. repeat split; assumption.
  - intros tr r H Hin. unfold qcom_smem_get_private_run in H.
    destruct (uncached_scan _ m _ _ item) as [[tr1 r1]|] eqn:E; [|discriminate].
    pose proof (uncached_scan_trace _ _ _ _ _ _ _ E) as Hs1.
    destruct r1 as [x|x|x].
    + injection H as <- <-.
      destruct (trace_shape_bad _ _ _ _ Hs1 Hin Hbad) as (Hr & _). discriminate.
    + injection H as <- <-.
      destruct (trace_shape_bad _ _ _ _ Hs1 Hin Hbad) as (_ & Hpre).
      split; [reflexivity|assumption].
    + destruct (_ >? _).
      * injection H as <- <-.
        destruct (trace_shape_bad _ _ _ _ Hs1 Hin Hbad) as (Hr & _). discriminate.
      * destruct (get_private_cached m part item want_size) as [[tr2 r2]|] eqn:E2;
          [|discriminate].
        injection H as <- <-. simpl in Hs1.
        apply in_app_or in Hin as [Hin|Hin].
        { exfalso. rewrite Forall_forall in Hs1. exact (Hbad (Hs1 _ Hin)). }
        unfold get_private_cached in E2.
        destruct (_ || _); [injection E2 as <- <-; destruct Hin|].
        destruct (cached_scan _ m _ _ _ item) as [[tr0 r0]|] eqn:E3; [|discriminate].
        pose proof (cached_scan_trace _ _ _ _ _ _ _ _ E3) as Hs2.
        assert (tr0 = tr2) as ->.
        { destruct r0; [| |destruct (_ <? _)]; congruence. }
        destruct (trace_shape_bad _ _ _ _ Hs2 Hin Hbad) as (-> & pre & -> & Hpre).
        injection E2 as <-. split; [reflexivity|].
        exists (tr1 ++ pre). split; [apply app_assoc|].
        apply Forall_app. split; assumption.
Qed.
(** ** C6: the record is written before the cursor moves *)

Lemma record_stores_outside phdr hdr item size asz k m x :
  (k <= 6)%nat ->
  x < hdr \/ hdr + 12 <= x ->
  run_steps phdr hdr item size asz (firstn k alloc_private_steps) m x = m x.
Proof.
  intros Hk Hx. unfold run_steps, alloc_private_steps.
  do 7 (destruct k as [|k]; [
    cbn [firstn fold_left alloc_step_exec];
    repeat first [rewrite store16_outside by lia | rewrite store32_outside by lia];
    reflexivity|]).
  lia.
Qed.

(** A step changes no byte outside [step_writes]. *)
Lemma step_writes_exact phdr hdr item size asz m s x :
  step_writes phdr hdr s x = false ->
  alloc_step_exec phdr hdr item size asz m s x = m x.
Proof.
  destruct s; simpl; intros H; try reflexivity;
    apply andb_false_iff in H;
    first [apply store16_outside | apply store32_outside
           | apply le32_add_cpu_outside];
    destruct H as [H|H];
    first [apply Z.leb_gt in H | apply Z.ltb_ge in H]; lia.
Qed.

(** The steps store to pairwise disjoint bytes, the record lying behind the
    partition header. *)
Lemma step_writes_disjoint phdr hdr s s' x :
  phdr + 16 <= hdr ->
  s <> s' ->
  step_writes phdr hdr s x = true ->
  step_writes phdr hdr s' x = false.
Proof.
  intros Hh Hne H.
  destruct s; simpl in H; try discriminate;
    apply andb_prop in H as [H1 H2];
    apply Z.leb_le in H1; apply Z.ltb_lt in H2;
    destruct s'; simpl; try reflexivity; try congruence;
    apply andb_false_iff;
    first [left; apply Z.leb_gt; lia | right; apply Z.ltb_ge; lia].
Qed.

Lemma run_steps_cons phdr hdr item size asz s steps m :
  run_steps phdr hdr item size asz (s :: steps) m
  = run_steps phdr hdr item size asz steps
              (alloc_step_exec phdr hdr item size asz m s).
Proof. reflexivity. Qed.

Lemma run_steps_app phdr hdr item size asz a b m :
  run_steps phdr hdr item size asz (a ++ b) m
  = run_steps phdr hdr item size asz b (run_steps phdr hdr item size asz a m).
Proof. unfold run_steps. apply fold_left_app. Qed.

Lemma run_steps_untouched phdr hdr item size asz x steps : forall m,
  (forall s, In s steps -> step_writes phdr hdr s x = false) ->
  run_steps phdr hdr item size asz steps m x = m x.
Proof.
  induction steps as [|s steps IH]; intros m H; [reflexivity|].
  rewrite run_steps_cons, IH by (intros s' Hs'; apply H; right; assumption).
  apply step_writes_exact. apply H. left. reflexivity.
Qed.

(** What a reader sees of a byte: the writer's final value if it has
    received the store that covers the byte, the old value otherwise. *)
Lemma observe_spec phdr hdr item size asz seen x steps : forall mw mo,
  phdr + 16 <= hdr ->
  NoDup steps ->
  observe phdr hdr item size asz seen steps mw mo x
  = if existsb (fun s => seen s && step_writes phdr hdr s x) steps
    then run_steps phdr hdr item size asz steps mw x
    else mo x.
Proof.
  induction steps as [|s steps IH]; intros mw mo Hh Hnd; [reflexivity|].
  inversion Hnd as [|? ? Hnotin Hnd']; subst.
  cbn [observe existsb]. rewrite IH by assumption. rewrite run_steps_cons.
  destruct (existsb _ steps) eqn:Ex.
  - rewrite orb_true_r. reflexivity.
  - rewrite orb_false_r.
    destruct (seen s); simpl; [|reflexivity].
    destruct (step_writes phdr hdr s x) eqn:Ew; [|reflexivity].
    symmetry. apply run_steps_untouched.
    intros s' Hs'. apply (step_writes_disjoint phdr hdr s s' x Hh); [|exact Ew].
    intros ->. contradiction.
Qed.

Lemma alloc_private_steps_nodup : NoDup alloc_private_steps.
Proof.
  unfold alloc_private_steps.
  repeat (constructor; [simpl; intuition discriminate|]). constructor.
Qed.

(** The record is complete once its five stores are done. *)
Lemma record_complete_from_5 phdr hdr item size asz m k :
  phdr + 16 <= hdr ->
  (5 <= k)%nat ->
  record_complete
    (run_steps phdr hdr item size asz (firstn k alloc_private_steps) m)
    hdr item size.
Proof.
  intros Hh Hk.
  assert (H7 : record_complete
                 (run_steps phdr hdr item size asz alloc_private_steps m)
                 hdr item size)
    by (apply run_steps_entry; assumption).
  assert (Hsame : forall x, hdr <= x < hdr + 12 ->
            run_steps phdr hdr item size asz (firstn k alloc_private_steps) m x
            = run_steps phdr hdr item size asz alloc_private_steps m x).
  { intros x Hx.
    do 5 (destruct k as [|k]; [lia|]).
    destruct k as [|k]; [|destruct k as [|k]].
    - change alloc_private_steps
        with (firstn 5 alloc_private_steps ++ [Wmb; AdvanceCursor]) at 2.
      rewrite run_steps_app. symmetry.
      apply run_steps_untouched. intros s [<-|[<-|[]]]; simpl; [reflexivity|].
      apply andb_false_iff. right. apply Z.ltb_ge. lia.
    - change alloc_private_steps
        with (firstn 6 alloc_private_steps ++ [AdvanceCursor]) at 2.
      rewrite run_steps_app. symmetry.
      apply run_steps_untouched. intros s [<-|[]]; simpl.
      apply andb_false_iff. right. apply Z.ltb_ge. lia.
    - rewrite firstn_all2 by (simpl; lia). reflexivity. }
  destruct H7 as (E1 & E2 & E3 & E4 & E5).
  unfold record_complete, entry_canary, entry_item, entry_size,
    entry_padding_data, entry_padding_hdr in *.
  split; [|split; [|split; [|split]]];
    [etransitivity; [|exact E1] | etransitivity; [|exact E2]
     | etransitivity; [|exact E3] | etransitivity; [|exact E4]
     | etransitivity; [|exact E5]];
    first [apply load16_ext | apply load32_ext];
    intros x Hx; apply Hsame; lia.
Qed.

Lemma wmb_split pre post :
  alloc_private_steps = pre ++ Wmb :: post ->
  pre = [WrCanary; WrItem; WrSize; WrPaddingData; WrPaddingHdr]
  /\ post = [AdvanceCursor].
Proof.
  unfold alloc_private_steps. intros H.
  do 5 (destruct pre as [|? pre]; [discriminate H|injection H as <- H]).
  destruct pre as [|? pre].
  - injection H as <-. auto.
  - injection H as <- H. destruct pre as [|? pre]; [discriminate H|].
    injection H as <- H. destruct pre; discriminate H.
Qed.

(** The writer's own view after [k] steps is one of the views a reader can
    have: it has received the stores of the first [k] steps, which respects
    the barrier. *)
Lemma seen_first_respects k : respects_wmb alloc_private_steps (seen_first k).
Proof.
  intros pre post Heq before after Hb Ha Hs.
  apply wmb_split in Heq as [-> ->].
  destruct Ha as [<-|[]].
  do 7 (destruct k as [|k]; [discriminate Hs|]).
  simpl in Hb. unfold seen_first. rewrite firstn_all2 by (simpl; lia).
  decompose [or] Hb; subst; try reflexivity. contradiction.
Qed.

Lemma prefix_is_observed phdr hdr item size asz m k x :
  phdr + 16 <= hdr ->
  observe phdr hdr item size asz (seen_first k) alloc_private_steps m m x
  = run_steps phdr hdr item size asz (firstn k alloc_private_steps) m x.
Proof.
  intros Hh. rewrite observe_spec by (try lia; apply alloc_private_steps_nodup).
  rewrite <- (firstn_skipn k alloc_private_steps) at 2.
  rewrite run_steps_app.
  destruct (existsb _ _) eqn:Ex.
  - apply existsb_exists in Ex as (s & Hs & Hw).
    apply andb_prop in Hw as [Hseen Hw].
    apply run_steps_untouched. intros s' Hs'.
    apply (step_writes_disjoint phdr hdr s s' x Hh); [|exact Hw].
    intros ->.
    pose proof alloc_private_steps_nodup as Hnd.
    rewrite <- (firstn_skipn k alloc_private_steps) in Hnd.
    apply NoDup_app_remove_l in Hnd as Hnd2.
    revert Hseen Hs' Hnd. clear.
    unfold seen_first.
    do 8 (destruct k as [|k]; [cbn; intros; intuition (try discriminate; subst; try discriminate)|]).
    cbn. intros _ [].
  - symmetry. apply run_steps_untouched. intros s Hs.
    destruct (step_writes phdr hdr s x) eqn:Ew; [|reflexivity].
    exfalso.
    assert (seen_first k s = true).
    { revert Hs. clear. unfold seen_first.
      do 8 (destruct k as [|k]; [cbn; intros; intuition (subst; reflexivity)|]).
      cbn; intros; intuition (subst; reflexivity). }
    assert (Hex: existsb (fun s0 => seen_first k s0 && step_writes phdr hdr s0 x) alloc_private_steps = true).
    { apply existsb_exists. exists s. split.
      - rewrite <- (firstn_skipn k alloc_private_steps). apply in_or_app. auto.
      - rewrite H, Ew. reflexivity. }
    congruence.
Qed.

(** C6.  A successful [qcom_smem_alloc_private] places its record at [hdr],
    at or behind the old forward cursor, and ends with the record complete
    (canary, item, size and both padding fields) and the cursor advanced by
    the record size.  In its step-by-step execution the cursor keeps its old
    value through the first six steps and the record is complete from the
    fifth step on, so that after any number of steps a cursor that differs
    from the old one comes with the complete record.  The same holds for a
    reader on another processor, who receives the stores in an order of its
    own but, by [wmb()], none of those issued after the barrier before all of
    those issued before it: the cursor it reads is the old or the new one,
    and whenever it is not the old one the record it reads is complete. *)
Theorem record_published_before_cursor m part item size m' :
  qcom_smem_alloc_private m part item size = Some (Ok tt, m') ->
  let phdr := part_virt_base part in
  let asz := private_alloc_size size in
  exists hdr,
    phdr + sizeof_partition_header <= hdr
    /\ phdr + phdr_offset_free_uncached m phdr <= hdr
    /\ record_complete m' hdr item size
    /\ phdr_offset_free_uncached m' phdr
       = wrap32 (phdr_offset_free_uncached m phdr + asz)
    /\ (forall k,
          let mk := run_steps phdr hdr item size asz
                              (firstn k alloc_private_steps) m in
          ((k <= 6)%nat ->
           phdr_offset_free_uncached mk phdr = phdr_offset_free_uncached m phdr)
          /\ ((5 <= k)%nat -> record_complete mk hdr item size)
          /\ ((7 <= k)%nat -> mk = m')
          /\ (phdr_offset_free_uncached mk phdr
              <> phdr_offset_free_uncached m phdr ->
              record_complete mk hdr item size))
    /\ (forall seen,
          respects_wmb alloc_private_steps seen ->
          let mo := observe phdr hdr item size asz seen
                            alloc_private_steps m m in
          (phdr_offset_free_uncached mo phdr = phdr_offset_free_uncached m phdr
           \/ phdr_offset_free_uncached mo phdr
              = phdr_offset_free_uncached m' phdr)
          /\ (phdr_offset_free_uncached mo phdr
              <> phdr_offset_free_uncached m phdr ->
              record_complete mo hdr item size)).
Proof.
  intros H phdr asz. apply alloc_private_of_run in H as [tr H].
  apply alloc_private_run_ok in H as (hdr & _ & Hh & He & _ & _ & _ & Hm).
  fold phdr in Hh, He, Hm. fold asz in Hm.
  unfold phdr_to_last_uncached_entry in He.
  exists hdr. unfold sizeof_partition_header.
  split; [lia|]. split; [assumption|].
  split; [rewrite Hm; apply run_steps_entry; lia|].
  split; [rewrite Hm; apply run_steps_cursor; lia|].
  assert (Hpre : forall k, (k <= 6)%nat ->
            phdr_offset_free_uncached
              (run_steps phdr hdr item size asz (firstn k alloc_private_steps) m)
              phdr
            = phdr_offset_free_uncached m phdr).
  { intros k Hk. unfold phdr_offset_free_uncached. apply load32_ext.
    intros x Hx. apply record_stores_outside; [assumption|lia]. }
  split.
  - intros k. split; [apply Hpre|].
    split; [apply record_complete_from_5; lia|].
    split.
    + intros Hk. rewrite firstn_all2 by (simpl; lia). symmetry. exact Hm.
    + intros Hne. destruct (Nat.le_gt_cases k 6) as [Hk|Hk].
      * exfalso. apply Hne. apply Hpre. assumption.
      * apply record_complete_from_5; lia.
  - intros seen Hseen.
    set (mo := observe phdr hdr item size asz seen alloc_private_steps m m).
    assert (Hmo : forall x,
              mo x = if existsb (fun s => seen s && step_writes phdr hdr s x)
                                alloc_private_steps
                     then m' x else m x).
    { intros x. subst mo. rewrite Hm.
      apply observe_spec; [lia|apply alloc_private_steps_nodup]. }
    assert (Hcur : forall x, phdr + 12 <= x < phdr + 16 ->
              existsb (fun s => seen s && step_writes phdr hdr s x)
                      alloc_private_steps
              = seen AdvanceCursor).
    { intros x Hx. unfold alloc_private_steps. cbn [existsb step_writes].
      repeat match goal with
             | |- context [(?a <=? x) && (x <? ?b)] =>
                 replace ((a <=? x) && (x <? b)) with false
                   by (symmetry; apply andb_false_iff; left; apply Z.leb_gt; lia)
             end.
      rewrite !andb_false_r. simpl.
      destruct (Z.leb_spec (phdr + 12) x); [|lia].
      destruct (Z.ltb_spec x (phdr + 16)); [|lia].
      simpl. rewrite andb_true_r, orb_false_r. reflexivity. }
    destruct (seen AdvanceCursor) eqn:Ea.
    + assert (Hall : forall s, In s [WrCanary; WrItem; WrSize; WrPaddingData;
                                     WrPaddingHdr] -> seen s = true).
      { intros s Hs.
        apply (Hseen [WrCanary; WrItem; WrSize; WrPaddingData; WrPaddingHdr]
                     [AdvanceCursor] eq_refl s AdvanceCursor Hs);
          [left; reflexivity|exact Ea]. }
      assert (Hrec : forall x, hdr <= x < hdr + 12 -> mo x = m' x).
      { intros x Hx. rewrite Hmo.
        destruct (existsb _ alloc_private_steps) eqn:Ex; [reflexivity|].
        exfalso.
        assert (Hn : forall s, In s alloc_private_steps ->
                       seen s && step_writes phdr hdr s x = false).
        { intros s Hs.
          destruct (seen s && step_writes phdr hdr s x) eqn:E; [|reflexivity].
          rewrite <- Ex. symmetry. apply existsb_exists. exists s. auto. }
        assert (H1 := Hn WrCanary ltac:(simpl; tauto)).
        assert (H2 := Hn WrItem ltac:(simpl; tauto)).
        assert (H3 := Hn WrSize ltac:(simpl; tauto)).
        assert (H4 := Hn WrPaddingData ltac:(simpl; tauto)).
        assert (H5 := Hn WrPaddingHdr ltac:(simpl; tauto)).
        rewrite Hall in H1, H2, H3, H4, H5 by (simpl; tauto).
        simpl in H1, H2, H3, H4, H5.
        apply andb_false_iff in H1, H2, H3, H4, H5.
        rewrite !Z.leb_gt, !Z.ltb_ge in *. lia. }
      assert (Hc : phdr_offset_free_uncached mo phdr
                   = phdr_offset_free_uncached m' phdr).
      { unfold phdr_offset_free_uncached. apply load32_ext. intros x Hx.
        rewrite Hmo, Hcur by lia. reflexivity. }
      split; [right; exact Hc|]. intros _.
      assert (H7 : record_complete m' hdr item size)
        by (rewrite Hm; apply run_steps_entry; lia).
      destruct H7 as (E1 & E2 & E3 & E4 & E5).
      unfold record_complete, entry_canary, entry_item, entry_size,
        entry_padding_data, entry_padding_hdr in *.
      split; [|split; [|split; [|split]]];
        [etransitivity; [|exact E1] | etransitivity; [|exact E2]
         | etransitivity; [|exact E3] | etransitivity; [|exact E4]
         | etransitivity; [|exact E5]];
        first [apply load16_ext | apply load32_ext];
        intros x Hx; apply Hrec; lia.
    + assert (Hc : phdr_offset_free_uncached mo phdr
                   = phdr_offset_free_uncached m phdr).
      { unfold phdr_offset_free_uncached. apply load32_ext. intros x Hx.
        rewrite Hmo, Hcur by lia. reflexivity. }
      split; [left; exact Hc|]. intros Hne. contradiction.
Qed.

(** ** C5: what a lookup validates *)

Lemma uncached_scan_found fuel m end_ item : forall e0 tr e,
  uncached_scan fuel m e0 end_ item = Some (tr, ScanFound e) ->
  e0 <= e /\ In e tr /\ entry_item m e = item.
Proof.
  induction fuel as [|fuel IH]; intros e0 tr e H; simpl in H.
  - destruct (e0 <? end_); discriminate.
  - destruct (e0 <? end_); [|discriminate].
    destruct (negb _); [discriminate|].
    destruct (Z.eqb_spec (entry_item m e0) item).
    + injection H as <- <-. simpl. repeat split; auto. lia.
    + destruct (uncached_scan fuel m _ end_ item) as [[tr' r']|] eqn:E;
        [|discriminate].
      injection H as <- ->. apply IH in E as (Hle & Hin & Hi).
      pose proof (uncached_entry_next_ge m e0). unfold sizeof_private_entry in *.
      repeat split; [lia|right; assumption|assumption].
Qed.

(** A step of the backward walk that does not wrap: the entry and its
    aligned header fit below the entry's own address. *)
Lemma cached_entry_next_le m e cacheline :
  entry_size m e + ALIGN sizeof_private_entry cacheline <= e < 2 ^ 64 ->
  cached_entry_next m e cacheline
  = e - entry_size m e - ALIGN sizeof_private_entry cacheline
  /\ 0 <= cached_entry_next m e cacheline <= e.
Proof.
  intros H. unfold cached_entry_next, entry_size, wrap64 in *.
  pose proof (load32_range m (e + 4)).
  pose proof (ALIGN_nonneg sizeof_private_entry cacheline).
  change (2 ^ 64) with 18446744073709551616 in *.
  rewrite Z.mod_small by lia. lia.
Qed.


(** While no step wraps, the backward walk only moves down. *)
Lemma cached_scan_found fuel m end_ cacheline item : forall e0 tr e,
  cached_scan fuel m e0 end_ cacheline item = Some (tr, ScanFound e) ->
  e0 < 2 ^ 64 ->
  (forall x, In x tr ->
     entry_size m x + ALIGN sizeof_private_entry cacheline <= x) ->
  e <= e0 /\ In e tr /\ entry_item m e = item.
Proof.
  induction fuel as [|fuel IH]; intros e0 tr e H Hlt Hnw; simpl in H.
  - destruct (e0 >? end_); discriminate.
  - destruct (e0 >? end_); [|discriminate].
    destruct (negb _); [discriminate|].
    destruct (Z.eqb_spec (entry_item m e0) item).
    + injection H as <- <-. simpl. repeat split; auto. lia.
    + destruct (cached_scan fuel m _ end_ cacheline item) as [[tr' r']|] eqn:E;
        [|discriminate].
      injection H as <- ->.
      destruct (cached_entry_next_le m e0 cacheline) as [_ Hle].
      { split; [apply Hnw; left; reflexivity|assumption]. }
      apply IH in E as (Hle' & Hin & Hi);
        [|lia|intros x Hx; apply Hnw; right; assumption].
      repeat split; [lia|right; assumption|assumption].
Qed.






(** ** C9: refusals of the global heap *)

(** C9 as the code has it.  [qcom_smem_alloc_global] returns [-EEXIST]
    (AlreadyExists) for a slot that is already allocated, and [-ENOMEM]
    (OutOfMemory) for a free slot when [ALIGN(size, 8)] exceeds the header's
    [available]; in both cases the memory, hence the slot, [free_offset] and
    [available], is handed back unchanged.  With [available = 0] that is the
    answer for every size from 1 up to [2^64 - 8], the sizes that [ALIGN]
    does not wrap to 0. *)
Theorem alloc_global_refusals smem m item size :
  let header := region_virt_base (region_of smem 0) in
  let entry := header_toc header item in
  (gentry_allocated m entry <> 0 ->
   qcom_smem_alloc_global smem m item size = (Err EEXIST, m))
  /\ (gentry_allocated m entry = 0 ->
      ALIGN size 8 > header_available m header ->
      qcom_smem_alloc_global smem m item size = (Err ENOMEM, m))
  /\ (gentry_allocated m entry = 0 ->
      header_available m header = 0 ->
      0 < size <= 2 ^ 64 - 8 ->
      qcom_smem_alloc_global smem m item size = (Err ENOMEM, m)).
Proof.
  intros header entry.
  assert (Hmem : gentry_allocated m entry = 0 ->
                 ALIGN size 8 > header_available m header ->
                 qcom_smem_alloc_global smem m item size = (Err ENOMEM, m)).
  { intros Ha Hgt. unfold qcom_smem_alloc_global. fold header. fold entry.
    rewrite Ha. simpl.
    destruct (Z.gtb_spec (ALIGN size 8) (header_available m header)); [reflexivity|lia]. }
  repeat split.
  - intros Ha. unfold qcom_smem_alloc_global. fold header. fold entry.
    destruct (Z.eqb_spec (gentry_allocated m entry) 0); [contradiction|reflexivity].
  - exact Hmem.
  - intros Ha Hav Hsize. apply Hmem; [assumption|].
    pose proof (ALIGN_8_bounds size ltac:(lia)). lia.
Qed.

(** ** C10: the reserved items can be read but not allocated *)



(** ** Partition table: enumeration and validation *)

Lemma same_outside_partitions_refl a : same_outside_partitions a a.
Proof. unfold same_outside_partitions. auto. Qed.

Lemma same_outside_partitions_trans a b c :
  same_outside_partitions a b -> same_outside_partitions b c ->
  same_outside_partitions a c.
Proof.
  unfold same_outside_partitions.
  intros (? & ? & ? & ? & ?) (? & ? & ? & ? & ?). repeat split; congruence.
Qed.

Lemma enumerate_loop_preserves n m ptable local_host : forall smem i r smem',
  enumerate_loop n smem m ptable i local_host = (r, smem') ->
  same_outside_partitions smem smem'.
Proof.
  induction n as [|n IH]; intros smem i r smem' H; simpl in H.
  - injection H as <- <-. apply same_outside_partitions_refl.
  - destruct (_ =? 0); [eapply IH; eassumption|].
    destruct (_ =? 0); [eapply IH; eassumption|].
    destruct (remote_host_of _ _ _) as [remote|]; [|eapply IH; eassumption].
    destruct (_ >=? _); [injection H as <- <-; apply same_outside_partitions_refl|].
    destruct (negb _); [injection H as <- <-; apply same_outside_partitions_refl|].
    destruct (qcom_smem_partition_header _ _ _ _ _) as [header|];
      [|injection H as <- <-; apply same_outside_partitions_refl].
    apply IH in H. eapply same_outside_partitions_trans; [|exact H].
    unfold same_outside_partitions. simpl. auto.
Qed.

Lemma enumerate_partitions_preserves smem m local_host r smem' :
  qcom_smem_enumerate_partitions smem m local_host = (r, smem') ->
  same_outside_partitions smem smem'.
Proof.
  unfold qcom_smem_enumerate_partitions.
  destruct (qcom_smem_get_ptable smem m).
  - apply enumerate_loop_preserves.
  - intros H. injection H as <- <-. apply same_outside_partitions_refl.
Qed.

(** The validation reads [smem] only through the first region. *)
Lemma partition_header_regions a b m entry host0 host1 :
  regions a = regions b ->
  qcom_smem_partition_header a m entry host0 host1
  = qcom_smem_partition_header b m entry host0 host1.
Proof.
  intros H. unfold qcom_smem_partition_header, region_of. rewrite H. reflexivity.
Qed.

Lemma partition_header_some smem m entry host0 host1 header :
  qcom_smem_partition_header smem m entry host0 host1 = Some header <->
  header = wrap64 (region_aux_base (region_of smem 0) + pentry_offset m entry)
  /\ header <> 0
  /\ magic_ok m header SMEM_PART_MAGIC = true
  /\ phdr_host0 m header = host0
  /\ phdr_host1 m header = host1
  /\ phdr_size m header = pentry_size m entry
  /\ phdr_offset_free_uncached m header <= phdr_size m header.
Proof.
  unfold qcom_smem_partition_header.
  set (h := wrap64 (region_aux_base (region_of smem 0) + pentry_offset m entry)).
  destruct (Z.eqb_spec h 0) as [E0|E0];
    [split; [discriminate|intros (-> & ? & _); contradiction]|].
  destruct (magic_ok m h SMEM_PART_MAGIC) eqn:Em; simpl;
    [|split; [discriminate|intros (-> & _ & ? & _); congruence]].
  destruct (Z.eqb_spec host0 (phdr_host0 m h)) as [E1|E1]; simpl;
    [|split; [discriminate|intros (-> & _ & _ & ? & _); congruence]].
  destruct (Z.eqb_spec host1 (phdr_host1 m h)) as [E2|E2]; simpl;
    [|split; [discriminate|intros (-> & _ & _ & _ & ? & _); congruence]].
  destruct (Z.eqb_spec (phdr_size m h) (pentry_size m entry)) as [E3|E3]; simpl;
    [|split; [discriminate|intros (-> & _ & _ & _ & _ & ? & _); congruence]].
  destruct (Z.gtb_spec (phdr_offset_free_uncached m h) (phdr_size m h)) as [E4|E4].
  - split; [discriminate|]. intros (-> & _ & _ & _ & _ & _ & ?). lia.
  - split.
    + intros H. injection H as <-. repeat split; auto.
    + intros (-> & _). reflexivity.
Qed.

(** An entry of the table that involves [local_host] and fails the
    validation makes the loop return [-EINVAL], whatever came before it. *)
Lemma enumerate_loop_invalid n m ptable local_host j : forall smem0 smem i,
  regions smem0 = regions smem ->
  i <= j < i + Z.of_nat n ->
  pentry_offset m (ptable_entry ptable j) <> 0 ->
  pentry_size m (ptable_entry ptable j) <> 0 ->
  remote_host_of (pentry_host0 m (ptable_entry ptable j))
                 (pentry_host1 m (ptable_entry ptable j)) local_host <> None ->
  qcom_smem_partition_header smem m (ptable_entry ptable j)
    (pentry_host0 m (ptable_entry ptable j))
    (pentry_host1 m (ptable_entry ptable j)) = None ->
  fst (enumerate_loop n smem0 m ptable i local_host) = Err EINVAL.
Proof.
  induction n as [|n IH]; intros smem0 smem i Hreg Hj Ho Hs Hr Hv; [lia|].
  assert (Hnext : forall s, regions s = regions smem -> i <> j ->
            fst (enumerate_loop n s m ptable (i + 1) local_host) = Err EINVAL).
  { intros s Hs' Hne. eapply IH; try eassumption. lia. }
  cbn [enumerate_loop].
  destruct (Z.eq_dec i j) as [->|Hne].
  - destruct (Z.eqb_spec (pentry_offset m (ptable_entry ptable j)) 0); [contradiction|].
    destruct (Z.eqb_spec (pentry_size m (ptable_entry ptable j)) 0); [contradiction|].
    destruct (remote_host_of _ _ _) as [remote|]; [|contradiction].
    destruct (_ >=? _); [reflexivity|].
    destruct (negb _); [reflexivity|].
    rewrite (partition_header_regions smem0 smem) by assumption.
    rewrite Hv. reflexivity.
  - destruct (pentry_offset m (ptable_entry ptable i) =? 0);
      [apply Hnext; assumption|].
    destruct (pentry_size m (ptable_entry ptable i) =? 0);
      [apply Hnext; assumption|].
    destruct (remote_host_of (pentry_host0 m (ptable_entry ptable i))
                (pentry_host1 m (ptable_entry ptable i)) local_host) as [remote|];
      [|apply Hnext; assumption].
    destruct (remote >=? SMEM_HOST_COUNT); [reflexivity|].
    destruct (negb (part_virt_base (partition_of smem0 remote) =? 0)); [reflexivity|].
    destruct (qcom_smem_partition_header smem0 m (ptable_entry ptable i) _ _)
      as [header|]; [|reflexivity].
    apply Hnext; [|assumption]. simpl. assumption.
Qed.

(** C8.  [qcom_smem_partition_header] accepts the header of a table entry
    exactly when the header address is not null, the magic bytes are
    [SMEM_PART_MAGIC], [host0] and [host1] equal the requested pair, the
    stored size equals the entry's size, and [offset_free_uncached] does not
    exceed that size.  For a table entry with nonzero offset and size, a
    header that fails this is a hard failure: if the entry is one that
    [qcom_smem_enumerate_partitions] considers for the local host, the
    enumeration returns [-EINVAL], and if it is the entry
    [qcom_smem_set_global_partition] has found for the global pair, that
    function returns [-EINVAL]; neither goes on as if the partition were
    absent. *)
Theorem partition_validation_is_hard smem m ptable j :
  qcom_smem_get_ptable smem m = Ok ptable ->
  0 <= j < ptable_num_entries m ptable ->
  pentry_offset m (ptable_entry ptable j) <> 0 ->
  pentry_size m (ptable_entry ptable j) <> 0 ->
  let entry := ptable_entry ptable j in
  (forall host0 host1 header,
      qcom_smem_partition_header smem m entry host0 host1 = Some header <->
      header = wrap64 (region_aux_base (region_of smem 0) + pentry_offset m entry)
      /\ header <> 0
      /\ magic_ok m header SMEM_PART_MAGIC = true
      /\ phdr_host0 m header = host0
      /\ phdr_host1 m header = host1
      /\ phdr_size m header = pentry_size m entry
      /\ phdr_offset_free_uncached m header <= phdr_size m header)
  /\ (forall local_host,
        remote_host_of (pentry_host0 m entry) (pentry_host1 m entry) local_host
        <> None ->
        qcom_smem_partition_header smem m entry
          (pentry_host0 m entry) (pentry_host1 m entry) = None ->
        fst (qcom_smem_enumerate_partitions smem m local_host) = Err EINVAL)
  /\ (find_global_entry (Z.to_nat (ptable_num_entries m ptable)) m ptable 0
      = Some entry ->
      qcom_smem_partition_header smem m entry SMEM_GLOBAL_HOST SMEM_GLOBAL_HOST
      = None ->
      fst (qcom_smem_set_global_partition smem m) = Err EINVAL).
Proof.
  intros Hpt Hj Ho Hs entry. split; [|split].
  - intros host0 host1 header. apply partition_header_some.
  - intros local_host Hr Hv. unfold qcom_smem_enumerate_partitions. rewrite Hpt.
    eapply enumerate_loop_invalid with (j := j) (smem := smem);
      try eassumption; [reflexivity|lia].
  - intros Hf Hv. unfold qcom_smem_set_global_partition.
    destruct (negb _); [reflexivity|].
    rewrite Hpt, Hf. fold entry. rewrite Hv. reflexivity.
Qed.

(** ** C7: the mode [qcom_smem_init] selects *)

Lemma find_global_entry_some n m ptable : forall i entry,
  find_global_entry n m ptable i = Some entry ->
  pentry_offset m entry <> 0 /\ pentry_size m entry <> 0
  /\ pentry_host0 m entry = SMEM_GLOBAL_HOST
  /\ pentry_host1 m entry = SMEM_GLOBAL_HOST.
Proof.
  induction n as [|n IH]; intros i entry H; simpl in H; [discriminate|].
  destruct (Z.eqb_spec (pentry_offset m (ptable_entry ptable i)) 0);
    [eapply IH; eassumption|].
  destruct (Z.eqb_spec (pentry_size m (ptable_entry ptable i)) 0);
    [eapply IH; eassumption|].
  destruct (Z.eqb_spec (pentry_host0 m (ptable_entry ptable i)) SMEM_GLOBAL_HOST);
    simpl in H; [|eapply IH; eassumption].
  destruct (Z.eqb_spec (pentry_host1 m (ptable_entry ptable i)) SMEM_GLOBAL_HOST);
    [|eapply IH; eassumption].
  injection H as <-. auto.
Qed.

Lemma map_toc_fresh aux_base size r smem :
  qcom_smem_map_toc (fresh_smem aux_base size) = (r, smem) ->
  region_of smem 0 = mk_region aux_base aux_base size
  /\ regions smem = [mk_region aux_base aux_base size]
  /\ global_partition smem = no_partition
  /\ ptable smem = wrap32 (aux_base + size - SZ_4K)
  /\ (r = Ok tt \/ r = Err ENOMEM)
  /\ (aux_base <> 0 -> wrap32 (aux_base + size - SZ_4K) <> 0 -> r = Ok tt).
Proof.
  unfold qcom_smem_map_toc, fresh_smem, region_of. simpl.
  destruct (Z.eqb_spec aux_base 0); simpl.
  - intros H. injection H as <- <-. simpl. repeat split; auto. contradiction.
  - destruct (Z.eqb_spec (wrap32 (aux_base + size - SZ_4K)) 0);
      intros H; injection H as <- <-; simpl; repeat split; auto. contradiction.
Qed.

Lemma map_global_snd smem size :
  snd (qcom_smem_map_global smem size)
  = with_region0 smem
      (mk_region (region_aux_base (region_of smem 0))
                 (region_aux_base (region_of smem 0)) size).
Proof. unfold qcom_smem_map_global. destruct (_ =? 0); reflexivity. Qed.

(** What a successful [qcom_smem_init] went through. *)
Lemma init_ok_inv cfg m smem :
  qcom_smem_init cfg m = Ok smem ->
  exists aux_base smem1 smem3,
    cfg_addr cfg = Some aux_base
    /\ qcom_smem_map_toc (fresh_smem aux_base (cfg_size cfg)) = (Ok tt, smem1)
    /\ init_select_mode smem1 m
         (wrap32 (header_available m aux_base + header_free_offset m aux_base))
       = Ok smem3
    /\ same_outside_partitions smem3 smem.
Proof.
  unfold qcom_smem_init. intros H.
  destruct (cfg_node_valid cfg); [|discriminate].
  destruct (cfg_kzalloc_ok cfg); [|discriminate]. cbn [negb] in H.
  destruct (cfg_addr cfg) as [aux_base|]; [|discriminate].
  destruct (qcom_smem_map_toc _) as [[[]|e] smem1] eqn:Emap; [|discriminate].
  pose proof (map_toc_fresh _ _ _ _ Emap) as (Hr0 & _).
  rewrite Hr0 in H. simpl region_virt_base in H.
  destruct (_ || _); [discriminate|].
  destruct (init_select_mode smem1 m _) as [smem3|e] eqn:Esel; [|discriminate].
  destruct (qcom_smem_enumerate_partitions smem3 m SMEM_HOST_APPS)
    as [r smem4] eqn:Eenum.
  pose proof (enumerate_partitions_preserves _ _ _ _ _ Eenum) as Hsame.
  exists aux_base, smem1, smem3.
  assert (smem4 = smem) as <-.
  { destruct r as [[]|[]]; congruence. }
  auto.
Qed.

(** C7.  Let [major] be the upper half of the version slot
    [SMEM_MASTER_SBL_VERSION_INDEX] of the header at the configured address.
    If [major] is 12, a successful [qcom_smem_init] has found a table entry
    for the pair (global host, global host), has validated its header, and
    has made it the global partition; without that it fails.  If [major] is
    11, a successful [qcom_smem_init] leaves no global partition, so that the
    global heap is used, takes the size of the first region from the header
    counters, and fixes the item count at 512.  For every other [major],
    [qcom_smem_init] fails, with [-EINVAL] (UnsupportedVersion) whenever the
    node, the allocation of the handle and the mapping were in order. *)
Theorem init_mode_selection cfg m aux_base :
  cfg_addr cfg = Some aux_base ->
  let major :=
    Z.shiftr (header_version m aux_base SMEM_MASTER_SBL_VERSION_INDEX) 16 in
  (major = SMEM_GLOBAL_PART_VERSION ->
   forall smem, qcom_smem_init cfg m = Ok smem ->
     exists entry,
       find_global_entry (Z.to_nat (ptable_num_entries m (ptable smem)))
                         m (ptable smem) 0 = Some entry
       /\ pentry_host0 m entry = SMEM_GLOBAL_HOST
       /\ pentry_host1 m entry = SMEM_GLOBAL_HOST
       /\ qcom_smem_partition_header smem m entry
            SMEM_GLOBAL_HOST SMEM_GLOBAL_HOST
          = Some (part_virt_base (global_partition smem))
       /\ part_virt_base (global_partition smem) <> 0)
  /\ (major = SMEM_GLOBAL_HEAP_VERSION ->
      forall smem, qcom_smem_init cfg m = Ok smem ->
        item_count smem = SMEM_ITEM_COUNT
        /\ part_virt_base (global_partition smem) = 0
        /\ region_size (region_of smem 0)
           = wrap32 (header_available m aux_base + header_free_offset m aux_base))
  /\ (major <> SMEM_GLOBAL_PART_VERSION ->
      major <> SMEM_GLOBAL_HEAP_VERSION ->
      exists e,
        qcom_smem_init cfg m = Err e
        /\ (cfg_node_valid cfg = true -> cfg_kzalloc_ok cfg = true ->
            aux_base <> 0 -> wrap32 (aux_base + cfg_size cfg - SZ_4K) <> 0 ->
            e = EINVAL)).
Proof.
  intros Haddr major. split; [|split].
  - intros Hmaj smem H.
    apply init_ok_inv in H as (aux & smem1 & smem3 & Ha & Hmap & Hsel & Hsame).
    assert (aux = aux_base) as -> by congruence.
    apply map_toc_fresh in Hmap as (Hr0 & Hregs & Hgp & Hpt & _).
    unfold init_select_mode, qcom_smem_get_sbl_version in Hsel.
    rewrite Hr0 in Hsel. simpl region_virt_base in Hsel. fold major in Hsel.
    rewrite Hmaj, Z.eqb_refl in Hsel.
    destruct (qcom_smem_set_global_partition smem1 m) as [[[]|e] smem2] eqn:Eset;
      [|discriminate].
    injection Hsel as <-.
    unfold qcom_smem_set_global_partition in Eset.
    destruct (negb _); [discriminate|].
    unfold qcom_smem_get_ptable in Eset.
    destruct (negb (magic_ok _ _ _)); [discriminate|].
    destruct (negb (_ =? 1)); [discriminate|].
    destruct (find_global_entry _ m (ptable smem1) 0) as [entry|] eqn:Ef;
      [|discriminate].
    destruct (qcom_smem_partition_header smem1 m entry _ _) as [header|] eqn:Ev;
      [|discriminate].
    injection Eset as <-.
    destruct Hsame as (_ & Hpt' & Hgp' & _ & Hregs').
    simpl in Hpt', Hgp', Hregs'.
    pose proof (find_global_entry_some _ _ _ _ _ Ef) as (_ & _ & Hh0 & Hh1).
    exists entry. rewrite <- Hpt', <- Hgp'. simpl.
    rewrite (partition_header_regions smem smem1) by congruence.
    repeat split; try assumption.
    apply partition_header_some in Ev. tauto.
  - intros Hmaj smem H.
    apply init_ok_inv in H as (aux & smem1 & smem3 & Ha & Hmap & Hsel & Hsame).
    assert (aux = aux_base) as -> by congruence.
    apply map_toc_fresh in Hmap as (Hr0 & Hregs & Hgp & Hpt & _).
    unfold init_select_mode, qcom_smem_get_sbl_version in Hsel.
    rewrite Hr0 in Hsel. simpl region_virt_base in Hsel. fold major in Hsel.
    rewrite Hmaj in Hsel.
    change (SMEM_GLOBAL_HEAP_VERSION =? SMEM_GLOBAL_PART_VERSION) with false in Hsel.
    rewrite Z.eqb_refl in Hsel. cbv iota in Hsel. injection Hsel as <-.
    destruct Hsame as (Hic & _ & Hgp' & _ & Hregs').
    cbn [item_count global_partition regions with_item_count] in Hic, Hgp', Hregs'.
    rewrite map_global_snd in Hgp', Hregs'.
    cbn [global_partition regions with_region0] in Hgp', Hregs'.
    rewrite <- Hic, <- Hgp', Hgp. unfold region_of. rewrite <- Hregs', Hregs.
    rewrite Hr0. simpl. auto.
  - intros Hn12 Hn11.
    assert (Hsel : forall smem1,
               region_of smem1 0
               = mk_region aux_base aux_base (cfg_size cfg) ->
               forall size, init_select_mode smem1 m size = Err EINVAL).
    { intros smem1 Hr0 size.
      unfold init_select_mode, qcom_smem_get_sbl_version.
      rewrite Hr0. simpl region_virt_base. fold major.
      destruct (Z.eqb_spec major SMEM_GLOBAL_PART_VERSION); [contradiction|].
      destruct (Z.eqb_spec major SMEM_GLOBAL_HEAP_VERSION); [contradiction|].
      reflexivity. }
    unfold qcom_smem_init. rewrite Haddr.
    destruct (cfg_node_valid cfg); cbn [negb];
      [|eexists; split; [reflexivity|discriminate]].
    destruct (cfg_kzalloc_ok cfg); cbn [negb];
      [|eexists; split; [reflexivity|discriminate]].
    destruct (qcom_smem_map_toc _) as [r smem1] eqn:Emap.
    pose proof (map_toc_fresh _ _ _ _ Emap) as (Hr0 & _ & _ & _ & Hr & Hok).
    destruct r as [[]|e].
    + rewrite Hr0. simpl region_virt_base.
      destruct (_ || _); [eexists; split; [reflexivity|auto]|].
      rewrite (Hsel _ Hr0). eexists; split; [reflexivity|auto].
    + eexists. split; [reflexivity|]. intros _ _ H1 H2.
      specialize (Hok H1 H2). discriminate.
Qed.
(** ** Termination of the backward walk *)

(** Above [2^32] plus the aligned header size no step of the backward walk
    can wrap, and each step moves down by at least the aligned header
    size. *)
Lemma cached_entry_next_lt m e end_ cacheline :
  0 < ALIGN sizeof_private_entry cacheline ->
  2 ^ 32 + ALIGN sizeof_private_entry cacheline <= end_ ->
  end_ < e < 2 ^ 64 ->
  0 <= cached_entry_next m e cacheline < e.
Proof.
  intros Hal Hend He.
  destruct (cached_entry_next_le m e cacheline) as [Heq Hle].
  { unfold entry_size. pose proof (load32_range m (e + 4)). lia. }
  rewrite Heq in *. unfold entry_size in *.
  pose proof (load32_range m (e + 4)). lia.
Qed.

Lemma cached_scan_total fuel m end_ cacheline item :
  0 < ALIGN sizeof_private_entry cacheline ->
  2 ^ 32 + ALIGN sizeof_private_entry cacheline <= end_ ->
  forall e, e < 2 ^ 64 -> (Z.to_nat (e - end_) <= fuel)%nat ->
  exists tr r, cached_scan fuel m e end_ cacheline item = Some (tr, r).
Proof.
  intros Hal Hend. induction fuel as [|fuel IH]; intros e He Hf; simpl.
  - destruct (Z.gtb_spec e end_); [lia|]. eauto.
  - destruct (Z.gtb_spec e end_); [|eauto].
    destruct (negb _); [eauto|].
    destruct (_ =? item); [eauto|].
    pose proof (cached_entry_next_lt m e end_ cacheline Hal Hend ltac:(lia))
      as Hstep.
    destruct (IH (cached_entry_next m e cacheline)) as (tr & r & ->);
      [lia|lia|].
    eauto.
Qed.

(** The walk runs out of the fuel its caller gives it only past an entry
    whose successor does not lie below it: an entry that is its own
    successor, on which the C loop does not end either, or an entry larger
    than its own address, behind which the pointer has wrapped. *)
Lemma cached_scan_none fuel m end_ cacheline item : forall e,
  e < 2 ^ 64 ->
  (Z.to_nat (e - end_) <= fuel)%nat ->
  cached_scan fuel m e end_ cacheline item = None ->
  exists x, end_ < x < 2 ^ 64
            /\ entry_canary m x = SMEM_PRIVATE_CANARY
            /\ entry_item m x <> item
            /\ x <= cached_entry_next m x cacheline.
Proof.
  induction fuel as [|fuel IH]; intros e He Hf H; simpl in H.
  - destruct (Z.gtb_spec e end_); [lia|discriminate].
  - destruct (Z.gtb_spec e end_); [|discriminate].
    destruct (Z.eqb_spec (entry_canary m e) SMEM_PRIVATE_CANARY) as [Hc|Hc];
      simpl in H; [|discriminate].
    destruct (Z.eqb_spec (entry_item m e) item) as [Hi|Hi]; [discriminate|].
    destruct (cached_scan fuel m _ end_ cacheline item) as [[tr r]|] eqn:E;
      [discriminate|].
    destruct (Z.le_gt_cases e (cached_entry_next m e cacheline)) as [Hge|Hlt].
    + exists e. repeat split; first [assumption | lia].
    + apply IH with (e := cached_entry_next m e cacheline);
        [unfold cached_entry_next; apply wrap64_range|lia|exact E].
Qed.

(** Whenever the cache line of the partition aligns the entry header to at
    least one byte (any nonzero [cacheline] a partition table carries) and
    the partition lies at or above [2^32] plus that aligned size, where no
    entry can be larger than its own address, the lookup returns. *)
Lemma get_private_total m part item want_size :
  0 < ALIGN sizeof_private_entry (part_cacheline part) ->
  2 ^ 32 + ALIGN sizeof_private_entry (part_cacheline part)
  <= part_virt_base part ->
  exists r, qcom_smem_get_private m part item want_size = Some r.
Proof.
  intros Hal Hbase. unfold qcom_smem_get_private, qcom_smem_get_private_run.
  destruct (uncached_scan_total
              (Z.to_nat (phdr_to_last_uncached_entry m (part_virt_base part)
                         - phdr_to_first_uncached_entry (part_virt_base part)))
              m (phdr_to_last_uncached_entry m (part_virt_base part)) item
              (phdr_to_first_uncached_entry (part_virt_base part)))
    as (tr & r & ->); [lia|].
  destruct r; simpl; eauto.
  destruct (_ >? _); simpl; eauto.
  unfold get_private_cached.
  destruct (_ || _); simpl; eauto.
  destruct (cached_scan_total
              (Z.to_nat (phdr_to_first_cached_entry m (part_virt_base part)
                                                    (part_cacheline part)
                         - phdr_to_last_cached_entry m (part_virt_base part)))
              m (phdr_to_last_cached_entry m (part_virt_base part))
              (part_cacheline part) item Hal
              ltac:(unfold phdr_to_last_cached_entry, phdr_offset_free_cached;
                    pose proof (load32_range m (part_virt_base part + 16)); lia)
              (phdr_to_first_cached_entry m (part_virt_base part)
                                          (part_cacheline part)))
    as (tr2 & r2 & ->);
    [unfold phdr_to_first_cached_entry; apply wrap64_range|lia|].
  destruct r2; simpl; eauto.
  destruct (_ <? _); simpl; eauto.
Qed.

(** ** Well-formedness is an invariant *)

Lemma uncached_chain_le fuel m end_ : forall e,
  uncached_chain fuel m e end_ = true -> e <= end_.
Proof.
  induction fuel as [|fuel IH]; intros e H; simpl in H.
  - destruct (Z.ltb_spec e end_); [discriminate|]. apply Z.eqb_eq in H. lia.
  - destruct (Z.ltb_spec e end_); [lia|]. apply Z.eqb_eq in H. lia.
Qed.

Lemma uncached_chain_fuel fuel m end_ : forall e fuel',
  uncached_chain fuel m e end_ = true ->
  (Z.to_nat (end_ - e) <= fuel')%nat ->
  uncached_chain fuel' m e end_ = true.
Proof.
  induction fuel as [|fuel IH]; intros e fuel' H Hf; simpl in H.
  - destruct (Z.ltb_spec e end_); [discriminate|].
    destruct fuel'; simpl; destruct (Z.ltb_spec e end_); try lia; assumption.
  - destruct (Z.ltb_spec e end_).
    + destruct fuel' as [|fuel']; [lia|]. simpl.
      destruct (Z.ltb_spec e end_); [|lia].
      apply IH; [assumption|].
      pose proof (uncached_entry_next_ge m e). unfold sizeof_private_entry in *. lia.
    + destruct fuel'; simpl; destruct (Z.ltb_spec e end_); try lia; assumption.
Qed.

Lemma uncached_chain_appended fuel m m' end_ end' : forall e,
  uncached_chain fuel m e end_ = true ->
  (forall x, e <= x < end_ -> m' x = m x) ->
  uncached_entry_next m' end_ = end' ->
  uncached_chain (S (S fuel)) m' e end' = true.
Proof.
  intros e H Hag Hnext.
  assert (Hlt : end_ < end').
  { pose proof (uncached_entry_next_ge m' end_). unfold sizeof_private_entry in *. lia. }
  assert (Hlast : forall f, uncached_chain (S (S f)) m' end_ end' = true).
  { intros f. cbn [uncached_chain].
    destruct (Z.ltb_spec end_ end'); [|lia]. rewrite Hnext.
    destruct f; simpl; rewrite Z.ltb_irrefl; apply Z.eqb_refl. }
  revert e H Hag. induction fuel as [|fuel IH]; intros e H Hag; simpl in H.
  - destruct (Z.ltb_spec e end_); [discriminate|].
    apply Z.eqb_eq in H. subst e. apply Hlast.
  - destruct (Z.ltb_spec e end_).
    + pose proof (uncached_chain_le _ _ _ _ H) as Hle.
      pose proof (uncached_entry_next_ge m e) as Hge.
      unfold sizeof_private_entry in Hge.
      assert (Hn : uncached_entry_next m' e = uncached_entry_next m e).
      { unfold uncached_entry_next, entry_padding_hdr, entry_size.
        rewrite (load16_ext m m'), (load32_ext m m'); [reflexivity| |];
          intros; apply Hag; lia. }
      change (uncached_chain (S (S (S fuel))) m' e end') with
        (if e <? end'
         then uncached_chain (S (S fuel)) m' (uncached_entry_next m' e) end'
         else e =? end').
      destruct (Z.ltb_spec e end'); [|lia].
      rewrite Hn. apply IH; [assumption|]. intros. apply Hag. lia.
    + apply Z.eqb_eq in H. subst e. apply Hlast.
Qed.

(** A successful allocation of a fitting size leaves the forward list well
    formed, so [uncached_list_ok] holds along every run of allocations that
    starts from a well-formed partition. *)
Lemma alloc_private_keeps_list_ok m part item size m' :
  qcom_smem_alloc_private m part item size = Some (Ok tt, m') ->
  uncached_list_ok m (part_virt_base part) = true ->
  size_fits part size ->
  uncached_list_ok m' (part_virt_base part) = true.
Proof.
  intros H Hwf Hf.
  pose proof (size_fits_valid _ _ Hf) as Hsize.
  pose proof (private_alloc_size_valid _ Hsize) as [Hasz Hal].
  unfold sizeof_private_entry in Hasz.
  pose proof (alloc_private_ok_cursors _ _ _ _ _ H Hf) as (Hu & Hc & _).
  pose proof H as H0. apply alloc_private_of_run in H0 as [tr H0].
  apply alloc_private_run_fits in H0 as (h & Hs & Hh & He & Hfit & Hcend & Hm);
    [|assumption].
  set (phdr := part_virt_base part) in *.
  set (hdr := phdr_to_last_uncached_entry m phdr) in *.
  assert (h = hdr) as ->.
  { eapply uncached_chain_scan_end; [exact Hwf|exact Hs]. }
  pose proof (run_steps_entry phdr hdr item size (private_alloc_size size) m
                ltac:(lia)) as (_ & _ & Esize & _ & Ephdr).
  rewrite <- Hm in Esize, Ephdr.
  assert (Hc32 : phdr_to_last_cached_entry m phdr < phdr + 2 ^ 32).
  { unfold phdr_to_last_cached_entry, phdr_offset_free_cached.
    pose proof (load32_range m (phdr + 16)). lia. }
  change (2 ^ 32) with 4294967296 in *.
  assert (Hend' : phdr_to_last_uncached_entry m' phdr = hdr + 16 + ALIGN size 8).
  { unfold phdr_to_last_uncached_entry in *. subst hdr. lia. }
  unfold uncached_list_ok in *. fold phdr hdr in Hwf. rewrite Hend'.
  eapply uncached_chain_fuel.
  - eapply uncached_chain_appended; [exact Hwf| |].
    + intros x Hx. rewrite Hm. apply run_steps_outside; [|lia].
      unfold phdr_to_first_uncached_entry, sizeof_partition_header in Hx. lia.
    + unfold uncached_entry_next, sizeof_private_entry. rewrite Esize, Ephdr.
      unfold wrap32. change (2 ^ 32) with 4294967296.
      rewrite Z.mod_small by (unfold valid_size in *; lia). lia.
  - lia.
Qed.

(** ** What [qcom_smem_init] establishes *)

Lemma init_item_count cfg m smem :
  qcom_smem_init cfg m = Ok smem -> 0 <= item_count smem < 65536.
Proof.
  intros H.
  apply init_ok_inv in H as (aux & smem1 & smem3 & _ & _ & Hsel & Hsame).
  destruct Hsame as (Hic & _). rewrite <- Hic.
  unfold init_select_mode in Hsel.
  destruct (_ =? SMEM_GLOBAL_PART_VERSION).
  - destruct (qcom_smem_set_global_partition smem1 m) as [[[]|e] smem2];
      [|discriminate].
    injection Hsel as <-. cbn [item_count with_item_count].
    unfold qcom_smem_get_item_count.
    destruct (qcom_smem_get_ptable smem2 m) as [pt|e];
      [|unfold SMEM_ITEM_COUNT; lia].
    destruct (pt =? 0); [unfold SMEM_ITEM_COUNT; lia|].
    destruct (negb _); [unfold SMEM_ITEM_COUNT; lia|].
    apply load16_range.
  - destruct (_ =? SMEM_GLOBAL_HEAP_VERSION); [|discriminate].
    injection Hsel as <-. cbn [item_count with_item_count].
    unfold SMEM_ITEM_COUNT. lia.
Qed.

(** ** One flipped canary byte is a bad canary *)

Lemma canary_byte_flip m e k b :
  k = 0 \/ k = 1 ->
  b mod 256 <> 0xa5 ->
  entry_canary (store8 m (e + k) b) e <> SMEM_PRIVATE_CANARY.
Proof.
  intros Hk Hb. unfold entry_canary, load16, load8, store8, SMEM_PRIVATE_CANARY.
  destruct Hk as [-> | ->].
  - replace (e + 0) with e by lia. rewrite Z.eqb_refl.
    destruct (Z.eqb_spec (e + 1) e); [lia|]. lia.
  - rewrite Z.eqb_refl. destruct (Z.eqb_spec e (e + 1)); [lia|]. lia.
Qed.

(** * The theorems at work on the sample heaps *)

(** [qcom_smem_init] accepts both sample heaps. *)
Example init_part_mem : qcom_smem_init part_cfg part_mem = Ok part_smem.
Proof. vm_compute. reflexivity. Qed.

Example init_legacy_mem :
  exists smem, qcom_smem_init legacy_cfg legacy_mem = Ok smem
               /\ item_count smem = 512
               /\ select_partition smem 1 = None.
Proof. eexists. split; [vm_compute; reflexivity|]. split; reflexivity. Qed.

Lemma demo_part_selected : select_partition part_smem 1 = Some demo_part.
Proof. vm_compute. reflexivity. Qed.

Lemma demo_part_fits size :
  0 <= size <= 2 ^ 32 -> size_fits demo_part size.
Proof.
  unfold size_fits, demo_part. cbn [part_virt_base part_size].
  change (2 ^ 64) with 18446744073709551616.
  change (2 ^ 32) with 4294967296. lia.
Qed.

Lemma alloc_then_get_witness :
  heap_ok part_smem part_mem 1 100 = true
  /\ owner_size_fits part_smem 1 20
  /\ qcom_smem_alloc (Some part_smem) part_mem 1 100 20
     = Some (Ok tt, part_mem_after)
  /\ exists p sz,
       qcom_smem_get (Some part_smem) part_mem_after 1 100 true
       = Some (Ok (p, Some sz))
       /\ 20 <= sz
       /\ fst (owner_bounds part_smem 1) <= p
       /\ p + 20 <= snd (owner_bounds part_smem 1).
Proof.
  assert (H1 : heap_ok part_smem part_mem 1 100 = true)
    by (vm_compute; reflexivity).
  assert (H2 : owner_size_fits part_smem 1 20).
  { unfold owner_size_fits. rewrite demo_part_selected.
    apply demo_part_fits. change (2 ^ 32) with 4294967296. lia. }
  assert (H3 : qcom_smem_alloc (Some part_smem) part_mem 1 100 20
               = Some (Ok tt, part_mem_after))
    by (vm_compute; reflexivity).
  exact (conj H1 (conj H2 (conj H3
           (alloc_then_get part_smem part_mem 1 100 20 part_mem_after H1 H2 H3)))).
Defined.

(** Without the bound on the size the statement fails.  The heap is well
    formed and the record size [16 + (2^64 - 24)] is computed without
    wrapping [size_t], but added to the free position 86072 it wraps the
    pointer to 86064, below the backward cursor: the call returns 0, writes
    the record and moves the forward cursor from 56 back to 48, in front of
    the record, and the lookup that follows does not find the item. *)
Lemma alloc_then_get_counterexample :
  heap_ok part_smem part_mem 1 100 = true
  /\ valid_size (2 ^ 64 - 24)
  /\ qcom_smem_alloc (Some part_smem) part_mem 1 100 (2 ^ 64 - 24)
     = Some (Ok tt, part_mem_huge)
  /\ phdr_offset_free_uncached part_mem 86016 = 56
  /\ phdr_offset_free_uncached part_mem_huge 86016 = 48
  /\ qcom_smem_get (Some part_smem) part_mem_huge 1 100 true
     = Some (Err ENOENT).
Proof.
  split; [vm_compute; reflexivity|].
  split; [unfold valid_size; lia|].
  repeat split; vm_compute; reflexivity.
Qed.

Lemma alloc_twice_exists_witness :
  owner_list_ok part_smem part_mem 1 = true
  /\ (forall part, select_partition part_smem 1 = Some part -> size_fits part 20)
  /\ qcom_smem_alloc (Some part_smem) part_mem 1 100 20
     = Some (Ok tt, part_mem_after)
  /\ qcom_smem_alloc (Some part_smem) part_mem_after 1 100 1
     = Some (Err EEXIST, part_mem_after).
Proof.
  assert (H1 : owner_list_ok part_smem part_mem 1 = true)
    by (vm_compute; reflexivity).
  assert (H2 : forall part,
             select_partition part_smem 1 = Some part -> size_fits part 20).
  { intros part Hp. rewrite demo_part_selected in Hp. injection Hp as <-.
    apply demo_part_fits. change (2 ^ 32) with 4294967296. lia. }
  assert (H3 : qcom_smem_alloc (Some part_smem) part_mem 1 100 20
               = Some (Ok tt, part_mem_after))
    by (vm_compute; reflexivity).
  exact (conj H1 (conj H2 (conj H3
           (alloc_twice_exists part_smem part_mem 1 100 20 part_mem_after 1
              H1 H2 H3)))).
Defined.

(** Without the proviso on the size the statement fails, in two ways.  The
    heap is well formed.  A first call with [2^64 - 16] bytes, whose record
    size wraps to 0 in [size_t], returns 0 and leaves the cursor where it
    was; a first call with [2^64 - 24] bytes, whose record size [2^64 - 8]
    wraps the pointer sum of the free-space check, returns 0 and moves the
    cursor back.  Either way the record is not in the list, and the second
    call for the same item returns 0 again instead of [-EEXIST]. *)
Lemma alloc_twice_counterexample :
  owner_list_ok part_smem part_mem 1 = true
  /\ (qcom_smem_alloc (Some part_smem) part_mem 1 100 (2 ^ 64 - 16)
      = Some (Ok tt, part_mem_wrapped)
      /\ option_map fst
           (qcom_smem_alloc (Some part_smem) part_mem_wrapped 1 100 8)
         = Some (Ok tt))
  /\ (qcom_smem_alloc (Some part_smem) part_mem 1 100 (2 ^ 64 - 24)
      = Some (Ok tt, part_mem_huge)
      /\ option_map fst
           (qcom_smem_alloc (Some part_smem) part_mem_huge 1 100 8)
         = Some (Ok tt)).
Proof.
  split; [vm_compute; reflexivity|].
  split; (split; vm_compute; reflexivity).
Qed.

Lemma growth_direction_invariant_witness :
  cursors_ordered part_mem (part_virt_base demo_part)
  /\ Forall (fun r => size_fits demo_part (snd r)) demo_requests
  /\ alloc_private_seq part_mem demo_part demo_requests = Some part_mem_seq
  /\ size_fits demo_part 200
  /\ phdr_offset_free_uncached part_mem_seq (part_virt_base demo_part)
     + (sizeof_private_entry + ALIGN 200 8)
     > phdr_offset_free_cached part_mem_seq (part_virt_base demo_part)
  /\ cursors_ordered part_mem_seq (part_virt_base demo_part)
  /\ exists e,
       qcom_smem_alloc_private part_mem_seq demo_part 13 200
       = Some (Err e, part_mem_seq).
Proof.
  assert (H1 : cursors_ordered part_mem (part_virt_base demo_part))
    by (apply Z.leb_le; vm_compute; reflexivity).
  assert (H1' : Forall (fun r => size_fits demo_part (snd r)) demo_requests)
    by (repeat constructor; apply demo_part_fits;
        change (2 ^ 32) with 4294967296; cbn; lia).
  assert (H2 : alloc_private_seq part_mem demo_part demo_requests
               = Some part_mem_seq)
    by (vm_compute; reflexivity).
  assert (H3 : size_fits demo_part 200)
    by (apply demo_part_fits; change (2 ^ 32) with 4294967296; lia).
  assert (H4 : phdr_offset_free_uncached part_mem_seq (part_virt_base demo_part)
               + (sizeof_private_entry + ALIGN 200 8)
               > phdr_offset_free_cached part_mem_seq (part_virt_base demo_part))
    by (apply Z.lt_gt, Z.ltb_lt; vm_compute; reflexivity).
  destruct (growth_direction_invariant demo_part demo_requests part_mem
              part_mem_seq 13 200 H1 H1' H2) as [Hinv Hrej].
  destruct (Hrej H3) as [_ Hrej'].
  destruct (Hrej' H4) as (e & He & _).
  exact (conj H1 (conj H1' (conj H2 (conj H3 (conj H4
           (conj Hinv (ex_intro _ e He))))))).
Defined.

(** Without the bound on the sizes, and without the proviso on the walk, the
    statement fails.  A request for [2^64 - 80] bytes, whose record size
    [2^64 - 64] wraps the pointer sum of the free-space check, returns 0 and
    carries the forward cursor from 56 to [2^32 - 8], far above the backward
    cursor 176: the invariant is broken.  On the full partition a request for
    [2^64 - 24] bytes is not refused either, and its record header lands on
    the first bytes of the data of item 10, at the backward cursor.  And a
    request that cannot fit is refused with [-EEXIST], not [-ENOSPC], when
    the item is already there. *)
Lemma growth_direction_counterexample :
  (cursors_ordered part_mem 86016
   /\ qcom_smem_alloc_private part_mem demo_part 100 (2 ^ 64 - 80)
      = Some (Ok tt, part_mem_backed)
   /\ phdr_offset_free_uncached part_mem_backed 86016 = 2 ^ 32 - 8
   /\ phdr_offset_free_cached part_mem_backed 86016 = 176
   /\ ~ cursors_ordered part_mem_backed 86016)
  /\ (uncached_list_ok full_part_mem 86016 = true
      /\ phdr_offset_free_uncached full_part_mem 86016
         = phdr_offset_free_cached full_part_mem 86016
      /\ qcom_smem_alloc_private full_part_mem demo_part 100 (2 ^ 64 - 24)
         = Some (Ok tt, full_part_mem_after)
      /\ qcom_smem_get_private full_part_mem demo_part 10 true
         = Some (Ok (86192, Some 16))
      /\ load16 full_part_mem 86192 = 0
      /\ load16 full_part_mem_after 86192 = SMEM_PRIVATE_CANARY)
  /\ (phdr_offset_free_uncached part_mem 86016 + private_alloc_size 200
      > phdr_offset_free_cached part_mem 86016
      /\ qcom_smem_alloc_private part_mem demo_part 9 200
         = Some (Err EEXIST, part_mem)).
Proof.
  assert (Hu : phdr_offset_free_uncached part_mem_backed 86016 = 2 ^ 32 - 8)
    by (vm_compute; reflexivity).
  assert (Hc : phdr_offset_free_cached part_mem_backed 86016 = 176)
    by (vm_compute; reflexivity).
  split; [|split].
  - split; [apply Z.leb_le; vm_compute; reflexivity|].
    split; [vm_compute; reflexivity|].
    split; [exact Hu|]. split; [exact Hc|].
    unfold cursors_ordered. rewrite Hu, Hc.
    change (2 ^ 32) with 4294967296. lia.
  - repeat split; vm_compute; reflexivity.
  - split; [apply Z.lt_gt, Z.ltb_lt|]; vm_compute; reflexivity.
Qed.

(** The refusal in that state is [-ENOSPC]. *)
Example alloc_out_of_space :
  qcom_smem_alloc_private part_mem_seq demo_part 13 200
  = Some (Err ENOSPC, part_mem_seq).
Proof. vm_compute. reflexivity. Qed.

Lemma canary_mismatch_aborts_witness :
  entry_canary bad_canary_mem 86048 <> SMEM_PRIVATE_CANARY
  /\ (forall tr r m',
         qcom_smem_alloc_private_run bad_canary_mem demo_part 11 8
         = Some (tr, (r, m')) ->
         In 86048 tr ->
         r = Err EINVAL /\ m' = bad_canary_mem
         /\ exists pre, tr = pre ++ [86048]
                        /\ Forall (canary_good bad_canary_mem) pre)
  /\ (forall tr r,
         qcom_smem_get_private_run bad_canary_mem demo_part 11 true
         = Some (tr, r) ->
         In 86048 tr ->
         r = Err EINVAL
         /\ exists pre, tr = pre ++ [86048]
                        /\ Forall (canary_good bad_canary_mem) pre).
Proof.
  assert (H1 : entry_canary bad_canary_mem 86048 <> SMEM_PRIVATE_CANARY)
    by (apply Z.eqb_neq; vm_compute; reflexivity).
  exact (conj H1
           (canary_mismatch_aborts bad_canary_mem demo_part 11 8 true 86048 H1)).
Defined.

(** Both walks do reach the damaged entry of that heap. *)
Example bad_canary_reached :
  qcom_smem_alloc_private_run bad_canary_mem demo_part 11 8
  = Some ([86048], (Err EINVAL, bad_canary_mem))
  /\ qcom_smem_get_private_run bad_canary_mem demo_part 11 true
     = Some ([86048], Err EINVAL).
Proof. split; vm_compute; reflexivity. Qed.


(** A lookup that finds nothing on that heap. *)
Example lookup_not_found :
  qcom_smem_get_private part_mem demo_part 11 true = Some (Err ENOENT).
Proof. vm_compute. reflexivity. Qed.


Lemma record_published_before_cursor_witness :
  qcom_smem_alloc_private part_mem demo_part 100 20 = Some (Ok tt, part_mem_after)
  /\ exists hdr,
       part_virt_base demo_part + sizeof_partition_header <= hdr
       /\ record_complete part_mem_after hdr 100 20
       /\ phdr_offset_free_uncached part_mem_after (part_virt_base demo_part)
          = wrap32 (phdr_offset_free_uncached part_mem (part_virt_base demo_part)
                    + private_alloc_size 20)
       /\ forall seen,
            respects_wmb alloc_private_steps seen ->
            phdr_offset_free_uncached
              (observe (part_virt_base demo_part) hdr 100 20
                       (private_alloc_size 20) seen alloc_private_steps
                       part_mem part_mem)
              (part_virt_base demo_part)
            <> phdr_offset_free_uncached part_mem (part_virt_base demo_part) ->
            record_complete
              (observe (part_virt_base demo_part) hdr 100 20
                       (private_alloc_size 20) seen alloc_private_steps
                       part_mem part_mem)
              hdr 100 20.
Proof.
  assert (H1 : qcom_smem_alloc_private part_mem demo_part 100 20
               = Some (Ok tt, part_mem_after))
    by (vm_compute; reflexivity).
  destruct (record_published_before_cursor part_mem demo_part 100 20
              part_mem_after H1) as (hdr & Hh & _ & Hrec & Hcur & _ & Hobs).
  refine (conj H1 (ex_intro _ hdr (conj Hh (conj Hrec (conj Hcur _))))).
  intros seen Hseen. exact (proj2 (Hobs seen Hseen)).
Defined.

(** The new cursor of that allocation is 96, and a reader that has received
    the cursor update alone, which the barrier rules out, would find the
    cursor advanced over a record without canary. *)
Example cursor_without_record :
  phdr_offset_free_uncached part_mem_after 86016 = 96
  /\ (let seen := fun s => match s with AdvanceCursor => true | _ => false end in
      let mo := observe 86016 86072 100 20 (private_alloc_size 20) seen
                        alloc_private_steps part_mem part_mem in
      phdr_offset_free_uncached mo 86016 = 96
      /\ entry_canary mo 86072 = 0
      /\ ~ respects_wmb alloc_private_steps seen).
Proof.
  split; [vm_compute; reflexivity|]. cbv zeta.
  split; [vm_compute; reflexivity|]. split; [vm_compute; reflexivity|].
  intros H.
  specialize (H [WrCanary; WrItem; WrSize; WrPaddingData; WrPaddingHdr]
                [AdvanceCursor] eq_refl WrCanary AdvanceCursor
                ltac:(simpl; tauto) ltac:(simpl; tauto) eq_refl).
  discriminate H.
Qed.

Lemma init_mode_selection_witness :
  cfg_addr part_cfg = Some 65536
  /\ Z.shiftr (header_version part_mem 65536 SMEM_MASTER_SBL_VERSION_INDEX) 16
     = SMEM_GLOBAL_PART_VERSION
  /\ qcom_smem_init part_cfg part_mem = Ok part_smem
  /\ exists entry,
       find_global_entry (Z.to_nat (ptable_num_entries part_mem (ptable part_smem)))
                         part_mem (ptable part_smem) 0 = Some entry
       /\ pentry_host0 part_mem entry = SMEM_GLOBAL_HOST
       /\ pentry_host1 part_mem entry = SMEM_GLOBAL_HOST
       /\ qcom_smem_partition_header part_smem part_mem entry
            SMEM_GLOBAL_HOST SMEM_GLOBAL_HOST
          = Some (part_virt_base (global_partition part_smem))
       /\ part_virt_base (global_partition part_smem) <> 0.
Proof.
  assert (H1 : cfg_addr part_cfg = Some 65536) by reflexivity.
  assert (H2 : Z.shiftr (header_version part_mem 65536
                           SMEM_MASTER_SBL_VERSION_INDEX) 16
               = SMEM_GLOBAL_PART_VERSION)
    by (vm_compute; reflexivity).
  assert (H3 : qcom_smem_init part_cfg part_mem = Ok part_smem)
    by (vm_compute; reflexivity).
  exact (conj H1 (conj H2 (conj H3
           (proj1 (init_mode_selection part_cfg part_mem 65536 H1)
                  H2 part_smem H3)))).
Defined.

Lemma partition_validation_is_hard_witness :
  qcom_smem_get_ptable part_smem_mapped bad_magic_mem = Ok 94208
  /\ 0 <= 1 < ptable_num_entries bad_magic_mem 94208
  /\ pentry_offset bad_magic_mem (ptable_entry 94208 1) <> 0
  /\ pentry_size bad_magic_mem (ptable_entry 94208 1) <> 0
  /\ remote_host_of (pentry_host0 bad_magic_mem (ptable_entry 94208 1))
                    (pentry_host1 bad_magic_mem (ptable_entry 94208 1))
                    SMEM_HOST_APPS <> None
  /\ qcom_smem_partition_header part_smem_mapped bad_magic_mem
       (ptable_entry 94208 1)
       (pentry_host0 bad_magic_mem (ptable_entry 94208 1))
       (pentry_host1 bad_magic_mem (ptable_entry 94208 1)) = None
  /\ fst (qcom_smem_enumerate_partitions part_smem_mapped bad_magic_mem
            SMEM_HOST_APPS) = Err EINVAL.
Proof.
  assert (H1 : qcom_smem_get_ptable part_smem_mapped bad_magic_mem = Ok 94208)
    by (vm_compute; reflexivity).
  assert (H2 : 0 <= 1 < ptable_num_entries bad_magic_mem 94208)
    by (split; [lia|apply Z.ltb_lt; vm_compute; reflexivity]).
  assert (H3 : pentry_offset bad_magic_mem (ptable_entry 94208 1) <> 0)
    by (apply Z.eqb_neq; vm_compute; reflexivity).
  assert (H4 : pentry_size bad_magic_mem (ptable_entry 94208 1) <> 0)
    by (apply Z.eqb_neq; vm_compute; reflexivity).
  assert (H5 : remote_host_of (pentry_host0 bad_magic_mem (ptable_entry 94208 1))
                 (pentry_host1 bad_magic_mem (ptable_entry 94208 1))
                 SMEM_HOST_APPS <> None)
    by (vm_compute; discriminate).
  assert (H6 : qcom_smem_partition_header part_smem_mapped bad_magic_mem
                 (ptable_entry 94208 1)
                 (pentry_host0 bad_magic_mem (ptable_entry 94208 1))
                 (pentry_host1 bad_magic_mem (ptable_entry 94208 1)) = None)
    by (vm_compute; reflexivity).
  exact (conj H1 (conj H2 (conj H3 (conj H4 (conj H5 (conj H6
           (proj1 (proj2 (partition_validation_is_hard part_smem_mapped
                            bad_magic_mem 94208 1 H1 H2 H3 H4))
                  SMEM_HOST_APPS H5 H6))))))).
Defined.

(** Because of that, [qcom_smem_init] as a whole fails on this heap. *)
Example init_bad_magic : qcom_smem_init part_cfg bad_magic_mem = Err EINVAL.
Proof. vm_compute. reflexivity. Qed.

Lemma alloc_global_refusals_witness :
  gentry_allocated legacy_full_mem (header_toc 8192 50) = 0
  /\ header_available legacy_full_mem 8192 = 0
  /\ 0 < 8 <= 2 ^ 64 - 8
  /\ qcom_smem_alloc_global legacy_smem legacy_full_mem 50 8
     = (Err ENOMEM, legacy_full_mem)
  /\ gentry_allocated legacy_full_mem (header_toc 8192 3) <> 0
  /\ qcom_smem_alloc_global legacy_smem legacy_full_mem 3 8
     = (Err EEXIST, legacy_full_mem).
Proof.
  assert (H1 : gentry_allocated legacy_full_mem (header_toc 8192 50) = 0)
    by (vm_compute; reflexivity).
  assert (H2 : header_available legacy_full_mem 8192 = 0)
    by (vm_compute; reflexivity).
  assert (H3 : 0 < 8 <= 2 ^ 64 - 8) by lia.
  assert (H4 : gentry_allocated legacy_full_mem (header_toc 8192 3) <> 0)
    by (apply Z.eqb_neq; vm_compute; reflexivity).
  exact (conj H1 (conj H2 (conj H3
           (conj (proj2 (proj2 (alloc_global_refusals legacy_smem legacy_full_mem
                                  50 8)) H1 H2 H3)
                 (conj H4
                    (proj1 (alloc_global_refusals legacy_smem legacy_full_mem
                              3 8) H4)))))).
Defined.

(** For the sizes [ALIGN] wraps to 0 the refusal does not happen: with
    nothing available, a request for [2^64 - 1] bytes in a free slot
    returns 0. *)
Lemma alloc_global_counterexample :
  gentry_allocated legacy_full_mem (header_toc 8192 50) = 0
  /\ header_available legacy_full_mem 8192 = 0
  /\ 0 < 2 ^ 64 - 1 < 2 ^ 64
  /\ fst (qcom_smem_alloc_global legacy_smem legacy_full_mem 50 (2 ^ 64 - 1))
     = Ok tt.
Proof.
  split; [vm_compute; reflexivity|]. split; [vm_compute; reflexivity|].
  split; [lia|]. vm_compute. reflexivity.
Qed.


(** The global heap: allocation, lookup and a second allocation. *)
Example legacy_alloc_get_alloc :
  exists m',
    qcom_smem_alloc (Some legacy_smem) legacy_mem 7 50 20 = Some (Ok tt, m')
    /\ qcom_smem_get (Some legacy_smem) m' 7 50 true
       = Some (Ok (8192 + 8464, Some 24))
    /\ option_map fst (qcom_smem_alloc (Some legacy_smem) m' 7 50 4)
       = Some (Err EEXIST).
Proof.
  eexists. split; [vm_compute; reflexivity|].
  split; vm_compute; reflexivity.
Qed.

(** A header that reports version 10 is refused. *)
Example init_unsupported_version :
  qcom_smem_init legacy_cfg
    (store32 legacy_mem (8192 + 64 + 4 * 7) (Z.shiftl 10 16))
  = Err EINVAL.
Proof. vm_compute. reflexivity. Qed.

(** A version 12 heap without a partition table is refused as well. *)
Example init_missing_global_partition :
  qcom_smem_init legacy_cfg
    (store32 legacy_mem (8192 + 64 + 4 * 7) (Z.shiftl 12 16))
  = Err ENOENT.
Proof. vm_compute. reflexivity. Qed.

(** * Further properties of the allocator *)

(** ** Lookup in the global heap *)

Lemma get_global_regions_ok n smem m entry aux_base want_size :
  forall i p osz,
  get_global_regions n smem m i entry aux_base want_size = Ok (p, osz) ->
  exists k,
    i <= k < i + Z.of_nat n
    /\ p = region_virt_base (region_of smem k) + gentry_offset m entry
    /\ gentry_size m entry + gentry_offset m entry
       <= region_size (region_of smem k)
    /\ osz = (if want_size then Some (gentry_size m entry) else None).
Proof.
  induction n as [|n IH]; intros i p osz H.
  - discriminate.
  - cbn [get_global_regions] in H.
    destruct ((wrap32 (region_aux_base (region_of smem i)) =? aux_base)
              || (aux_base =? 0)).
    + destruct (gentry_size m entry + gentry_offset m entry
                >? region_size (region_of smem i)) eqn:E; [discriminate|].
      injection H as Hp Hs. exists i. repeat split; try lia; auto.
    + apply IH in H. destruct H as (k & Hk & H). exists k. split; [lia|exact H].
Qed.

(** X1.  Whatever [qcom_smem_get_global] returns lies inside one of the
    regions of the handle together with the whole size recorded for the
    item: the directory slot is marked allocated, the size stored to [*size]
    is the recorded one, and the span from the returned pointer over that
    size does not leave the region. *)
Theorem get_global_within_region smem m item want_size p osz :
  qcom_smem_get_global smem m item want_size = Ok (p, osz) ->
  let entry := header_toc (region_virt_base (region_of smem 0)) item in
  gentry_allocated m entry <> 0
  /\ osz = (if want_size then Some (gentry_size m entry) else None)
  /\ exists k,
       0 <= k < num_regions smem
       /\ region_virt_base (region_of smem k) <= p
       /\ p + gentry_size m entry
          <= region_virt_base (region_of smem k)
             + region_size (region_of smem k).
Proof.
  intros H entry. unfold qcom_smem_get_global in H. fold entry in H.
  destruct (gentry_allocated m entry =? 0) eqn:Ea; [discriminate|].
  apply Z.eqb_neq in Ea. split; [exact Ea|].
  apply get_global_regions_ok in H.
  destruct H as (k & Hk & Hp & Hb & Hs).
  split; [exact Hs|]. exists k.
  assert (0 <= gentry_offset m entry) by (unfold gentry_offset; pose proof (load32_range m (entry + 4)); lia).
  repeat split; lia.
Qed.

Lemma get_global_within_region_witness :
  qcom_smem_get_global legacy_smem legacy_mem 3 true = Ok (16592, Some 64)
  /\ gentry_allocated legacy_mem
       (header_toc (region_virt_base (region_of legacy_smem 0)) 3) <> 0
  /\ Some 64
     = Some (gentry_size legacy_mem
               (header_toc (region_virt_base (region_of legacy_smem 0)) 3))
  /\ exists k,
       0 <= k < num_regions legacy_smem
       /\ region_virt_base (region_of legacy_smem k) <= 16592
       /\ 16592 + gentry_size legacy_mem
                    (header_toc (region_virt_base (region_of legacy_smem 0)) 3)
          <= region_virt_base (region_of legacy_smem k)
             + region_size (region_of legacy_smem k).
Proof.
  assert (H1 : qcom_smem_get_global legacy_smem legacy_mem 3 true
               = Ok (16592, Some 64)) by (vm_compute; reflexivity).
  exact (conj H1
           (get_global_within_region legacy_smem legacy_mem 3 true 16592
                                     (Some 64) H1)).
Defined.

(** ** Free space *)

Lemma int_of_unsigned_small x : 0 <= x < 2 ^ 31 -> int_of_unsigned x = x.
Proof.
  intros H. unfold int_of_unsigned, wrap32.
  rewrite Z.mod_small by lia.
  destruct (Z.ltb_spec x (2 ^ 31)); lia.
Qed.

Lemma int_of_unsigned_nonneg x :
  0 <= x < 2 ^ 32 -> 0 <= int_of_unsigned x -> int_of_unsigned x = x.
Proof.
  intros H. unfold int_of_unsigned, wrap32.
  rewrite Z.mod_small by lia.
  destruct (Z.ltb_spec x (2 ^ 31)); lia.
Qed.

Lemma alloc_global_available smem m item size m' :
  qcom_smem_alloc_global smem m item size = (Ok tt, m') ->
  0 <= item ->
  let header := region_virt_base (region_of smem 0) in
  ALIGN size 8 <= header_available m header
  /\ header_available m' header = header_available m header - ALIGN size 8.
Proof.
  intros H Hi header. unfold qcom_smem_alloc_global in H. fold header in H.
  destruct (negb (gentry_allocated m (header_toc header item) =? 0));
    [discriminate|].
  destruct (Z.gtb_spec (ALIGN size 8) (header_available m header)) as [Hgt|Hle];
    [discriminate|].
  injection H as Hm. split; [exact Hle|].
  subst m'. unfold header_available.
  rewrite load32_le32_add_cpu_same.
  assert (E : forall m0, load32 (le32_add_cpu m0 (header + 196) (ALIGN size 8))
                                (header + 200) = load32 m0 (header + 200)).
  { intros m0. apply load32_ext. intros x Hx.
    apply le32_add_cpu_outside. lia. }
  rewrite E. unfold header_toc.
  rewrite !load32_store32_other by lia.
  pose proof (ALIGN_nonneg size 8).
  pose proof (load32_range m (header + 200)).
  unfold header_available in Hle. unfold wrap32.
  rewrite Z.mod_small; lia.
Qed.

(** X2.  A successful [qcom_smem_alloc] of a size that fits (in a
    partition, a record of that size placed at the very end of the
    partition would still end 16 GiB or more below [2^64]) takes exactly
    the size of the new record out of what [qcom_smem_get_free_space]
    reports for the same host, when that report is not negative:
    [sizeof(struct smem_private_entry) + ALIGN(size, 8)] in a partition,
    [ALIGN(size, 8)] in the global heap.  The error macros have positive
    values. *)
Theorem alloc_consumes_free_space errno_num smem m host item size m' n :
  (forall e, 0 < errno_num e) ->
  owner_size_fits smem host size ->
  qcom_smem_alloc (Some smem) m host item size = Some (Ok tt, m') ->
  qcom_smem_get_free_space errno_num (Some smem) m host = n ->
  0 <= n ->
  let used := match select_partition smem host with
              | Some _ => private_alloc_size size
              | None => ALIGN size 8
              end in
  0 <= used <= n
  /\ qcom_smem_get_free_space errno_num (Some smem) m' host = n - used.
Proof.
  intros Hnum Hfits Ha Hf Hn used.
  apply alloc_accepts_item in Ha. destruct Ha as [Hitem Ha].
  unfold qcom_smem_get_free_space, owner_size_fits in *. subst used.
  pose proof (Hnum EINVAL) as Hinv.
  destruct (select_partition smem host) as [part|].
  - pose proof (alloc_private_ok_cursors _ _ _ _ _ Ha Hfits) as Hc.
    cbv zeta in Hc. destruct Hc as (Hu & Hcc & Hord).
    pose proof (private_alloc_size_range size) as Hr.
    pose proof (load32_range m (part_virt_base part + 12)) as R1.
    pose proof (load32_range m (part_virt_base part + 16)) as R2.
    unfold phdr_offset_free_uncached, phdr_offset_free_cached in *.
    rewrite Hu, Hcc in *.
    set (ofu := load32 m (part_virt_base part + 12)) in *.
    set (ofc := load32 m (part_virt_base part + 16)) in *.
    set (asz := private_alloc_size size) in *.
    assert (W : wrap32 (ofc - ofu) = ofc - ofu)
      by (unfold wrap32; rewrite Z.mod_small; lia).
    assert (W' : wrap32 (ofc - (ofu + asz)) = ofc - ofu - asz)
      by (unfold wrap32; rewrite Z.mod_small; lia).
    rewrite W in Hf. rewrite W'.
    destruct (Z.gtb_spec (ofc - ofu) (wrap32 (part_size part))) as [Hgt|Hle];
      [lia|].
    assert (En : n = ofc - ofu).
    { rewrite <- Hf. apply int_of_unsigned_nonneg; lia. }
    assert (ofc - ofu < 2 ^ 31).
    { unfold int_of_unsigned in Hf. rewrite W in Hf.
      destruct (Z.ltb_spec (ofc - ofu) (2 ^ 31)); lia. }
    split; [lia|].
    destruct (Z.gtb_spec (ofc - ofu - asz) (wrap32 (part_size part))); [lia|].
    rewrite int_of_unsigned_small by lia. lia.
  - unfold SMEM_ITEM_LAST_FIXED in Hitem.
    pose proof (alloc_global_available _ _ _ _ _ Ha ltac:(lia)) as Hc.
    cbv zeta in Hc. destruct Hc as [Hle Hav].
    pose proof (ALIGN_nonneg size 8).
    pose proof (load32_range m (region_virt_base (region_of smem 0) + 200)) as R.
    unfold header_available in *. rewrite Hav.
    set (av := load32 m (region_virt_base (region_of smem 0) + 200)) in *.
    destruct (Z.gtb_spec av (region_size (region_of smem 0))); [lia|].
    assert (En : n = av).
    { rewrite <- Hf. apply int_of_unsigned_nonneg; lia. }
    assert (av < 2 ^ 31).
    { unfold int_of_unsigned, wrap32 in Hf. rewrite Z.mod_small in Hf by lia.
      destruct (Z.ltb_spec av (2 ^ 31)); lia. }
    split; [lia|].
    destruct (Z.gtb_spec (av - ALIGN size 8) (region_size (region_of smem 0)));
      [lia|].
    rewrite int_of_unsigned_small by lia. lia.
Qed.

Lemma alloc_consumes_free_space_witness :
  (forall e, 0 < sample_errno_num e)
  /\ owner_size_fits part_smem 1 20
  /\ qcom_smem_alloc (Some part_smem) part_mem 1 100 20
     = Some (Ok tt, part_mem_after)
  /\ qcom_smem_get_free_space sample_errno_num (Some part_smem) part_mem 1 = 120
  /\ 0 <= 120
  /\ 0 <= private_alloc_size 20 <= 120
  /\ qcom_smem_get_free_space sample_errno_num (Some part_smem) part_mem_after 1
     = 120 - private_alloc_size 20.
Proof.
  assert (H0 : forall e, 0 < sample_errno_num e) by (intros []; cbn; lia).
  assert (H0' : owner_size_fits part_smem 1 20).
  { unfold owner_size_fits. rewrite demo_part_selected.
    apply demo_part_fits. change (2 ^ 32) with 4294967296. lia. }
  assert (H1 : qcom_smem_alloc (Some part_smem) part_mem 1 100 20
               = Some (Ok tt, part_mem_after)) by (vm_compute; reflexivity).
  assert (H2 : qcom_smem_get_free_space sample_errno_num (Some part_smem)
                 part_mem 1 = 120)
    by (vm_compute; reflexivity).
  assert (H3 : 0 <= 120) by lia.
  exact (conj H0 (conj H0' (conj H1 (conj H2 (conj H3
           (alloc_consumes_free_space sample_errno_num part_smem part_mem 1
              100 20 part_mem_after 120 H0 H0' H1 H2 H3)))))).
Defined.

(** X3.  In a partition smaller than 2 GiB whose forward cursor lies inside
    it (what [qcom_smem_partition_header] checks before the partition is
    registered), [qcom_smem_get_free_space] returns the distance between the
    two cursors when they are in order and that distance fits the partition,
    and [-EINVAL] otherwise; crossed cursors are never reported as free
    space. *)
Theorem free_space_of_partition errno_num smem m host part :
  select_partition smem host = Some part ->
  0 <= part_size part < 2 ^ 31 ->
  phdr_offset_free_uncached m (part_virt_base part) <= part_size part ->
  let ofu := phdr_offset_free_uncached m (part_virt_base part) in
  let ofc := phdr_offset_free_cached m (part_virt_base part) in
  qcom_smem_get_free_space errno_num (Some smem) m host
  = if (ofu <=? ofc) && (ofc - ofu <=? part_size part)
    then ofc - ofu else - errno_num EINVAL.
Proof.
  intros Hsel Hsz Hofu ofu ofc. unfold qcom_smem_get_free_space.
  rewrite Hsel. fold ofu ofc. fold ofu in Hofu.
  assert (R1 : 0 <= ofu < 2 ^ 32) by apply load32_range.
  assert (R2 : 0 <= ofc < 2 ^ 32) by apply load32_range.
  assert (Ws : wrap32 (part_size part) = part_size part)
    by (unfold wrap32; rewrite Z.mod_small; lia).
  rewrite Ws.
  destruct (Z.leb_spec ofu ofc) as [Hord|Hcross]; cbn [andb].
  - assert (W : wrap32 (ofc - ofu) = ofc - ofu)
      by (unfold wrap32; rewrite Z.mod_small; lia).
    rewrite W.
    destruct (Z.gtb_spec (ofc - ofu) (part_size part));
      destruct (Z.leb_spec (ofc - ofu) (part_size part)); try lia.
    rewrite int_of_unsigned_small by lia. reflexivity.
  - assert (W : wrap32 (ofc - ofu) = 2 ^ 32 + ofc - ofu).
    { unfold wrap32.
      replace (ofc - ofu) with (2 ^ 32 + ofc - ofu + (-1) * 2 ^ 32) by lia.
      rewrite Z.mod_add by lia. rewrite Z.mod_small; lia. }
    rewrite W.
    destruct (Z.gtb_spec (2 ^ 32 + ofc - ofu) (part_size part)); [reflexivity|lia].
Qed.

Lemma free_space_of_partition_witness :
  select_partition part_smem 1 = Some demo_part
  /\ 0 <= part_size demo_part < 2 ^ 31
  /\ phdr_offset_free_uncached part_mem (part_virt_base demo_part)
     <= part_size demo_part
  /\ qcom_smem_get_free_space sample_errno_num (Some part_smem) part_mem 1
     = if (phdr_offset_free_uncached part_mem (part_virt_base demo_part)
           <=? phdr_offset_free_cached part_mem (part_virt_base demo_part))
          && (phdr_offset_free_cached part_mem (part_virt_base demo_part)
              - phdr_offset_free_uncached part_mem (part_virt_base demo_part)
              <=? part_size demo_part)
       then phdr_offset_free_cached part_mem (part_virt_base demo_part)
            - phdr_offset_free_uncached part_mem (part_virt_base demo_part)
       else - sample_errno_num EINVAL.
Proof.
  assert (H1 : select_partition part_smem 1 = Some demo_part)
    by (vm_compute; reflexivity).
  assert (H2 : 0 <= part_size demo_part < 2 ^ 31) by (cbn; lia).
  assert (H3 : phdr_offset_free_uncached part_mem (part_virt_base demo_part)
               <= part_size demo_part)
    by (apply Z.leb_le; vm_compute; reflexivity).
  exact (conj H1 (conj H2 (conj H3
           (free_space_of_partition sample_errno_num part_smem part_mem 1
              demo_part H1 H2 H3)))).
Defined.

(** ** What initialisation records *)

Lemma list_set_length {A : Type} (l : list A) : forall n x,
  length (list_set l n x) = length l.
Proof.
  induction l as [|a l IH]; intros [|n] x; simpl; auto.
Qed.

Lemma nth_list_set {A : Type} (l : list A) : forall n k x d,
  (n < length l)%nat ->
  nth k (list_set l n x) d = if Nat.eqb n k then x else nth k l d.
Proof.
  induction l as [|a l IH]; intros [|n] [|k] x d H; simpl in *;
    try lia; try reflexivity.
  apply IH. lia.
Qed.

Lemma nth_list_set_other {A : Type} (l : list A) : forall n k x d,
  n <> k -> nth k (list_set l n x) d = nth k l d.
Proof.
  induction l as [|a l IH]; intros [|n] [|k] x d H; simpl in *;
    try lia; try reflexivity.
  apply IH. lia.
Qed.

Lemma partition_of_with_partition smem host p h :
  0 <= host < Z.of_nat (length (partitions smem)) ->
  0 <= h ->
  partition_of (with_partition smem host p) h
  = if host =? h then p else partition_of smem h.
Proof.
  intros Hh Hk. unfold partition_of, with_partition. cbn [partitions].
  rewrite nth_list_set by lia.
  destruct (Z.eqb_spec host h) as [->|Hne].
  - rewrite Nat.eqb_refl. reflexivity.
  - destruct (Nat.eqb_spec (Z.to_nat host) (Z.to_nat h)); [lia|reflexivity].
Qed.

Lemma remote_host_of_range m entry local_host h :
  remote_host_of (pentry_host0 m entry) (pentry_host1 m entry) local_host
  = Some h ->
  0 <= h < 65536.
Proof.
  unfold remote_host_of, pentry_host0, pentry_host1.
  pose proof (load16_range m (entry + 12)).
  pose proof (load16_range m (entry + 14)).
  destruct (_ =? _); [intros [= <-]; lia|].
  destruct (_ =? _); [intros [= <-]; lia|discriminate].
Qed.

(** Every error of the enumeration loop is [-EINVAL]. *)
Lemma enumerate_loop_err n m ptable local_host : forall smem i e smem',
  enumerate_loop n smem m ptable i local_host = (Err e, smem') -> e = EINVAL.
Proof.
  induction n as [|n IH]; intros smem i e smem' H; cbn [enumerate_loop] in H.
  - discriminate.
  - destruct (pentry_offset m (ptable_entry ptable i) =? 0);
      [eapply IH; eassumption|].
    destruct (pentry_size m (ptable_entry ptable i) =? 0);
      [eapply IH; eassumption|].
    destruct (remote_host_of _ _ _) as [remote|]; [|eapply IH; eassumption].
    destruct (remote >=? SMEM_HOST_COUNT); [congruence|].
    destruct (negb _); [congruence|].
    destruct (qcom_smem_partition_header _ _ _ _ _) as [header|];
      [|congruence].
    eapply IH; eassumption.
Qed.

(** A property [P] of the partition recorded for each host is kept by the
    enumeration loop if every descriptor it stores has it. *)
Lemma enumerate_loop_inv (P : Z -> smem_partition -> Prop) R n m ptable
  local_host :
  (forall s entry header h,
      regions s = R ->
      0 <= h < SMEM_HOST_COUNT ->
      remote_host_of (pentry_host0 m entry) (pentry_host1 m entry) local_host
      = Some h ->
      pentry_offset m entry <> 0 ->
      pentry_size m entry <> 0 ->
      qcom_smem_partition_header s m entry
        (pentry_host0 m entry) (pentry_host1 m entry) = Some header ->
      P h (partition_from_entry s m entry header)) ->
  forall smem i smem',
  regions smem = R ->
  length (partitions smem) = Z.to_nat SMEM_HOST_COUNT ->
  (forall h, 0 <= h < SMEM_HOST_COUNT -> P h (partition_of smem h)) ->
  enumerate_loop n smem m ptable i local_host = (Ok tt, smem') ->
  (forall h, 0 <= h < SMEM_HOST_COUNT -> P h (partition_of smem' h))
  /\ length (partitions smem') = Z.to_nat SMEM_HOST_COUNT.
Proof.
  intros Hstep.
  induction n as [|n IH]; intros smem i smem' HR Hlen HP H;
    cbn [enumerate_loop] in H.
  - injection H as <-. auto.
  - destruct (Z.eqb_spec (pentry_offset m (ptable_entry ptable i)) 0) as [|Ho];
      [eapply IH; eassumption|].
    destruct (Z.eqb_spec (pentry_size m (ptable_entry ptable i)) 0) as [|Hs];
      [eapply IH; eassumption|].
    destruct (remote_host_of _ _ _) as [remote|] eqn:Er;
      [|eapply IH; eassumption].
    pose proof (remote_host_of_range _ _ _ _ Er) as Hrr.
    destruct (Z.geb_spec remote SMEM_HOST_COUNT) as [|Hlt]; [discriminate|].
    destruct (negb _); [discriminate|].
    destruct (qcom_smem_partition_header _ _ _ _ _) as [header|] eqn:Ev;
      [|discriminate].
    eapply IH; [| | |exact H].
    + exact HR.
    + cbn [with_partition partitions]. rewrite list_set_length. exact Hlen.
    + intros h Hh. rewrite partition_of_with_partition by lia.
      destruct (Z.eqb_spec remote h) as [<-|]; [|apply HP; exact Hh].
      eapply Hstep; eauto; lia.
Qed.

Lemma map_toc_partitions smem :
  partitions (snd (qcom_smem_map_toc smem)) = partitions smem.
Proof.
  unfold qcom_smem_map_toc. destruct (_ || _); reflexivity.
Qed.

Lemma set_global_partition_partitions smem m r smem' :
  qcom_smem_set_global_partition smem m = (r, smem') ->
  partitions smem' = partitions smem /\ regions smem' = regions smem
  /\ num_regions smem' = num_regions smem /\ ptable smem' = ptable smem.
Proof.
  unfold qcom_smem_set_global_partition.
  destruct (negb _); [intros [= <- <-]; auto|].
  destruct (qcom_smem_get_ptable smem m) as [t|e]; [|intros [= <- <-]; auto].
  destruct (find_global_entry _ _ _ _) as [entry|]; [|intros [= <- <-]; auto].
  destruct (qcom_smem_partition_header _ _ _ _ _) as [header|];
    intros [= <- <-]; auto.
Qed.

Lemma select_mode_partitions smem m size smem' :
  init_select_mode smem m size = Ok smem' ->
  partitions smem' = partitions smem /\ num_regions smem' = num_regions smem.
Proof.
  unfold init_select_mode.
  destruct (_ =? SMEM_GLOBAL_PART_VERSION).
  - destruct (qcom_smem_set_global_partition smem m) as [[[]|e] s] eqn:E;
      [|discriminate].
    intros [= <-]. apply set_global_partition_partitions in E.
    cbn [partitions num_regions with_item_count]. tauto.
  - destruct (_ =? SMEM_GLOBAL_HEAP_VERSION); [|discriminate].
    intros [= <-]. rewrite map_global_snd. auto.
Qed.

Lemma select_mode_regions smem m size smem' a sz :
  init_select_mode smem m size = Ok smem' ->
  regions smem = [mk_region a a sz] ->
  exists sz', regions smem' = [mk_region a a sz'].
Proof.
  unfold init_select_mode. intros H HR.
  destruct (_ =? SMEM_GLOBAL_PART_VERSION).
  - destruct (qcom_smem_set_global_partition smem m) as [[[]|e] s] eqn:E;
      [|discriminate].
    injection H as <-. apply set_global_partition_partitions in E.
    exists sz. cbn [regions with_item_count]. destruct E as (_ & -> & _).
    exact HR.
  - destruct (_ =? SMEM_GLOBAL_HEAP_VERSION); [|discriminate].
    injection H as <-. rewrite map_global_snd.
    exists size. cbn [regions with_item_count with_region0].
    unfold region_of. rewrite HR. reflexivity.
Qed.

(** A successful [qcom_smem_init], step by step. *)
Lemma init_ok_steps cfg m smem :
  qcom_smem_init cfg m = Ok smem ->
  exists aux_base smem1 smem3 r,
    cfg_addr cfg = Some aux_base
    /\ qcom_smem_map_toc (fresh_smem aux_base (cfg_size cfg)) = (Ok tt, smem1)
    /\ header_initialized m aux_base = 1
    /\ header_reserved m aux_base = 0
    /\ init_select_mode smem1 m
         (wrap32 (header_available m aux_base + header_free_offset m aux_base))
       = Ok smem3
    /\ qcom_smem_enumerate_partitions smem3 m SMEM_HOST_APPS = (r, smem)
    /\ (r = Ok tt \/ r = Err ENOENT).
Proof.
  unfold qcom_smem_init. intros H.
  destruct (cfg_node_valid cfg); [|discriminate].
  destruct (cfg_kzalloc_ok cfg); [|discriminate]. cbn [negb] in H.
  destruct (cfg_addr cfg) as [aux_base|]; [|discriminate].
  destruct (qcom_smem_map_toc _) as [[[]|e] smem1] eqn:Emap; [|discriminate].
  pose proof (map_toc_fresh _ _ _ _ Emap) as (Hr0 & _).
  rewrite Hr0 in H. cbn [region_virt_base] in H.
  destruct (Z.eqb_spec (header_initialized m aux_base) 1) as [Hi|];
    [|discriminate].
  destruct (Z.eqb_spec (header_reserved m aux_base) 0) as [Hres|];
    [|discriminate].
  cbn [negb orb] in H.
  destruct (init_select_mode smem1 m _) as [smem3|e] eqn:Esel; [|discriminate].
  destruct (qcom_smem_enumerate_partitions smem3 m SMEM_HOST_APPS)
    as [r smem4] eqn:Eenum.
  exists aux_base, smem1, smem3, r.
  destruct r as [[]|[]]; try discriminate; injection H as <-; auto 10.
Qed.

(** The same for every partition recorded by a successful
    [qcom_smem_init]: a property of the descriptors stored by the
    enumeration that the empty descriptor has too. *)
Lemma init_partitions_inv (P : Z -> smem_partition -> Prop) cfg m smem :
  qcom_smem_init cfg m = Ok smem ->
  (forall h, P h no_partition) ->
  (forall aux_base s entry header h,
      cfg_addr cfg = Some aux_base ->
      region_aux_base (region_of s 0) = aux_base ->
      0 <= h < SMEM_HOST_COUNT ->
      remote_host_of (pentry_host0 m entry) (pentry_host1 m entry)
                     SMEM_HOST_APPS = Some h ->
      pentry_offset m entry <> 0 ->
      pentry_size m entry <> 0 ->
      qcom_smem_partition_header s m entry
        (pentry_host0 m entry) (pentry_host1 m entry) = Some header ->
      P h (partition_from_entry s m entry header)) ->
  (forall h, 0 <= h < SMEM_HOST_COUNT -> P h (partition_of smem h))
  /\ length (partitions smem) = Z.to_nat SMEM_HOST_COUNT.
Proof.
  intros H Hno Hstep.
  apply init_ok_steps in H
    as (aux & smem1 & smem3 & r & Ha & Hmap & _ & _ & Hsel & Henum & Hr).
  pose proof (f_equal (fun x => partitions (snd x)) Hmap) as Hp1.
  cbn beta in Hp1. rewrite map_toc_partitions in Hp1. cbn [snd] in Hp1.
  apply map_toc_fresh in Hmap as (Hr0 & Hregs & _).
  pose proof (select_mode_partitions _ _ _ _ Hsel) as (Hp3 & _).
  assert (Hparts : partitions smem3
                   = repeat no_partition (Z.to_nat SMEM_HOST_COUNT)).
  { rewrite Hp3, <- Hp1. reflexivity. }
  assert (Hfresh : forall h, partition_of smem3 h = no_partition).
  { intros h. unfold partition_of. rewrite Hparts.
    destruct (Nat.ltb_spec (Z.to_nat h) (Z.to_nat SMEM_HOST_COUNT)).
    - apply nth_repeat_lt. assumption.
    - apply nth_overflow. rewrite repeat_length. assumption. }
  assert (Hlen : length (partitions smem3) = Z.to_nat SMEM_HOST_COUNT)
    by (rewrite Hparts; apply repeat_length).
  unfold qcom_smem_enumerate_partitions in Henum.
  destruct (qcom_smem_get_ptable smem3 m) as [t|e].
  - destruct Hr as [->| ->].
    + eapply (enumerate_loop_inv P (regions smem3)); [|reflexivity|exact Hlen| |exact Henum].
      * intros s entry header h HR. apply (Hstep aux); [assumption|].
        unfold region_of. rewrite HR.
        destruct (select_mode_regions _ _ _ _ _ _ Hsel Hregs) as [sz' ->].
        reflexivity.
      * intros h _. rewrite Hfresh. apply Hno.
    + apply enumerate_loop_err in Henum. discriminate.
  - injection Henum as _ <-. split; [|exact Hlen].
    intros h _. rewrite Hfresh. apply Hno.
Qed.

Lemma map_toc_num_regions smem :
  num_regions (snd (qcom_smem_map_toc smem)) = num_regions smem.
Proof.
  unfold qcom_smem_map_toc. destruct (_ || _); reflexivity.
Qed.

Lemma select_mode_global smem m size smem' :
  init_select_mode smem m size = Ok smem' ->
  global_partition smem = no_partition ->
  part_phys_base (global_partition smem')
  = part_virt_base (global_partition smem').
Proof.
  unfold init_select_mode. intros H Hg.
  destruct (_ =? SMEM_GLOBAL_PART_VERSION).
  - destruct (qcom_smem_set_global_partition smem m) as [[[]|e] s] eqn:E;
      [|discriminate].
    injection H as <-. cbn [global_partition with_item_count].
    unfold qcom_smem_set_global_partition in E.
    destruct (negb _); [discriminate|].
    destruct (qcom_smem_get_ptable smem m) as [t|e]; [|discriminate].
    destruct (find_global_entry _ _ _ _) as [entry|]; [|discriminate].
    destruct (qcom_smem_partition_header _ _ _ _ _) as [header|] eqn:Ev;
      [|discriminate].
    injection E as <-. cbn.
    apply partition_header_some in Ev. symmetry. tauto.
  - destruct (_ =? SMEM_GLOBAL_HEAP_VERSION); [|discriminate].
    injection H as <-. rewrite map_global_snd.
    cbn [global_partition with_item_count with_region0]. rewrite Hg.
    reflexivity.
Qed.

(** The shape of the handle a successful [qcom_smem_init] leaves: one
    region, mapped at its physical address, and descriptors whose virtual and
    physical base agree. *)
Lemma init_handle_shape cfg m smem :
  qcom_smem_init cfg m = Ok smem ->
  exists aux_base sz,
    cfg_addr cfg = Some aux_base
    /\ regions smem = [mk_region aux_base aux_base sz]
    /\ num_regions smem = 1
    /\ part_phys_base (global_partition smem)
       = part_virt_base (global_partition smem)
    /\ length (partitions smem) = Z.to_nat SMEM_HOST_COUNT
    /\ forall h, 0 <= h < SMEM_HOST_COUNT ->
         part_phys_base (partition_of smem h)
         = part_virt_base (partition_of smem h).
Proof.
  intros H.
  pose proof (init_partitions_inv
                (fun _ p => part_phys_base p = part_virt_base p) cfg m smem H)
    as Hinv.
  destruct Hinv as [Hparts Hlen].
  { reflexivity. }
  { intros aux s entry header h _ _ _ _ _ _ Hv. cbn.
    apply partition_header_some in Hv. symmetry. tauto. }
  apply init_ok_steps in H
    as (aux & smem1 & smem3 & r & Ha & Hmap & _ & _ & Hsel & Henum & Hr).
  pose proof (f_equal (fun x => num_regions (snd x)) Hmap) as Hn1.
  cbn beta in Hn1. rewrite map_toc_num_regions in Hn1. cbn [snd] in Hn1.
  apply map_toc_fresh in Hmap as (_ & Hregs & Hgp & _).
  destruct (select_mode_regions _ _ _ _ _ _ Hsel Hregs) as [sz' Hregs3].
  pose proof (select_mode_partitions _ _ _ _ Hsel) as (_ & Hn3).
  pose proof (select_mode_global _ _ _ _ Hsel Hgp) as Hg3.
  apply enumerate_partitions_preserves in Henum
    as (_ & _ & Hgp' & Hn' & Hregs').
  exists aux, sz'. rewrite <- Hregs', <- Hn', <- Hgp'.
  repeat split; auto. rewrite Hn3, <- Hn1. reflexivity.
Qed.

(** X4.  Every partition a successful [qcom_smem_init] has recorded for a
    remote host was validated against the shared memory it describes: its
    header carries the partition magic, names the pair (local host, that
    remote host) in one order or the other, states the size the descriptor
    has, which is not 0, and has its forward cursor inside the partition. *)
Theorem init_partitions_validated cfg m smem host :
  qcom_smem_init cfg m = Ok smem ->
  0 <= host < SMEM_HOST_COUNT ->
  part_virt_base (partition_of smem host) <> 0 ->
  let part := partition_of smem host in
  let phdr := part_virt_base part in
  magic_ok m phdr SMEM_PART_MAGIC = true
  /\ ((phdr_host0 m phdr = SMEM_HOST_APPS /\ phdr_host1 m phdr = host)
      \/ (phdr_host0 m phdr = host /\ phdr_host1 m phdr = SMEM_HOST_APPS))
  /\ phdr_size m phdr = part_size part
  /\ part_size part <> 0
  /\ phdr_offset_free_uncached m phdr <= part_size part.
Proof.
  intros H Hh Hvb part phdr.
  pose proof (init_partitions_inv
    (fun h p =>
       part_virt_base p <> 0 ->
       magic_ok m (part_virt_base p) SMEM_PART_MAGIC = true
       /\ ((phdr_host0 m (part_virt_base p) = SMEM_HOST_APPS
            /\ phdr_host1 m (part_virt_base p) = h)
           \/ (phdr_host0 m (part_virt_base p) = h
               /\ phdr_host1 m (part_virt_base p) = SMEM_HOST_APPS))
       /\ phdr_size m (part_virt_base p) = part_size p
       /\ part_size p <> 0
       /\ phdr_offset_free_uncached m (part_virt_base p) <= part_size p)
    cfg m smem H) as Hinv.
  destruct Hinv as [Hparts _].
  - intros h Hc. cbn in Hc. congruence.
  - intros aux s entry header h _ _ _ Hr _ Hsz Hv _. cbn.
    apply partition_header_some in Hv
      as (_ & _ & Hmagic & Hh0 & Hh1 & Hsize & Hofu).
    rewrite Hh0, Hh1, <- Hsize. repeat split; auto; try lia.
    unfold remote_host_of in Hr.
    destruct (Z.eqb_spec (pentry_host0 m entry) SMEM_HOST_APPS) as [E0|_].
    + left. split; congruence.
    + destruct (Z.eqb_spec (pentry_host1 m entry) SMEM_HOST_APPS) as [E1|_];
        [|discriminate].
      right. split; congruence.
  - apply Hparts; assumption.
Qed.

Lemma init_partitions_validated_witness :
  qcom_smem_init part_cfg part_mem = Ok part_smem
  /\ 0 <= 1 < SMEM_HOST_COUNT
  /\ part_virt_base (partition_of part_smem 1) <> 0
  /\ magic_ok part_mem (part_virt_base (partition_of part_smem 1))
              SMEM_PART_MAGIC = true
  /\ ((phdr_host0 part_mem (part_virt_base (partition_of part_smem 1))
       = SMEM_HOST_APPS
       /\ phdr_host1 part_mem (part_virt_base (partition_of part_smem 1)) = 1)
      \/ (phdr_host0 part_mem (part_virt_base (partition_of part_smem 1)) = 1
          /\ phdr_host1 part_mem (part_virt_base (partition_of part_smem 1))
             = SMEM_HOST_APPS))
  /\ phdr_size part_mem (part_virt_base (partition_of part_smem 1))
     = part_size (partition_of part_smem 1)
  /\ part_size (partition_of part_smem 1) <> 0
  /\ phdr_offset_free_uncached part_mem
       (part_virt_base (partition_of part_smem 1))
     <= part_size (partition_of part_smem 1).
Proof.
  assert (H1 : qcom_smem_init part_cfg part_mem = Ok part_smem)
    by (vm_compute; reflexivity).
  assert (H2 : 0 <= 1 < SMEM_HOST_COUNT) by (unfold SMEM_HOST_COUNT; lia).
  assert (H3 : part_virt_base (partition_of part_smem 1) <> 0)
    by (apply Z.eqb_neq; vm_compute; reflexivity).
  exact (conj H1 (conj H2 (conj H3
           (init_partitions_validated part_cfg part_mem part_smem 1
              H1 H2 H3)))).
Defined.

(** ** Address translation *)



Lemma virt_to_phys_regions_some n smem p : forall i phys,
  virt_to_phys_regions n smem i p = Some phys ->
  exists k,
    i <= k < i + Z.of_nat n
    /\ addr_in_range (region_virt_base (region_of smem k))
                     (region_size (region_of smem k)) p = true
    /\ phys = wrap64 (region_aux_base (region_of smem k)
                      + wrap64 (p - region_virt_base (region_of smem k))).
Proof.
  induction n as [|n IH]; intros i phys H; cbn [virt_to_phys_regions] in H.
  - discriminate.
  - destruct (addr_in_range _ _ p) eqn:E.
    + injection H as <-. exists i. repeat split; auto; lia.
    + apply IH in H as (k & Hk & H). exists k. split; [lia|exact H].
Qed.

Lemma virt_to_phys_regions_none n smem p : forall i,
  virt_to_phys_regions n smem i p = None ->
  forall k, i <= k < i + Z.of_nat n ->
    addr_in_range (region_virt_base (region_of smem k))
                  (region_size (region_of smem k)) p = false.
Proof.
  induction n as [|n IH]; intros i H k Hk; cbn [virt_to_phys_regions] in H.
  - lia.
  - destruct (addr_in_range _ _ p) eqn:E; [discriminate|].
    destruct (Z.eq_dec k i) as [->|Hne]; [exact E|].
    apply (IH (i + 1)); [exact H|lia].
Qed.




(** The pointer [qcom_smem_get] returns for item 9 of the sample heap
    translates to itself, and an address below the region to 0. *)
Example virt_to_phys_of_item :
  qcom_smem_get (Some part_smem) part_mem 1 9 true = Some (Ok (86064, Some 5))
  /\ qcom_smem_virt_to_phys part_smem 86064 = 86064
  /\ qcom_smem_virt_to_phys part_smem 4096 = 0.
Proof. repeat split; vm_compute; reflexivity. Qed.

(** ** Allocation leaves the other items alone *)

Lemma uncached_scan_ge fuel m e end_ item :
  end_ <= e -> uncached_scan fuel m e end_ item = Some ([], ScanEnd e).
Proof.
  intros H. destruct fuel; cbn [uncached_scan];
    destruct (Z.ltb_spec e end_); try lia; reflexivity.
Qed.

Lemma entry_fields_ext m m' e :
  (forall x, e <= x < e + 12 -> m' x = m x) ->
  entry_canary m' e = entry_canary m e
  /\ entry_item m' e = entry_item m e
  /\ entry_size m' e = entry_size m e
  /\ entry_padding_data m' e = entry_padding_data m e
  /\ entry_padding_hdr m' e = entry_padding_hdr m e.
Proof.
  intros H.
  unfold entry_canary, entry_item, entry_size, entry_padding_data,
    entry_padding_hdr.
  repeat split; first [apply load16_ext | apply load32_ext];
    intros x Hx; apply H; lia.
Qed.

Lemma uncached_entry_next_ext m m' e :
  (forall x, e <= x < e + 12 -> m' x = m x) ->
  uncached_entry_next m' e = uncached_entry_next m e.
Proof.
  intros H. apply entry_fields_ext in H as (_ & _ & Hs & _ & Hp).
  unfold uncached_entry_next. rewrite Hs, Hp. reflexivity.
Qed.

(** The walk for [other] over a list to which a record for another item has
    been appended at [h]: it finds what it found before, or passes the old
    end of the list. *)
Lemma uncached_scan_other fuel m m' end_ end' item other : forall e tr h,
  uncached_scan fuel m e end_ item = Some (tr, ScanEnd h) ->
  (forall x, e <= x < h -> m' x = m x) ->
  end_ <= end' ->
  entry_canary m' h = SMEM_PRIVATE_CANARY ->
  entry_item m' h <> other ->
  end' <= uncached_entry_next m' h ->
  (exists tr' x,
      uncached_scan (S fuel) m' e end' other = Some (tr', ScanFound x)
      /\ uncached_scan fuel m e end_ other = Some (tr', ScanFound x)
      /\ e <= x /\ x + sizeof_private_entry <= h)
  \/ (exists tr' tr0 h',
        uncached_scan (S fuel) m' e end' other = Some (tr', ScanEnd h')
        /\ uncached_scan fuel m e end_ other = Some (tr0, ScanEnd h)
        /\ (h' = h \/ h' = uncached_entry_next m' h)).
Proof.
  induction fuel as [|fuel IH]; intros e tr h Hs Hagree Hend Hcan Hitem Hnext.
  - cbn [uncached_scan] in Hs.
    destruct (Z.ltb_spec e end_) as [|Hge]; [discriminate|].
    injection Hs as <- <-. right.
    rewrite uncached_scan_S.
    destruct (Z.ltb_spec e end') as [Hlt|Hge'].
    + rewrite Hcan, Z.eqb_refl. cbn [negb].
      destruct (Z.eqb_spec (entry_item m' e) other) as [|_]; [contradiction|].
      rewrite (uncached_scan_ge 0 m' (uncached_entry_next m' e)) by lia.
      exists [e], [], (uncached_entry_next m' e).
      rewrite uncached_scan_ge by lia. auto.
    + exists [], [], e. rewrite uncached_scan_ge by lia. auto.
  - rewrite uncached_scan_S in Hs.
    destruct (Z.ltb_spec e end_) as [Hlt|Hge].
    + destruct (Z.eqb_spec (entry_canary m e) SMEM_PRIVATE_CANARY) as [Hc|];
        [|discriminate].
      cbn [negb] in Hs.
      destruct (entry_item m e =? item); [discriminate|].
      destruct (uncached_scan fuel m (uncached_entry_next m e) end_ item)
        as [[tr1 r1]|] eqn:Hrec; [|discriminate].
      injection Hs as <- ->.
      pose proof (uncached_scan_end_ge _ _ _ _ _ _ _ Hrec) as [Hnh _].
      pose proof (uncached_entry_next_ge m e) as Hn16.
      unfold sizeof_private_entry in *.
      assert (Hf : forall x, e <= x < e + 12 -> m' x = m x)
        by (intros x Hx; apply Hagree; lia).
      pose proof (entry_fields_ext _ _ _ Hf) as (Ec & Ei & _).
      pose proof (uncached_entry_next_ext _ _ _ Hf) as En.
      rewrite (uncached_scan_S (S fuel) m' e end' other),
        (uncached_scan_S fuel m e end_ other).
      destruct (Z.ltb_spec e end'); [|lia].
      destruct (Z.ltb_spec e end_); [|lia].
      rewrite Ec, Ei, Hc, Z.eqb_refl. cbn [negb].
      destruct (Z.eqb_spec (entry_item m e) other) as [Hfound|Hnot].
      * left. exists [e], e. repeat split; auto; lia.
      * rewrite En.
        destruct (IH (uncached_entry_next m e) tr1 h Hrec) as
          [(tr' & x & H1 & H2 & Hx1 & Hx2)|(tr' & tr0 & h' & H1 & H2 & Hh')];
          auto.
        { intros x Hx. apply Hagree. lia. }
        { left. exists (e :: tr'), x. rewrite H1, H2.
          repeat split; auto; lia. }
        { right. exists (e :: tr'), (e :: tr0), h'. rewrite H1, H2. auto. }
    + injection Hs as <- <-. right.
      rewrite uncached_scan_S.
      destruct (Z.ltb_spec e end') as [Hlt|Hge'].
      * rewrite Hcan, Z.eqb_refl. cbn [negb].
        destruct (Z.eqb_spec (entry_item m' e) other) as [|_]; [contradiction|].
        rewrite (uncached_scan_ge (S fuel)) by lia.
        exists [e], [], (uncached_entry_next m' e).
        rewrite uncached_scan_ge by lia. auto.
      * exists [], [], e. rewrite uncached_scan_ge by lia. auto.
Qed.

Lemma cached_scan_ext fuel m m' end_ cacheline item : forall e,
  (forall x, end_ < x -> m' x = m x) ->
  cached_scan fuel m' e end_ cacheline item
  = cached_scan fuel m e end_ cacheline item.
Proof.
  induction fuel as [|fuel IH]; intros e Hagree; cbn [cached_scan].
  - reflexivity.
  - destruct (Z.gtb_spec e end_) as [Hgt|]; [|reflexivity].
    assert (Hf : forall x, e <= x < e + 12 -> m' x = m x)
      by (intros x Hx; apply Hagree; lia).
    pose proof (entry_fields_ext _ _ _ Hf) as (Ec & Ei & Es & _).
    rewrite Ec, Ei. unfold cached_entry_next. rewrite Es.
    rewrite IH by exact Hagree. reflexivity.
Qed.

Lemma cached_scan_found_gt fuel m end_ cacheline item : forall e0 tr e,
  cached_scan fuel m e0 end_ cacheline item = Some (tr, ScanFound e) ->
  end_ < e.
Proof.
  induction fuel as [|fuel IH]; intros e0 tr e H; cbn [cached_scan] in H.
  - destruct (e0 >? end_); discriminate.
  - destruct (Z.gtb_spec e0 end_) as [Hgt|]; [|discriminate].
    destruct (negb _); [discriminate|].
    destruct (entry_item m e0 =? item); [injection H as _ <-; exact Hgt|].
    destruct (cached_scan fuel m _ end_ cacheline item) as [[tr1 r1]|] eqn:E;
      [|discriminate].
    injection H as _ ->. eapply IH. exact E.
Qed.

Lemma get_private_cached_ext m m' part item want_size :
  phdr_size m' (part_virt_base part) = phdr_size m (part_virt_base part) ->
  phdr_offset_free_cached m' (part_virt_base part)
  = phdr_offset_free_cached m (part_virt_base part) ->
  (forall x, phdr_to_last_cached_entry m (part_virt_base part) < x ->
             m' x = m x) ->
  get_private_cached m' part item want_size
  = get_private_cached m part item want_size.
Proof.
  intros Hsz Hofc Hagree. unfold get_private_cached.
  unfold phdr_to_first_cached_entry, phdr_to_last_cached_entry in *.
  rewrite Hsz, Hofc.
  destruct (_ || _); [reflexivity|].
  rewrite (cached_scan_ext _ m m') by exact Hagree.
  destruct (cached_scan _ m _ _ _ item) as [[tr [x|x|x]]|] eqn:E;
    try reflexivity.
  apply cached_scan_found_gt in E.
  assert (Hf : forall y, x <= y < x + 12 -> m' y = m y)
    by (intros y Hy; apply Hagree; lia).
  pose proof (entry_fields_ext _ _ _ Hf) as (_ & _ & Es & Ep & _).
  unfold get_cached_item, cached_entry_to_item. rewrite Es, Ep. reflexivity.
Qed.

Lemma get_uncached_item_ext m m' part e want_size :
  (forall x, e <= x < e + 12 -> m' x = m x) ->
  get_uncached_item m' part e want_size = get_uncached_item m part e want_size.
Proof.
  intros H. apply entry_fields_ext in H as (_ & _ & Es & Ep & Eh).
  unfold get_uncached_item, uncached_entry_to_item. rewrite Es, Ep, Eh.
  reflexivity.
Qed.

(** What a successful allocation changes, seen from a lookup. *)
Lemma alloc_private_effect m part item size m' :
  qcom_smem_alloc_private m part item size = Some (Ok tt, m') ->
  size_fits part size ->
  let phdr := part_virt_base part in
  let first := phdr_to_first_uncached_entry phdr in
  let end_ := phdr_to_last_uncached_entry m phdr in
  exists tr hdr,
    uncached_scan (Z.to_nat (end_ - first)) m first end_ item
    = Some (tr, ScanEnd hdr)
    /\ first <= hdr /\ end_ <= hdr
    /\ (forall x, x < phdr + 12 \/ phdr + 16 <= x < hdr \/ hdr + 12 <= x ->
                  m' x = m x)
    /\ entry_canary m' hdr = SMEM_PRIVATE_CANARY
    /\ entry_item m' hdr = wrap16 item
    /\ uncached_entry_next m' hdr = hdr + private_alloc_size size
    /\ sizeof_private_entry <= private_alloc_size size
    /\ phdr_to_last_uncached_entry m' phdr = end_ + private_alloc_size size
    /\ phdr_to_last_cached_entry m' phdr = phdr_to_last_cached_entry m phdr
    /\ hdr + private_alloc_size size <= phdr_to_last_cached_entry m phdr
    /\ phdr_to_last_cached_entry m phdr <= phdr + part_size part.
Proof.
  intros Ha Hfits phdr first end_.
  pose proof (size_fits_valid _ _ Hfits) as Hvs.
  pose proof (alloc_private_ok_cursors _ _ _ _ _ Ha Hfits) as Hc.
  cbv zeta in Hc. fold phdr in Hc. destruct Hc as (Hu & Hcc & _).
  apply alloc_private_of_run in Ha as [tr Hrun].
  apply alloc_private_run_fits in Hrun; [|assumption]. cbv zeta in Hrun.
  fold phdr first end_ in Hrun.
  destruct Hrun as (hdr & Hscan & H32 & Hend & Hfit & Hcached & Hm').
  pose proof (private_alloc_size_valid size Hvs) as [Hasz Hal].
  pose proof (ALIGN_nonneg size 8) as Hnn.
  unfold valid_size in Hvs. unfold sizeof_private_entry in *.
  pose proof (run_steps_entry phdr hdr item size (private_alloc_size size) m
                ltac:(lia)) as He.
  cbv zeta in He. rewrite <- Hm' in He.
  destruct He as (Ecan & Eitem & Esize & _ & Ehdr).
  pose proof (load32_range m (phdr + 16)) as Rc.
  pose proof (load32_range m (phdr + 12)) as Ru.
  unfold phdr_to_last_cached_entry, phdr_to_last_uncached_entry,
    phdr_offset_free_cached, phdr_offset_free_uncached in *.
  unfold phdr_to_first_uncached_entry, sizeof_partition_header in first.
  exists tr, hdr. subst first end_.
  repeat split; try assumption; try lia.
  - intros x Hx. rewrite Hm'. apply run_steps_outside; lia.
  - unfold uncached_entry_next, sizeof_private_entry.
    rewrite Esize, Ehdr, Hasz.
    unfold wrap32. rewrite Z.mod_small; lia.
Qed.

Lemma alloc_private_keeps_others m part item size m' other want_size :
  qcom_smem_alloc_private m part item size = Some (Ok tt, m') ->
  size_fits part size ->
  wrap16 item <> other ->
  qcom_smem_get_private m' part other want_size
  = qcom_smem_get_private m part other want_size.
Proof.
  intros Ha Hvs Hne.
  pose proof (alloc_private_effect _ _ _ _ _ Ha Hvs) as He.
  cbv zeta in He.
  destruct He as (tr & hdr & Hscan & Hfirst & Hend & Hagree & Ecan & Eitem
                  & Enext & Hasz & Hend' & Hcached' & Hfit & Hcached).
  set (phdr := part_virt_base part) in *.
  set (first := phdr_to_first_uncached_entry phdr) in *.
  set (end_ := phdr_to_last_uncached_entry m phdr) in *.
  assert (Hf32 : first = phdr + 32) by reflexivity.
  unfold sizeof_private_entry in *.
  assert (Hother :=
            uncached_scan_other _ m m' end_
              (phdr_to_last_uncached_entry m' phdr) item other first tr hdr
              Hscan).
  destruct Hother as [(tr' & x & H1 & H2 & Hx1 & Hx2)
                     |(tr' & tr0 & h' & H1 & H2 & Hh')].
  { intros x Hx. apply Hagree. lia. }
  { lia. }
  { exact Ecan. }
  { rewrite Eitem. exact Hne. }
  { rewrite Enext. lia. }
  - unfold qcom_smem_get_private, qcom_smem_get_private_run.
    fold phdr first end_.
    destruct (uncached_scan_total
                (Z.to_nat (phdr_to_last_uncached_entry m' phdr - first))
                m' (phdr_to_last_uncached_entry m' phdr) other first
                ltac:(lia)) as (tr2 & r2 & E2).
    rewrite E2, H2.
    pose proof (uncached_scan_fuel_indep _ _ _ _ _ _ _ _ E2 H1) as Eq.
    injection Eq as -> ->. cbn [option_map snd]. f_equal.
    apply get_uncached_item_ext. intros y Hy. apply Hagree.
    unfold sizeof_private_entry in *. lia.
  - unfold qcom_smem_get_private, qcom_smem_get_private_run.
    fold phdr first end_.
    destruct (uncached_scan_total
                (Z.to_nat (phdr_to_last_uncached_entry m' phdr - first))
                m' (phdr_to_last_uncached_entry m' phdr) other first
                ltac:(lia)) as (tr2 & r2 & E2).
    rewrite E2, H2.
    pose proof (uncached_scan_fuel_indep _ _ _ _ _ _ _ _ E2 H1) as Eq.
    injection Eq as -> ->.
    destruct (Z.gtb_spec hdr (phdr + part_size part)); [lia|].
    destruct (Z.gtb_spec h' (phdr + part_size part));
      [destruct Hh'; lia|].
    rewrite (get_private_cached_ext m m').
    + destruct (get_private_cached m part other want_size) as [[t r]|];
        reflexivity.
    + apply load32_ext. intros y Hy. apply Hagree. fold phdr. lia.
    + fold phdr. unfold phdr_to_last_cached_entry in Hcached'.
      lia.
    + fold phdr. intros y Hy. apply Hagree. lia.
Qed.

Lemma get_global_regions_ext n smem m m' entry aux_base want_size : forall i,
  gentry_size m' entry = gentry_size m entry ->
  gentry_offset m' entry = gentry_offset m entry ->
  get_global_regions n smem m' i entry aux_base want_size
  = get_global_regions n smem m i entry aux_base want_size.
Proof.
  intros i Hs Ho. revert i.
  induction n as [|n IH]; intros i; cbn [get_global_regions].
  - reflexivity.
  - rewrite Hs, Ho, IH. reflexivity.
Qed.

Lemma alloc_global_keeps_others smem m item size m' other want_size :
  qcom_smem_alloc_global smem m item size = (Ok tt, m') ->
  0 <= item -> 0 <= other -> other <> item ->
  qcom_smem_get_global smem m' other want_size
  = qcom_smem_get_global smem m other want_size.
Proof.
  intros H Hi Ho Hne. unfold qcom_smem_alloc_global in H.
  set (header := region_virt_base (region_of smem 0)) in *.
  destruct (negb _); [discriminate|].
  destruct (_ >? _); [discriminate|].
  injection H as Hm.
  assert (Hagree : forall a,
             header_toc header other <= a < header_toc header other + 16 ->
             m' a = m a).
  { intros a Ha. subst m'. unfold header_toc in *.
    rewrite !le32_add_cpu_outside by lia.
    rewrite !store32_outside by lia. reflexivity. }
  unfold qcom_smem_get_global. fold header.
  assert (Ea : gentry_allocated m' (header_toc header other)
               = gentry_allocated m (header_toc header other))
    by (apply load32_ext; intros a Ha; apply Hagree; lia).
  assert (Eo : gentry_offset m' (header_toc header other)
               = gentry_offset m (header_toc header other))
    by (apply load32_ext; intros a Ha; apply Hagree; lia).
  assert (Es : gentry_size m' (header_toc header other)
               = gentry_size m (header_toc header other))
    by (apply load32_ext; intros a Ha; apply Hagree; lia).
  assert (Eb : gentry_aux_base m' (header_toc header other)
               = gentry_aux_base m (header_toc header other))
    by (apply load32_ext; intros a Ha; apply Hagree; lia).
  rewrite Ea, Eb.
  destruct (_ =? 0); [reflexivity|].
  apply get_global_regions_ext; assumption.
Qed.

(** X6.  A successful [qcom_smem_alloc] of a size that fits (in a
    partition, a record of that size placed at the very end of the
    partition would still end 16 GiB or more below [2^64]) does not
    disturb the other items of the same host: for every item number other
    than the one allocated, [qcom_smem_get] returns after the allocation
    exactly what it returned before, be it the pointer and the size of an
    item in either list of the partition or in the global heap, or an
    error. *)
Theorem alloc_keeps_other_items smem m host item size m' other want_size :
  qcom_smem_alloc (Some smem) m host item size = Some (Ok tt, m') ->
  owner_size_fits smem host size ->
  item_count smem <= 65536 ->
  0 <= other ->
  other <> item ->
  qcom_smem_get (Some smem) m' host other want_size
  = qcom_smem_get (Some smem) m host other want_size.
Proof.
  intros Ha Hvs Hic Ho Hne.
  apply alloc_accepts_item in Ha as [Hitem Ha].
  unfold SMEM_ITEM_LAST_FIXED in Hitem.
  unfold qcom_smem_get. unfold owner_size_fits in Hvs.
  destruct (other >=? item_count smem); [reflexivity|].
  destruct (select_partition smem host) as [part|].
  - apply (alloc_private_keeps_others _ _ _ _ _ _ _ Ha Hvs).
    unfold wrap16. rewrite Z.mod_small by lia. congruence.
  - f_equal. apply (alloc_global_keeps_others _ _ _ _ _ _ _ Ha); lia.
Qed.

Lemma alloc_keeps_other_items_witness :
  qcom_smem_alloc (Some part_smem) part_mem 1 100 20
  = Some (Ok tt, part_mem_after)
  /\ owner_size_fits part_smem 1 20
  /\ item_count part_smem <= 65536
  /\ 0 <= 10
  /\ 10 <> 100
  /\ qcom_smem_get (Some part_smem) part_mem_after 1 10 true
     = qcom_smem_get (Some part_smem) part_mem 1 10 true.
Proof.
  assert (H1 : qcom_smem_alloc (Some part_smem) part_mem 1 100 20
               = Some (Ok tt, part_mem_after)) by (vm_compute; reflexivity).
  assert (H2 : owner_size_fits part_smem 1 20).
  { unfold owner_size_fits. rewrite demo_part_selected.
    apply demo_part_fits. change (2 ^ 32) with 4294967296. lia. }
  assert (H3 : item_count part_smem <= 65536)
    by (apply Z.leb_le; vm_compute; reflexivity).
  assert (H4 : 0 <= 10) by lia.
  assert (H5 : 10 <> 100) by lia.
  exact (conj H1 (conj H2 (conj H3 (conj H4 (conj H5
           (alloc_keeps_other_items part_smem part_mem 1 100 20
              part_mem_after 10 true H1 H2 H3 H4 H5)))))).
Defined.

(** Item 10 lives in the backward list of the sample partition; item 9 in
    the forward list.  Both are where they were after the allocation. *)
Example other_items_after_alloc :
  qcom_smem_get (Some part_smem) part_mem_after 1 10 true
  = Some (Ok (86192, Some 16))
  /\ qcom_smem_get (Some part_smem) part_mem_after 1 9 true
     = Some (Ok (86064, Some 5)).
Proof. split; vm_compute; reflexivity. Qed.

(** ** Sequences of allocations *)

Lemma alloc_private_err_mem m part item size e m' :
  qcom_smem_alloc_private m part item size = Some (Err e, m') -> m' = m.
Proof.
  intros H. apply alloc_private_of_run in H as [tr H].
  eapply alloc_private_run_err. exact H.
Qed.

(** X7.  Allocation of sizes that fit never damages the forward list.  A
    size fits when a record of that size placed at the very end of the
    partition would still end 16 GiB or more below [2^64].  After any
    sequence of [qcom_smem_alloc_private] calls with such sizes, whether
    they succeed or fail, a list that tiled the bytes between the
    partition header and the forward cursor still does. *)
Theorem alloc_private_seq_keeps_list_ok part reqs : forall m m',
  uncached_list_ok m (part_virt_base part) = true ->
  Forall (fun r => size_fits part (snd r)) reqs ->
  alloc_private_seq m part reqs = Some m' ->
  uncached_list_ok m' (part_virt_base part) = true.
Proof.
  induction reqs as [|[item size] reqs IH]; intros m m' Hwf Hsz H;
    cbn [alloc_private_seq] in H.
  - injection H as <-. exact Hwf.
  - inversion Hsz as [|? ? Hs Hrest]; subst. cbn [snd] in Hs.
    destruct (qcom_smem_alloc_private m part item size) as [[r m1]|] eqn:Ea;
      [|discriminate].
    apply (IH m1 m'); [|exact Hrest|exact H].
    destruct r as [[]|e].
    + eapply alloc_private_keeps_list_ok; eassumption.
    + apply alloc_private_err_mem in Ea. subst m1. exact Hwf.
Qed.

Lemma alloc_private_seq_keeps_list_ok_witness :
  uncached_list_ok part_mem (part_virt_base demo_part) = true
  /\ Forall (fun r => size_fits demo_part (snd r)) demo_requests
  /\ alloc_private_seq part_mem demo_part demo_requests = Some part_mem_seq
  /\ uncached_list_ok part_mem_seq (part_virt_base demo_part) = true.
Proof.
  assert (H1 : uncached_list_ok part_mem (part_virt_base demo_part) = true)
    by (vm_compute; reflexivity).
  assert (H2 : Forall (fun r => size_fits demo_part (snd r)) demo_requests)
    by (repeat constructor; apply demo_part_fits;
        change (2 ^ 32) with 4294967296; cbn; lia).
  assert (H3 : alloc_private_seq part_mem demo_part demo_requests
               = Some part_mem_seq) by (vm_compute; reflexivity).
  exact (conj H1 (conj H2 (conj H3
           (alloc_private_seq_keeps_list_ok demo_part demo_requests
              part_mem part_mem_seq H1 H2 H3)))).
Defined.

(** An item the forward walk finds is found at the same entry after an
    allocation for any item, and looked up with the same result. *)
Lemma found_item_survives_alloc m part item tr x i s r m' want_size :
  let phdr := part_virt_base part in
  let first := phdr_to_first_uncached_entry phdr in
  uncached_scan (Z.to_nat (phdr_to_last_uncached_entry m phdr - first))
                m first (phdr_to_last_uncached_entry m phdr) item
  = Some (tr, ScanFound x) ->
  qcom_smem_alloc_private m part i s = Some (r, m') ->
  size_fits part s ->
  wrap16 i = i ->
  (exists tr',
      uncached_scan (Z.to_nat (phdr_to_last_uncached_entry m' phdr - first))
                    m' first (phdr_to_last_uncached_entry m' phdr) item
      = Some (tr', ScanFound x))
  /\ qcom_smem_get_private m' part item want_size
     = qcom_smem_get_private m part item want_size.
Proof.
  intros phdr first Hfound Ha Hvs Hi.
  destruct r as [[]|e].
  - pose proof (alloc_private_effect _ _ _ _ _ Ha Hvs) as He.
    cbv zeta in He. fold phdr first in He.
    destruct He as (tra & hdr & Hscan & Hfirst & Hend & Hagree & Ecan & Eitem
                    & Enext & Hasz & Hend' & Hcached' & Hfit & Hcached).
    destruct (Z.eq_dec i item) as [->|Hne]; [congruence|].
    split.
    + assert (Hother :=
                uncached_scan_other _ m m' (phdr_to_last_uncached_entry m phdr)
                  (phdr_to_last_uncached_entry m' phdr) i item first tra hdr
                  Hscan).
      assert (Hf32 : first = phdr + 32) by reflexivity.
      unfold sizeof_private_entry in *.
      destruct Hother as [(tr' & y & H1 & H2 & _)
                         |(tr' & tr0 & h' & _ & H2 & _)].
      { intros y Hy. apply Hagree. lia. }
      { lia. }
      { exact Ecan. }
      { rewrite Eitem. congruence. }
      { rewrite Enext. lia. }
      * assert (y = x) as -> by congruence.
        destruct (uncached_scan_total
                    (Z.to_nat (phdr_to_last_uncached_entry m' phdr - first))
                    m' (phdr_to_last_uncached_entry m' phdr) item first
                    ltac:(lia)) as (tr2 & r2 & E2).
        pose proof (uncached_scan_fuel_indep _ _ _ _ _ _ _ _ E2 H1) as Eq.
        injection Eq as -> ->. exists tr'. exact E2.
      * congruence.
    + apply (alloc_private_keeps_others _ _ _ _ _ _ _ Ha Hvs). congruence.
  - apply alloc_private_err_mem in Ha. subst m'. split; [|reflexivity].
    exists tr. exact Hfound.
Qed.

Lemma found_item_survives_seq part item x want_size reqs : forall m m' tr,
  let phdr := part_virt_base part in
  let first := phdr_to_first_uncached_entry phdr in
  uncached_scan (Z.to_nat (phdr_to_last_uncached_entry m phdr - first))
                m first (phdr_to_last_uncached_entry m phdr) item
  = Some (tr, ScanFound x) ->
  Forall (fun r => wrap16 (fst r) = fst r /\ size_fits part (snd r)) reqs ->
  alloc_private_seq m part reqs = Some m' ->
  qcom_smem_get_private m' part item want_size
  = qcom_smem_get_private m part item want_size.
Proof.
  induction reqs as [|[i s] reqs IH]; intros m m' tr phdr first Hfound Hall H;
    cbn [alloc_private_seq] in H.
  - injection H as <-. reflexivity.
  - inversion Hall as [|? ? [Hi Hs] Hrest]; subst. cbn [fst snd] in Hi, Hs.
    destruct (qcom_smem_alloc_private m part i s) as [[r m1]|] eqn:Ea;
      [|discriminate].
    destruct (found_item_survives_alloc m part item tr x i s r m1 want_size
                Hfound Ea Hs Hi) as [[tr1 Hfound1] Hget].
    rewrite <- Hget. eapply IH; eassumption.
Qed.

(** X8.  An item stays where it was allocated, as long as the sizes asked
    for fit (a record of that size placed at the very end of the partition
    would still end 16 GiB or more below [2^64]): after a successful
    [qcom_smem_alloc_private] on a well-formed list, and then any sequence of
    further allocations in the same partition (16-bit item numbers, fitting
    sizes; each may succeed or fail), [qcom_smem_get_private] still returns
    the item with the size it was allocated with, inside the partition. *)
Theorem allocated_item_survives m part item size m1 reqs m2 :
  qcom_smem_alloc_private m part item size = Some (Ok tt, m1) ->
  uncached_list_ok m (part_virt_base part) = true ->
  size_fits part size ->
  wrap16 item = item ->
  Forall (fun r => wrap16 (fst r) = fst r /\ size_fits part (snd r)) reqs ->
  alloc_private_seq m1 part reqs = Some m2 ->
  exists p,
    qcom_smem_get_private m2 part item true = Some (Ok (p, Some size))
    /\ qcom_smem_get_private m1 part item true = Some (Ok (p, Some size))
    /\ part_virt_base part <= p
    /\ p + size <= part_virt_base part + part_size part.
Proof.
  intros Ha Hwf Hvs Hi Hall Hseq.
  destruct (alloc_private_then_get _ _ _ _ _ Ha Hwf Hvs Hi)
    as (p & Hget & Hlo & Hhi).
  pose proof (alloc_private_then_scan _ _ _ _ _ Ha Hwf Hvs Hi) as Hs.
  cbv zeta in Hs. destruct Hs as (tr & Hfound & _).
  exists p. repeat split; try assumption.
  rewrite <- Hget.
  eapply found_item_survives_seq; eassumption.
Qed.

Lemma allocated_item_survives_witness :
  qcom_smem_alloc_private part_mem demo_part 11 24
  = Some (Ok tt, mem_after_first_request)
  /\ uncached_list_ok part_mem (part_virt_base demo_part) = true
  /\ size_fits demo_part 24
  /\ wrap16 11 = 11
  /\ Forall (fun r => wrap16 (fst r) = fst r /\ size_fits demo_part (snd r))
            [(12, 8); (11, 8); (13, 4096)]
  /\ alloc_private_seq mem_after_first_request demo_part
                       [(12, 8); (11, 8); (13, 4096)]
     = Some part_mem_seq
  /\ exists p,
       qcom_smem_get_private part_mem_seq demo_part 11 true
       = Some (Ok (p, Some 24))
       /\ qcom_smem_get_private mem_after_first_request demo_part 11 true
          = Some (Ok (p, Some 24))
       /\ part_virt_base demo_part <= p
       /\ p + 24 <= part_virt_base demo_part + part_size demo_part.
Proof.
  assert (H1 : qcom_smem_alloc_private part_mem demo_part 11 24
               = Some (Ok tt, mem_after_first_request))
    by (vm_compute; reflexivity).
  assert (H2 : uncached_list_ok part_mem (part_virt_base demo_part) = true)
    by (vm_compute; reflexivity).
  assert (H3 : size_fits demo_part 24)
    by (apply demo_part_fits; change (2 ^ 32) with 4294967296; lia).
  assert (H4 : wrap16 11 = 11) by reflexivity.
  assert (H5 : Forall (fun r => wrap16 (fst r) = fst r
                                /\ size_fits demo_part (snd r))
                      [(12, 8); (11, 8); (13, 4096)])
    by (repeat constructor; try apply demo_part_fits;
        change (2 ^ 32) with 4294967296; cbn; lia).
  assert (H6 : alloc_private_seq mem_after_first_request demo_part
                                 [(12, 8); (11, 8); (13, 4096)]
               = Some part_mem_seq) by (vm_compute; reflexivity).
  exact (conj H1 (conj H2 (conj H3 (conj H4 (conj H5 (conj H6
           (allocated_item_survives part_mem demo_part 11 24
              mem_after_first_request [(12, 8); (11, 8); (13, 4096)]
              part_mem_seq H1 H2 H3 H4 H5 H6))))))).
Defined.

(** ** When allocation succeeds *)

Lemma get_private_enoent m part item want_size :
  qcom_smem_get_private m part item want_size = Some (Err ENOENT) ->
  let phdr := part_virt_base part in
  exists tr h,
    uncached_scan
      (Z.to_nat (phdr_to_last_uncached_entry m phdr
                 - phdr_to_first_uncached_entry phdr))
      m (phdr_to_first_uncached_entry phdr)
      (phdr_to_last_uncached_entry m phdr) item
    = Some (tr, ScanEnd h)
    /\ h <= phdr + part_size part
    /\ phdr_to_last_cached_entry m phdr <= phdr + part_size part.
Proof.
  intros H phdr.
  unfold qcom_smem_get_private, qcom_smem_get_private_run in H.
  fold phdr in H.
  destruct (uncached_scan _ m _ _ item) as [[tr [x|x|x]]|] eqn:Es;
    cbn [option_map snd] in H; try discriminate.
  - unfold get_uncached_item in H.
    destruct (_ && _); [discriminate|].
    destruct (_ >? _); discriminate.
  - destruct (Z.gtb_spec x (phdr + part_size part)) as [|Hle];
      [discriminate|].
    exists tr, x. split; [reflexivity|]. split; [exact Hle|].
    unfold get_private_cached in H. fold phdr in H.
    destruct (Z.ltb_spec (phdr_to_first_cached_entry m phdr (part_cacheline part))
                         phdr); [discriminate|].
    destruct (Z.gtb_spec (phdr_to_last_cached_entry m phdr)
                         (phdr + part_size part)); [discriminate|].
    lia.
Qed.

(** X9.  Allocation succeeds whenever there is room: if the forward list of
    the partition is well formed, [qcom_smem_get_private] reports the item
    as not found and the size fits (a record of that size placed at the very
    end of the partition would still end 16 GiB or more below [2^64]), then
    [qcom_smem_alloc_private] returns 0 exactly when the record,
    [sizeof(struct smem_private_entry) + ALIGN(size, 8)] bytes, fits between
    the two cursors, and [-ENOSPC] with the memory untouched when it does
    not. *)
Theorem alloc_succeeds_when_room m part item size want_size :
  qcom_smem_get_private m part item want_size = Some (Err ENOENT) ->
  uncached_list_ok m (part_virt_base part) = true ->
  size_fits part size ->
  let ofu := phdr_offset_free_uncached m (part_virt_base part) in
  let ofc := phdr_offset_free_cached m (part_virt_base part) in
  (ofu + private_alloc_size size <= ofc ->
   exists m', qcom_smem_alloc_private m part item size = Some (Ok tt, m'))
  /\ (ofc < ofu + private_alloc_size size ->
      qcom_smem_alloc_private m part item size = Some (Err ENOSPC, m)).
Proof.
  intros Hget Hwf Hfits ofu ofc.
  apply get_private_enoent in Hget. cbv zeta in Hget.
  destruct Hget as (tr & h & Hscan & Hh & Hc).
  assert (h = phdr_to_last_uncached_entry m (part_virt_base part)) as ->.
  { eapply uncached_chain_scan_end; [exact Hwf|exact Hscan]. }
  pose proof (first_uncached_le_scan_end _ _ _ _ _ _ _ Hscan) as [H32 _].
  unfold qcom_smem_alloc_private, qcom_smem_alloc_private_run.
  rewrite Hscan.
  rewrite (size_fits_no_wrap part size _ Hfits) by lia.
  unfold phdr_to_last_uncached_entry, phdr_to_last_cached_entry in *.
  fold ofu ofc in Hh, Hc |- *.
  set (phdr := part_virt_base part) in *.
  destruct (Z.gtb_spec (phdr + ofu) (phdr + part_size part)); [lia|].
  destruct (Z.gtb_spec (phdr + ofc) (phdr + part_size part)); [lia|].
  cbn [orb].
  split; intros Hroom.
  - destruct (Z.gtb_spec (phdr + ofu + private_alloc_size size) (phdr + ofc));
      [lia|].
    eexists. reflexivity.
  - destruct (Z.gtb_spec (phdr + ofu + private_alloc_size size) (phdr + ofc));
      [|lia].
    reflexivity.
Qed.

Lemma alloc_succeeds_when_room_witness :
  qcom_smem_get_private part_mem demo_part 11 true = Some (Err ENOENT)
  /\ uncached_list_ok part_mem (part_virt_base demo_part) = true
  /\ size_fits demo_part 24
  /\ size_fits demo_part 200
  /\ (exists m', qcom_smem_alloc_private part_mem demo_part 11 24
                 = Some (Ok tt, m'))
  /\ qcom_smem_alloc_private part_mem demo_part 11 200
     = Some (Err ENOSPC, part_mem).
Proof.
  assert (H1 : qcom_smem_get_private part_mem demo_part 11 true
               = Some (Err ENOENT)) by (vm_compute; reflexivity).
  assert (H2 : uncached_list_ok part_mem (part_virt_base demo_part) = true)
    by (vm_compute; reflexivity).
  assert (H3 : size_fits demo_part 24)
    by (apply demo_part_fits; change (2 ^ 32) with 4294967296; lia).
  assert (H4 : size_fits demo_part 200)
    by (apply demo_part_fits; change (2 ^ 32) with 4294967296; lia).
  assert (H5 : phdr_offset_free_uncached part_mem (part_virt_base demo_part)
               + private_alloc_size 24
               <= phdr_offset_free_cached part_mem (part_virt_base demo_part))
    by (apply Z.leb_le; vm_compute; reflexivity).
  assert (H6 : phdr_offset_free_cached part_mem (part_virt_base demo_part)
               < phdr_offset_free_uncached part_mem (part_virt_base demo_part)
                 + private_alloc_size 200)
    by (apply Z.ltb_lt; vm_compute; reflexivity).
  exact (conj H1 (conj H2 (conj H3 (conj H4
           (conj (proj1 (alloc_succeeds_when_room part_mem demo_part 11 24 true
                           H1 H2 H3) H5)
                 (proj2 (alloc_succeeds_when_room part_mem demo_part 11 200 true
                           H1 H2 H4) H6)))))).
Defined.

(** ** A corrupted canary stops every walk that reaches it *)

Lemma uncached_scan_trace_ge fuel m end_ item : forall e0 tr r e,
  uncached_scan fuel m e0 end_ item = Some (tr, r) -> In e tr -> e0 <= e.
Proof.
  induction fuel as [|fuel IH]; intros e0 tr r e H Hin.
  - cbn [uncached_scan] in H. destruct (e0 <? end_); [discriminate|].
    injection H as <- _. contradiction.
  - rewrite uncached_scan_S in H.
    destruct (e0 <? end_); [|injection H as <- _; contradiction].
    destruct (negb _); [injection H as <- _; destruct Hin as [<-|[]]; lia|].
    destruct (_ =? item); [injection H as <- _; destruct Hin as [<-|[]]; lia|].
    destruct (uncached_scan fuel m _ end_ item) as [[tr1 r1]|] eqn:E;
      [|discriminate].
    injection H as <- _. destruct Hin as [<-|Hin]; [lia|].
    apply (IH _ _ _ _ E) in Hin.
    pose proof (uncached_entry_next_ge m e0).
    unfold sizeof_private_entry in *. lia.
Qed.

Lemma uncached_scan_corrupted fuel m m' end_ item e : forall e0 tr r,
  uncached_scan fuel m e0 end_ item = Some (tr, r) ->
  In e tr ->
  entry_canary m' e <> SMEM_PRIVATE_CANARY ->
  (forall x, x < e -> m' x = m x) ->
  exists tr', uncached_scan fuel m' e0 end_ item = Some (tr', ScanBadCanary e).
Proof.
  induction fuel as [|fuel IH]; intros e0 tr r H Hin Hbad Hagree.
  - cbn [uncached_scan] in H. destruct (e0 <? end_); [discriminate|].
    injection H as <- _. contradiction.
  - rewrite uncached_scan_S in H. rewrite uncached_scan_S.
    destruct (e0 <? end_); [|injection H as <- _; contradiction].
    destruct (Z.eq_dec e0 e) as [->|Hne].
    + destruct (Z.eqb_spec (entry_canary m' e) SMEM_PRIVATE_CANARY);
        [contradiction|].
      cbn [negb]. eexists. reflexivity.
    + destruct (Z.eqb_spec (entry_canary m e0) SMEM_PRIVATE_CANARY) as [Hc|];
        [|injection H as <- _; destruct Hin as [<-|[]]; congruence].
      cbn [negb] in H.
      destruct (Z.eqb_spec (entry_item m e0) item) as [|Hi];
        [injection H as <- _; destruct Hin as [<-|[]]; congruence|].
      destruct (uncached_scan fuel m _ end_ item) as [[tr1 r1]|] eqn:E;
        [|discriminate].
      injection H as <- _. destruct Hin as [<-|Hin]; [congruence|].
      pose proof (uncached_scan_trace_ge _ _ _ _ _ _ _ _ E Hin) as Hge.
      pose proof (uncached_entry_next_ge m e0) as Hn.
      unfold sizeof_private_entry in Hn.
      assert (Hf : forall x, e0 <= x < e0 + 12 -> m' x = m x)
        by (intros x Hx; apply Hagree; lia).
      pose proof (entry_fields_ext _ _ _ Hf) as (Ec & Ei & _).
      rewrite (uncached_entry_next_ext _ _ _ Hf), Ec, Ei, Hc, Z.eqb_refl.
      cbn [negb].
      destruct (Z.eqb_spec (entry_item m e0) item); [contradiction|].
      destruct (IH _ _ _ E Hin Hbad Hagree) as [tr' ->].
      eexists. reflexivity.
Qed.

(** X10.  Corruption of a record is caught by every walk that reaches it.
    Take a record the forward walk of [qcom_smem_alloc_private] and
    [qcom_smem_get_private] for [item] visits, and overwrite either byte of
    its canary with a value other than [0xa5].  Then the lookup of [item]
    returns [-EINVAL], and so does its allocation with any size, leaving the
    memory as it is. *)
Theorem corrupted_record_is_caught m part item e k b tr r want_size size :
  let phdr := part_virt_base part in
  uncached_scan
    (Z.to_nat (phdr_to_last_uncached_entry m phdr
               - phdr_to_first_uncached_entry phdr))
    m (phdr_to_first_uncached_entry phdr)
    (phdr_to_last_uncached_entry m phdr) item
  = Some (tr, r) ->
  In e tr ->
  k = 0 \/ k = 1 ->
  b mod 256 <> 0xa5 ->
  let m' := store8 m (e + k) b in
  qcom_smem_get_private m' part item want_size = Some (Err EINVAL)
  /\ qcom_smem_alloc_private m' part item size = Some (Err EINVAL, m').
Proof.
  intros phdr Hscan Hin Hk Hb m'.
  pose proof (uncached_scan_trace_ge _ _ _ _ _ _ _ _ Hscan Hin) as Hge.
  unfold phdr_to_first_uncached_entry, sizeof_partition_header in Hge.
  assert (Hagree : forall x, x < e -> m' x = m x).
  { intros x Hx. unfold m', store8.
    destruct (Z.eqb_spec x (e + k)); [lia|reflexivity]. }
  assert (Hbad : entry_canary m' e <> SMEM_PRIVATE_CANARY)
    by (apply canary_byte_flip; assumption).
  assert (Hend : phdr_to_last_uncached_entry m' phdr
                 = phdr_to_last_uncached_entry m phdr).
  { unfold phdr_to_last_uncached_entry, phdr_offset_free_uncached.
    f_equal. apply load32_ext. intros x Hx. apply Hagree. lia. }
  destruct (uncached_scan_corrupted _ m m' _ item e _ _ _ Hscan Hin Hbad Hagree)
    as [tr' Hbadscan].
  split.
  - unfold qcom_smem_get_private, qcom_smem_get_private_run.
    fold phdr. rewrite Hend, Hbadscan. reflexivity.
  - unfold qcom_smem_alloc_private, qcom_smem_alloc_private_run.
    fold phdr. rewrite Hend, Hbadscan.
    destruct (_ || _); reflexivity.
Qed.

Lemma corrupted_record_is_caught_witness :
  uncached_scan
    (Z.to_nat (phdr_to_last_uncached_entry part_mem (part_virt_base demo_part)
               - phdr_to_first_uncached_entry (part_virt_base demo_part)))
    part_mem (phdr_to_first_uncached_entry (part_virt_base demo_part))
    (phdr_to_last_uncached_entry part_mem (part_virt_base demo_part)) 10
  = Some ([86048], ScanEnd 86072)
  /\ In 86048 [86048]
  /\ (1 = 0 \/ 1 = 1)
  /\ 0 mod 256 <> 0xa5
  /\ qcom_smem_get_private (store8 part_mem (86048 + 1) 0) demo_part 10 true
     = Some (Err EINVAL)
  /\ qcom_smem_alloc_private (store8 part_mem (86048 + 1) 0) demo_part 10 8
     = Some (Err EINVAL, store8 part_mem (86048 + 1) 0).
Proof.
  assert (H1 : uncached_scan
                 (Z.to_nat (phdr_to_last_uncached_entry part_mem
                              (part_virt_base demo_part)
                            - phdr_to_first_uncached_entry
                                (part_virt_base demo_part)))
                 part_mem
                 (phdr_to_first_uncached_entry (part_virt_base demo_part))
                 (phdr_to_last_uncached_entry part_mem
                    (part_virt_base demo_part)) 10
               = Some ([86048], ScanEnd 86072)) by (vm_compute; reflexivity).
  assert (H2 : In 86048 [86048]) by (left; reflexivity).
  assert (H3 : 1 = 0 \/ 1 = 1) by (right; reflexivity).
  assert (H4 : 0 mod 256 <> 0xa5) by (cbn; lia).
  exact (conj H1 (conj H2 (conj H3 (conj H4
           (corrupted_record_is_caught part_mem demo_part 10 86048 1 0
              [86048] (ScanEnd 86072) true 8 H1 H2 H3 H4))))).
Defined.

(** ** Tables the enumeration refuses *)

(** A table entry for a remote host that is out of range or already has a
    partition ends the enumeration with [-EINVAL]. *)
Lemma enumerate_loop_taken n m ptable local_host j h : forall smem i,
  i <= j < i + Z.of_nat n ->
  length (partitions smem) = Z.to_nat SMEM_HOST_COUNT ->
  pentry_offset m (ptable_entry ptable j) <> 0 ->
  pentry_size m (ptable_entry ptable j) <> 0 ->
  remote_host_of (pentry_host0 m (ptable_entry ptable j))
                 (pentry_host1 m (ptable_entry ptable j)) local_host
  = Some h ->
  SMEM_HOST_COUNT <= h \/ part_virt_base (partition_of smem h) <> 0 ->
  fst (enumerate_loop n smem m ptable i local_host) = Err EINVAL.
Proof.
  induction n as [|n IH]; intros smem i Hj Hlen Ho Hs Hr Htaken; [lia|].
  cbn [enumerate_loop].
  destruct (Z.eq_dec i j) as [->|Hne].
  - destruct (Z.eqb_spec (pentry_offset m (ptable_entry ptable j)) 0);
      [contradiction|].
    destruct (Z.eqb_spec (pentry_size m (ptable_entry ptable j)) 0);
      [contradiction|].
    rewrite Hr.
    destruct (Z.geb_spec h SMEM_HOST_COUNT) as [|Hlt]; [reflexivity|].
    destruct Htaken as [|Hreg]; [lia|].
    destruct (Z.eqb_spec (part_virt_base (partition_of smem h)) 0);
      [contradiction|].
    reflexivity.
  - assert (Hnext : forall s,
               length (partitions s) = Z.to_nat SMEM_HOST_COUNT ->
               SMEM_HOST_COUNT <= h \/ part_virt_base (partition_of s h) <> 0 ->
               fst (enumerate_loop n s m ptable (i + 1) local_host)
               = Err EINVAL).
    { intros s Hl Ht. apply IH; try assumption. lia. }
    destruct (pentry_offset m (ptable_entry ptable i) =? 0);
      [apply Hnext; assumption|].
    destruct (pentry_size m (ptable_entry ptable i) =? 0);
      [apply Hnext; assumption|].
    destruct (remote_host_of (pentry_host0 m (ptable_entry ptable i))
                (pentry_host1 m (ptable_entry ptable i)) local_host)
      as [remote|] eqn:Er; [|apply Hnext; assumption].
    pose proof (remote_host_of_range _ _ _ _ Er) as Hrr.
    destruct (Z.geb_spec remote SMEM_HOST_COUNT) as [|Hlt]; [reflexivity|].
    destruct (Z.eqb_spec (part_virt_base (partition_of smem remote)) 0)
      as [Hfree|]; [|reflexivity].
    cbn [negb].
    destruct (qcom_smem_partition_header smem m (ptable_entry ptable i) _ _)
      as [header|]; [|reflexivity].
    apply Hnext.
    + cbn [with_partition partitions]. rewrite list_set_length. exact Hlen.
    + destruct Htaken as [Hbig|Hreg]; [left; exact Hbig|right].
      pose proof (remote_host_of_range _ _ _ _ Hr) as Hhr.
      rewrite partition_of_with_partition by lia.
      destruct (Z.eqb_spec remote h) as [->|]; [contradiction|exact Hreg].
Qed.

Lemma enumerate_loop_twice n m ptable local_host j1 j2 h : forall smem i,
  i <= j1 -> j1 < j2 < i + Z.of_nat n ->
  length (partitions smem) = Z.to_nat SMEM_HOST_COUNT ->
  pentry_offset m (ptable_entry ptable j1) <> 0 ->
  pentry_size m (ptable_entry ptable j1) <> 0 ->
  remote_host_of (pentry_host0 m (ptable_entry ptable j1))
                 (pentry_host1 m (ptable_entry ptable j1)) local_host
  = Some h ->
  pentry_offset m (ptable_entry ptable j2) <> 0 ->
  pentry_size m (ptable_entry ptable j2) <> 0 ->
  remote_host_of (pentry_host0 m (ptable_entry ptable j2))
                 (pentry_host1 m (ptable_entry ptable j2)) local_host
  = Some h ->
  fst (enumerate_loop n smem m ptable i local_host) = Err EINVAL.
Proof.
  induction n as [|n IH];
    intros smem i Hi Hj Hlen Ho1 Hs1 Hr1 Ho2 Hs2 Hr2; [lia|].
  pose proof (remote_host_of_range _ _ _ _ Hr1) as Hhr.
  cbn [enumerate_loop].
  destruct (Z.eq_dec i j1) as [->|Hne].
  - destruct (Z.eqb_spec (pentry_offset m (ptable_entry ptable j1)) 0);
      [contradiction|].
    destruct (Z.eqb_spec (pentry_size m (ptable_entry ptable j1)) 0);
      [contradiction|].
    rewrite Hr1.
    destruct (Z.geb_spec h SMEM_HOST_COUNT) as [|Hlt]; [reflexivity|].
    destruct (negb _); [reflexivity|].
    destruct (qcom_smem_partition_header smem m (ptable_entry ptable j1) _ _)
      as [header|] eqn:Ev; [|reflexivity].
    apply (enumerate_loop_taken n m ptable local_host j2 h); try assumption.
    + lia.
    + cbn [with_partition partitions]. rewrite list_set_length. exact Hlen.
    + right. rewrite partition_of_with_partition by lia.
      rewrite Z.eqb_refl. cbn [partition_from_entry part_virt_base].
      apply partition_header_some in Ev. tauto.
  - assert (Hnext : forall s,
               length (partitions s) = Z.to_nat SMEM_HOST_COUNT ->
               fst (enumerate_loop n s m ptable (i + 1) local_host)
               = Err EINVAL).
    { intros s Hl. apply IH; try assumption; lia. }
    destruct (pentry_offset m (ptable_entry ptable i) =? 0);
      [apply Hnext; assumption|].
    destruct (pentry_size m (ptable_entry ptable i) =? 0);
      [apply Hnext; assumption|].
    destruct (remote_host_of (pentry_host0 m (ptable_entry ptable i))
                (pentry_host1 m (ptable_entry ptable i)) local_host)
      as [remote|] eqn:Er; [|apply Hnext; assumption].
    destruct (remote >=? SMEM_HOST_COUNT); [reflexivity|].
    destruct (negb _); [reflexivity|].
    destruct (qcom_smem_partition_header smem m (ptable_entry ptable i) _ _)
      as [header|]; [|reflexivity].
    apply Hnext.
    cbn [with_partition partitions]. rewrite list_set_length. exact Hlen.
Qed.

(** X11.  [qcom_smem_enumerate_partitions] refuses a partition table that
    names a remote host outside [0, SMEM_HOST_COUNT) in an entry for the
    local host, and one that has two entries for the same remote host: it
    returns [-EINVAL] in both cases (entries with offset or size 0 do not
    count). *)
Theorem enumerate_rejects_bad_hosts smem m local_host ptable :
  qcom_smem_get_ptable smem m = Ok ptable ->
  length (partitions smem) = Z.to_nat SMEM_HOST_COUNT ->
  let live j h :=
    pentry_offset m (ptable_entry ptable j) <> 0
    /\ pentry_size m (ptable_entry ptable j) <> 0
    /\ remote_host_of (pentry_host0 m (ptable_entry ptable j))
                      (pentry_host1 m (ptable_entry ptable j)) local_host
       = Some h in
  (forall j h,
      0 <= j < ptable_num_entries m ptable ->
      live j h -> SMEM_HOST_COUNT <= h ->
      fst (qcom_smem_enumerate_partitions smem m local_host) = Err EINVAL)
  /\ (forall j1 j2 h,
        0 <= j1 -> j1 < j2 < ptable_num_entries m ptable ->
        live j1 h -> live j2 h ->
        fst (qcom_smem_enumerate_partitions smem m local_host) = Err EINVAL).
Proof.
  intros Hpt Hlen live. unfold qcom_smem_enumerate_partitions. rewrite Hpt.
  split.
  - intros j h Hj (Ho & Hs & Hr) Hbig.
    apply (enumerate_loop_taken _ m ptable local_host j h); auto. lia.
  - intros j1 j2 h Hj1 Hj2 (Ho1 & Hs1 & Hr1) (Ho2 & Hs2 & Hr2).
    apply (enumerate_loop_twice _ m ptable local_host j1 j2 h); auto. lia.
Qed.

Lemma enumerate_rejects_bad_hosts_witness :
  qcom_smem_get_ptable part_smem_mapped dup_table_mem = Ok 94208
  /\ length (partitions part_smem_mapped) = Z.to_nat SMEM_HOST_COUNT
  /\ fst (qcom_smem_enumerate_partitions part_smem_mapped dup_table_mem
                                         SMEM_HOST_APPS) = Err EINVAL.
Proof.
  assert (H1 : qcom_smem_get_ptable part_smem_mapped dup_table_mem = Ok 94208)
    by (vm_compute; reflexivity).
  assert (H2 : length (partitions part_smem_mapped) = Z.to_nat SMEM_HOST_COUNT)
    by (vm_compute; reflexivity).
  assert (L1 : pentry_offset dup_table_mem (ptable_entry 94208 1) <> 0
               /\ pentry_size dup_table_mem (ptable_entry 94208 1) <> 0
               /\ remote_host_of
                    (pentry_host0 dup_table_mem (ptable_entry 94208 1))
                    (pentry_host1 dup_table_mem (ptable_entry 94208 1))
                    SMEM_HOST_APPS = Some 1).
  { split; [apply Z.eqb_neq; vm_compute; reflexivity|].
    split; [apply Z.eqb_neq; vm_compute; reflexivity|].
    vm_compute; reflexivity. }
  assert (L2 : pentry_offset dup_table_mem (ptable_entry 94208 2) <> 0
               /\ pentry_size dup_table_mem (ptable_entry 94208 2) <> 0
               /\ remote_host_of
                    (pentry_host0 dup_table_mem (ptable_entry 94208 2))
                    (pentry_host1 dup_table_mem (ptable_entry 94208 2))
                    SMEM_HOST_APPS = Some 1).
  { split; [apply Z.eqb_neq; vm_compute; reflexivity|].
    split; [apply Z.eqb_neq; vm_compute; reflexivity|].
    vm_compute; reflexivity. }
  assert (R : 1 < 2 < ptable_num_entries dup_table_mem 94208)
    by (split; [lia|apply Z.ltb_lt; vm_compute; reflexivity]).
  exact (conj H1 (conj H2
           (proj2 (enumerate_rejects_bad_hosts part_smem_mapped dup_table_mem
                     SMEM_HOST_APPS 94208 H1 H2)
                  1 2 1 ltac:(lia) R L1 L2))).
Defined.

(** ** What a successful initialisation guarantees *)

Lemma map_toc_fresh_ok aux_base size smem :
  qcom_smem_map_toc (fresh_smem aux_base size) = (Ok tt, smem) ->
  aux_base <> 0 /\ wrap32 (aux_base + size - SZ_4K) <> 0.
Proof.
  unfold qcom_smem_map_toc.
  change (region_of (fresh_smem aux_base size) 0)
    with (mk_region aux_base 0 size).
  cbn [region_aux_base region_size].
  destruct (Z.eqb_spec aux_base 0); [discriminate|].
  destruct (Z.eqb_spec (wrap32 (aux_base + size - SZ_4K)) 0); [discriminate|].
  auto.
Qed.

Lemma select_mode_ptable smem m size smem' :
  init_select_mode smem m size = Ok smem' -> ptable smem' = ptable smem.
Proof.
  unfold init_select_mode.
  destruct (_ =? SMEM_GLOBAL_PART_VERSION).
  - destruct (qcom_smem_set_global_partition smem m) as [[[]|e] s] eqn:E;
      [|discriminate].
    intros [= <-]. apply set_global_partition_partitions in E.
    cbn [ptable with_item_count]. tauto.
  - destruct (_ =? SMEM_GLOBAL_HEAP_VERSION); [|discriminate].
    intros [= <-]. rewrite map_global_snd. reflexivity.
Qed.

(** X12.  What holds after [qcom_smem_init] has returned 0: the node and the
    handle were there, the heap is at a non-null address, the boot loader
    has marked the header initialised (1) with the reserved word 0, the one
    region of the handle is mapped at its physical address, the partition
    table is taken from the last 4 KiB of the configured memory at a
    non-null 32-bit address, and the handle has a slot for each of the
    [SMEM_HOST_COUNT] hosts. *)
Theorem init_postconditions cfg m smem :
  qcom_smem_init cfg m = Ok smem ->
  exists aux_base,
    cfg_node_valid cfg = true
    /\ cfg_kzalloc_ok cfg = true
    /\ cfg_addr cfg = Some aux_base
    /\ aux_base <> 0
    /\ header_initialized m aux_base = 1
    /\ header_reserved m aux_base = 0
    /\ num_regions smem = 1
    /\ region_aux_base (region_of smem 0) = aux_base
    /\ region_virt_base (region_of smem 0) = aux_base
    /\ ptable smem = wrap32 (aux_base + cfg_size cfg - SZ_4K)
    /\ ptable smem <> 0
    /\ length (partitions smem) = Z.to_nat SMEM_HOST_COUNT.
Proof.
  intros H.
  assert (Hcfg : cfg_node_valid cfg = true /\ cfg_kzalloc_ok cfg = true).
  { unfold qcom_smem_init in H.
    destruct (cfg_node_valid cfg); [|discriminate].
    destruct (cfg_kzalloc_ok cfg); [|discriminate]. auto. }
  pose proof (init_handle_shape _ _ _ H)
    as (aux & sz & Ha & Hregs & Hn & _ & Hlen & _).
  apply init_ok_steps in H
    as (aux' & smem1 & smem3 & r & Ha' & Hmap & Hi & Hres & Hsel & Henum & _).
  assert (aux' = aux) as -> by congruence.
  pose proof (map_toc_fresh_ok _ _ _ Hmap) as [Hnz Hpnz].
  apply map_toc_fresh in Hmap as (_ & _ & _ & Hpt & _).
  apply select_mode_ptable in Hsel.
  apply enumerate_partitions_preserves in Henum as (_ & Hpt' & _).
  exists aux. unfold region_of. rewrite Hregs. cbn [nth Z.to_nat region_aux_base region_virt_base].
  assert (ptable smem = wrap32 (aux + cfg_size cfg - SZ_4K)) by congruence.
  destruct Hcfg. repeat split; try assumption; congruence.
Qed.

Lemma init_postconditions_witness :
  qcom_smem_init part_cfg part_mem = Ok part_smem
  /\ exists aux_base,
       cfg_node_valid part_cfg = true
       /\ cfg_kzalloc_ok part_cfg = true
       /\ cfg_addr part_cfg = Some aux_base
       /\ aux_base <> 0
       /\ header_initialized part_mem aux_base = 1
       /\ header_reserved part_mem aux_base = 0
       /\ num_regions part_smem = 1
       /\ region_aux_base (region_of part_smem 0) = aux_base
       /\ region_virt_base (region_of part_smem 0) = aux_base
       /\ ptable part_smem = wrap32 (aux_base + cfg_size part_cfg - SZ_4K)
       /\ ptable part_smem <> 0
       /\ length (partitions part_smem) = Z.to_nat SMEM_HOST_COUNT.
Proof.
  assert (H1 : qcom_smem_init part_cfg part_mem = Ok part_smem)
    by (vm_compute; reflexivity).
  exact (conj H1 (init_postconditions part_cfg part_mem part_smem H1)).
Defined.

(** * The memory banks *)

(** ** Ordering the banks *)

(** X13.  [ddr_bank_cmp] puts a bank of size 0 behind every other bank,
    whatever its address: it returns 1 when the first bank is empty and -1
    when only the second is.  For two banks that are not empty and start
    below [2^55] it returns the difference of their start addresses in units
    of 16 MiB, so its sign orders them by address, and banks that start in
    the same 16 MiB compare equal. *)
Theorem ddr_bank_cmp_order a b :
  0 <= bank_start a < 2 ^ 55 ->
  0 <= bank_start b < 2 ^ 55 ->
  (bank_size a = 0 -> ddr_bank_cmp a b = 1)
  /\ (bank_size a <> 0 -> bank_size b = 0 -> ddr_bank_cmp a b = -1)
  /\ (bank_size a <> 0 -> bank_size b <> 0 ->
      ddr_bank_cmp a b = bank_start a / 2 ^ 24 - bank_start b / 2 ^ 24
      /\ (ddr_bank_cmp a b < 0 <->
          bank_start a / 2 ^ 24 < bank_start b / 2 ^ 24)
      /\ (ddr_bank_cmp a b = 0 <->
          bank_start a / 2 ^ 24 = bank_start b / 2 ^ 24)).
Proof.
  intros Ha Hb. unfold ddr_bank_cmp.
  split; [|split].
  - intros ->. reflexivity.
  - intros Hna ->. destruct (Z.eqb_spec (bank_size a) 0); [contradiction|].
    reflexivity.
  - intros Hna Hnb.
    destruct (Z.eqb_spec (bank_size a) 0); [contradiction|].
    destruct (Z.eqb_spec (bank_size b) 0); [contradiction|].
    rewrite !Z.shiftr_div_pow2 by lia.
    set (x := bank_start a / 2 ^ 24). set (y := bank_start b / 2 ^ 24).
    assert (Hx : 0 <= x < 2 ^ 31) by (subst x; lia).
    assert (Hy : 0 <= y < 2 ^ 31) by (subst y; lia).
    clearbody x y.
    assert (E : int_of_unsigned (wrap64 (x - y)) = x - y).
    { unfold int_of_unsigned, wrap32, wrap64.
      destruct (Z.ltb_spec (((x - y) mod 2 ^ 64) mod 2 ^ 32) (2 ^ 31)); lia. }
    rewrite E. lia.
Qed.

Lemma ddr_bank_cmp_order_witness :
  0 <= bank_start (mk_bank 0x80000000 0x3c000000) < 2 ^ 55
  /\ 0 <= bank_start (mk_bank 0x880000000 0x100000000) < 2 ^ 55
  /\ ddr_bank_cmp (mk_bank 0x80000000 0x3c000000)
                  (mk_bank 0x880000000 0x100000000) < 0.
Proof.
  assert (H1 : 0 <= bank_start (mk_bank 0x80000000 0x3c000000) < 2 ^ 55)
    by (cbn; lia).
  assert (H2 : 0 <= bank_start (mk_bank 0x880000000 0x100000000) < 2 ^ 55)
    by (cbn; lia).
  refine (conj H1 (conj H2 _)).
  apply (proj2 (proj2 (ddr_bank_cmp_order _ _ H1 H2))); cbn; lia.
Defined.

(** ** The banks of the device tree *)

(** The banks in the cells from [i] on, [n] of them. *)
Lemma dt_cells_shift (memory : Z -> Z) i n :
  map (fun k => mk_bank (wrap64 (memory (i + 2 * Z.of_nat k)))
                        (wrap64 (memory (i + 2 * Z.of_nat k + 1))))
      (seq 1 n)
  = map (fun k => mk_bank (wrap64 (memory (i + 2 + 2 * Z.of_nat k)))
                          (wrap64 (memory (i + 2 + 2 * Z.of_nat k + 1))))
        (seq 0 n).
Proof.
  rewrite <- seq_shift, map_map. apply map_ext. intros k.
  replace (i + 2 * Z.of_nat (S k)) with (i + 2 + 2 * Z.of_nat k) by lia.
  reflexivity.
Qed.

Lemma parse_memory_dt_loop_spec (memory : Z -> Z) :
  forall n i jn banks ram_end,
  (jn + n <= length banks)%nat ->
  let live :=
    filter bank_nonempty
      (map (fun k => mk_bank (wrap64 (memory (i + 2 * Z.of_nat k)))
                             (wrap64 (memory (i + 2 * Z.of_nat k + 1))))
           (seq 0 n)) in
  exists banks',
    parse_memory_dt_loop n memory i (Z.of_nat jn) banks ram_end
    = Some (banks', ram_end_of live ram_end)
    /\ length banks' = length banks
    /\ (forall k, (k < length live)%nat ->
          nth (jn + k) banks' no_bank = nth k live no_bank)
    /\ (forall k, (k < jn \/ jn + length live < k)%nat ->
          nth k banks' no_bank = nth k banks no_bank)
    /\ (bank_size (nth (jn + length live) banks' no_bank) = 0
        \/ nth (jn + length live) banks' no_bank
           = nth (jn + length live) banks no_bank).
Proof.
  induction n as [|n IH]; intros i jn banks ram_end Hlen live.
  - exists banks. cbn. repeat split; auto. intros k Hk. lia.
  - cbn [parse_memory_dt_loop].
    destruct (Z.ltb_spec (Z.of_nat jn) (Z.of_nat (length banks))); [|lia].
    cbn [negb bank_size]. rewrite Nat2Z.id.
    set (b0 := mk_bank (wrap64 (memory i)) (wrap64 (memory (i + 1)))).
    assert (Hlive : live
                    = filter bank_nonempty
                        (b0 :: map (fun k =>
                                 mk_bank (wrap64 (memory (i + 2 + 2 * Z.of_nat k)))
                                         (wrap64 (memory (i + 2 + 2 * Z.of_nat k + 1))))
                               (seq 0 n))).
    { subst live. cbn [seq map]. rewrite dt_cells_shift.
      replace (i + 2 * Z.of_nat 0) with i by lia. reflexivity. }
    cbn [filter] in Hlive. unfold bank_nonempty at 1 in Hlive.
    cbn [bank_size b0] in Hlive.
    destruct (Z.eqb_spec (wrap64 (memory (i + 1))) 0) as [Hz|Hnz];
      cbn [negb] in Hlive.
    + destruct (IH (i + 2) jn (list_set banks jn b0) ram_end)
        as (banks' & Hrun & Hl & Hin & Hout & Hslot).
      { rewrite list_set_length. lia. }
      cbv zeta in Hrun, Hin, Hout, Hslot. rewrite <- Hlive in *.
      exists banks'. rewrite list_set_length in Hl.
      split; [exact Hrun|]. split; [exact Hl|]. split; [exact Hin|].
      split.
      * intros k Hk. rewrite Hout by exact Hk.
        apply nth_list_set_other. lia.
      * destruct Hslot as [Hs|Hs]; [left; exact Hs|].
        rewrite Hs.
        destruct (Nat.eq_dec (length live) 0) as [E0|Hpos].
        -- left. rewrite E0, Nat.add_0_r, nth_list_set, Nat.eqb_refl by lia.
           exact Hz.
        -- right. apply nth_list_set_other. lia.
    + destruct (IH (i + 2) (S jn) (list_set banks jn b0)
                   (Z.max ram_end (bank_end b0)))
        as (banks' & Hrun & Hl & Hin & Hout & Hslot).
      { rewrite list_set_length. lia. }
      cbv zeta in Hrun, Hin, Hout, Hslot.
      set (tl := filter bank_nonempty
                   (map (fun k =>
                           mk_bank (wrap64 (memory (i + 2 + 2 * Z.of_nat k)))
                                   (wrap64 (memory (i + 2 + 2 * Z.of_nat k + 1))))
                        (seq 0 n))) in *.
      rewrite Hlive. rewrite list_set_length in Hl.
      replace (Z.of_nat jn + 1) with (Z.of_nat (S jn)) by lia.
      exists banks'. cbn [length ram_end_of fold_left].
      split; [exact Hrun|]. split; [exact Hl|]. split; [|split].
      * intros [|k] Hk.
        -- rewrite Nat.add_0_r, Hout by lia.
           rewrite nth_list_set, Nat.eqb_refl by lia. reflexivity.
        -- replace (jn + S k)%nat with (S jn + k)%nat by lia.
           rewrite Hin by lia. reflexivity.
      * intros k Hk. rewrite Hout by lia.
        apply nth_list_set_other. lia.
      * replace (jn + S (length tl))%nat with (S jn + length tl)%nat by lia.
        destruct Hslot as [Hs|Hs]; [left; exact Hs|right].
        rewrite Hs. apply nth_list_set_other. lia.
Qed.

(** X14.  [qcom_parse_memory_dt] compacts the banks of the "reg" property:
    for a bank count that fits the array it returns, and afterwards the
    array starts with exactly the banks of non-zero size, in their order,
    [*ram_end] is the largest of its old value and the ends of those banks,
    the entries behind the slot that follows them are untouched, and that
    slot either is untouched too or holds a bank of size 0 (the last empty
    bank read). *)
Theorem parse_memory_dt_compacts (memory : Z -> Z) nbanks banks ram_end :
  0 <= nbanks <= Z.of_nat (length banks) ->
  let live :=
    filter bank_nonempty (map (dt_bank memory) (seq 0 (Z.to_nat nbanks))) in
  exists banks',
    qcom_parse_memory_dt memory nbanks banks ram_end
    = Some (banks', ram_end_of live ram_end)
    /\ length banks' = length banks
    /\ (forall k, (k < length live)%nat ->
          nth k banks' no_bank = nth k live no_bank)
    /\ (forall k, (length live < k)%nat ->
          nth k banks' no_bank = nth k banks no_bank)
    /\ (bank_size (nth (length live) banks' no_bank) = 0
        \/ nth (length live) banks' no_bank = nth (length live) banks no_bank).
Proof.
  intros Hn live.
  destruct (parse_memory_dt_loop_spec memory (Z.to_nat nbanks) 0 0 banks
              ram_end ltac:(lia))
    as (banks' & Hrun & Hl & Hin & Hout & Hslot).
  cbv zeta in Hrun, Hin, Hout, Hslot.
  change (map _ (seq 0 (Z.to_nat nbanks)))
    with (map (dt_bank memory) (seq 0 (Z.to_nat nbanks))) in *.
  fold live in Hrun, Hin, Hout, Hslot.
  exists banks'. unfold qcom_parse_memory_dt.
  split; [exact Hrun|]. split; [exact Hl|].
  split; [exact Hin|]. split; [|exact Hslot].
  intros k Hk. apply Hout. lia.
Qed.

Lemma parse_memory_dt_compacts_witness :
  0 <= 3 <= Z.of_nat (length zero_banks)
  /\ exists banks',
       qcom_parse_memory_dt sample_reg 3 zero_banks 0
       = Some (banks',
               ram_end_of
                 (filter bank_nonempty
                    (map (dt_bank sample_reg) (seq 0 (Z.to_nat 3)))) 0)
       /\ length banks' = length zero_banks
       /\ (forall k,
             (k < length (filter bank_nonempty
                            (map (dt_bank sample_reg)
                                 (seq 0 (Z.to_nat 3)))))%nat ->
             nth k banks' no_bank
             = nth k (filter bank_nonempty
                        (map (dt_bank sample_reg) (seq 0 (Z.to_nat 3))))
                   no_bank)
       /\ (forall k,
             (length (filter bank_nonempty
                        (map (dt_bank sample_reg) (seq 0 (Z.to_nat 3))))
              < k)%nat ->
             nth k banks' no_bank = nth k zero_banks no_bank)
       /\ (bank_size
             (nth (length (filter bank_nonempty
                             (map (dt_bank sample_reg)
                                  (seq 0 (Z.to_nat 3)))))
                  banks' no_bank) = 0
           \/ nth (length (filter bank_nonempty
                             (map (dt_bank sample_reg)
                                  (seq 0 (Z.to_nat 3)))))
                  banks' no_bank
              = nth (length (filter bank_nonempty
                               (map (dt_bank sample_reg)
                                    (seq 0 (Z.to_nat 3)))))
                    zero_banks no_bank).
Proof.
  assert (H1 : 0 <= 3 <= Z.of_nat (length zero_banks)) by (cbn; lia).
  exact (conj H1 (parse_memory_dt_compacts sample_reg 3 zero_banks 0 H1)).
Defined.

(** On the sample: the two banks that are not empty, then the zero bank. *)
Example parse_memory_dt_sample :
  qcom_parse_memory_dt sample_reg 3 zero_banks 0
  = Some ([mk_bank 0x80000000 0x3c000000; mk_bank 0x880000000 0x100000000;
           no_bank; no_bank],
          0x980000000).
Proof. vm_compute. reflexivity. Qed.

(** ** The banks of the RAM partition table *)

Lemma parse_memory_smem_loop_spec m t : forall n i jn banks ram_end,
  (jn <= length banks)%nat ->
  let rec := firstn (length banks - jn) (ram_ptable_banks n m t i) in
  exists banks',
    parse_memory_smem_loop n m t i (Z.of_nat jn) banks ram_end
    = (Z.of_nat (jn + length rec), banks', ram_end_of rec ram_end)
    /\ length banks' = length banks
    /\ (forall k, (k < length rec)%nat ->
          nth (jn + k) banks' no_bank = nth k rec no_bank)
    /\ (forall k, (k < jn \/ jn + length rec <= k)%nat ->
          nth k banks' no_bank = nth k banks no_bank).
Proof.
  induction n as [|n IH]; intros i jn banks ram_end Hj rec.
  - exists banks. subst rec. cbn [ram_ptable_banks parse_memory_smem_loop].
    rewrite firstn_nil. cbn. rewrite Nat.add_0_r.
    repeat split; auto. intros k Hk. lia.
  - cbn [parse_memory_smem_loop].
    destruct (Z.ltb_spec (Z.of_nat jn) (Z.of_nat (length banks))) as [Hlt|Hge];
      cbn [negb].
    + subst rec. cbn [ram_ptable_banks].
      destruct (negb (ram_ptn_category m (ram_ptable_part t i) =? CATEGORY_SDRAM)
                || negb (ram_ptn_type m (ram_ptable_part t i) =? TYPE_SYSMEM)).
      * apply IH. exact Hj.
      * destruct ((ram_ptn_size m (ram_ptable_part t i) =? 0)
                  && (ram_ptn_start m (ram_ptable_part t i) =? 0)).
        -- exists banks. rewrite firstn_nil. cbn. rewrite Nat.add_0_r.
           repeat split; auto. intros k Hk. lia.
        -- set (b := mk_bank (ram_ptn_start m (ram_ptable_part t i))
                             (ram_ptn_size m (ram_ptable_part t i))).
           rewrite Nat2Z.id.
           replace (Z.of_nat jn + 1) with (Z.of_nat (S jn)) by lia.
           destruct (IH (i + 1) (S jn) (list_set banks jn b)
                        (Z.max ram_end (bank_end b)))
             as (banks' & Hrun & Hl & Hin & Hout).
           { rewrite list_set_length. lia. }
           cbv zeta in Hrun, Hin, Hout.
           rewrite list_set_length in Hrun, Hl, Hin, Hout.
           replace (length banks - jn)%nat with (S (length banks - S jn))
             by lia.
           cbn [firstn length ram_end_of fold_left].
           set (rec' := firstn (length banks - S jn)
                               (ram_ptable_banks n m t (i + 1))) in *.
           exists banks'.
           replace (jn + S (length rec'))%nat with (S jn + length rec')%nat
             by lia.
           split; [exact Hrun|]. split; [exact Hl|]. split.
           ++ intros [|k] Hk.
              ** rewrite Nat.add_0_r, Hout by lia.
                 rewrite nth_list_set, Nat.eqb_refl by lia. reflexivity.
              ** replace (jn + S k)%nat with (S jn + k)%nat by lia.
                 rewrite Hin by lia. reflexivity.
           ++ intros k Hk. rewrite Hout by lia.
              apply nth_list_set_other. lia.
    + exists banks. subst rec.
      replace (length banks - jn)%nat with 0%nat by lia.
      cbn [firstn length ram_end_of fold_left]. rewrite Nat.add_0_r.
      repeat split; auto. intros k Hk. lia.
Qed.

(** X15.  The loop of [qcom_parse_memory_smem] records the banks of the RAM
    partition table: the SDRAM system-memory entries among the 32 entries
    of the table, in table order and up to the first all-zero one, cut off
    at the length of the array.  It returns their number, which never
    exceeds the length of the array, stores them from index 0 on, leaves the
    rest of the array alone, and raises [*ram_end] to the largest end among
    them. *)
Theorem parse_memory_smem_records m ram_ptable banks ram_end :
  let rec :=
    firstn (length banks)
           (ram_ptable_banks (Z.to_nat RAM_NUM_PART_ENTRIES) m ram_ptable 0) in
  exists banks',
    parse_memory_smem_loop (Z.to_nat RAM_NUM_PART_ENTRIES) m ram_ptable 0 0
                           banks ram_end
    = (Z.of_nat (length rec), banks', ram_end_of rec ram_end)
    /\ (length rec <= length banks)%nat
    /\ length banks' = length banks
    /\ (forall k, (k < length rec)%nat ->
          nth k banks' no_bank = nth k rec no_bank)
    /\ (forall k, (length rec <= k)%nat ->
          nth k banks' no_bank = nth k banks no_bank).
Proof.
  intros rec.
  destruct (parse_memory_smem_loop_spec m ram_ptable
              (Z.to_nat RAM_NUM_PART_ENTRIES) 0 0 banks ram_end ltac:(lia))
    as (banks' & Hrun & Hl & Hin & Hout).
  cbv zeta in Hrun, Hin, Hout. rewrite Nat.sub_0_r in Hrun, Hin, Hout.
  fold rec in Hrun, Hin, Hout.
  exists banks'. split; [exact Hrun|].
  split; [subst rec; rewrite length_firstn; lia|].
  split; [exact Hl|]. split; [exact Hin|].
  intros k Hk. apply Hout. lia.
Qed.

(** ** Errors of the table lookup *)






(** [QCOM_SMEM_HOST_ANY] selects the global partition, or the global heap. *)
Lemma select_partition_host_any smem :
  select_partition smem QCOM_SMEM_HOST_ANY
  = if negb (part_virt_base (global_partition smem) =? 0)
    then Some (global_partition smem) else None.
Proof.
  unfold select_partition.
  change (QCOM_SMEM_HOST_ANY <? SMEM_HOST_COUNT) with false.
  reflexivity.
Qed.



(** With the table in place the banks are read from it. *)
Example parse_memory_smem_sample :
  qcom_parse_memory_smem sample_ERR_PTR ram_table_cfg ram_table_mem
                         zero_banks 0
  = Some (Ok (2,
              [mk_bank 0x80000000 0x3c000000;
               mk_bank 0x880000000 0x100000000; no_bank; no_bank],
              0x980000000)).
Proof.
  assert (Hinit : qcom_smem_init ram_table_cfg ram_table_mem
                  = Ok ram_table_handle) by (vm_compute; reflexivity).
  assert (Hget : qcom_smem_get (Some ram_table_handle) ram_table_mem
                   QCOM_SMEM_HOST_ANY SMEM_USABLE_RAM_PARTITION_TABLE true
                 = Some (Ok (16592, Some 2328))).
  { unfold qcom_smem_get. rewrite select_partition_host_any.
    vm_compute. reflexivity. }
  unfold qcom_parse_memory_smem. rewrite Hinit, Hget.
  vm_compute. reflexivity.
Qed.

(** * The error codes of the entry points *)

Lemma alloc_private_errors m part item size e m' :
  qcom_smem_alloc_private m part item size = Some (Err e, m') ->
  m' = m /\ (e = EINVAL \/ e = EEXIST \/ e = ENOSPC).
Proof.
  intros H. split; [eapply alloc_private_err_mem; exact H|].
  unfold qcom_smem_alloc_private, qcom_smem_alloc_private_run in H.
  destruct (_ || _); [injection H as <- _; auto|].
  destruct (uncached_scan _ m _ _ item) as [[tr [x|x|x]]|];
    cbn [option_map snd] in H; try discriminate;
    try (injection H as <- _; auto).
  destruct (_ >? _); [injection H as <- _; auto|].
  destruct (_ >? _); [injection H as <- _; auto|discriminate].
Qed.

Lemma alloc_global_errors smem m item size e m' :
  qcom_smem_alloc_global smem m item size = (Err e, m') ->
  m' = m /\ (e = EEXIST \/ e = ENOMEM).
Proof.
  intros H. split; [eapply alloc_global_err; exact H|].
  unfold qcom_smem_alloc_global in H.
  destruct (negb _); [injection H as <- _; auto|].
  destruct (_ >? _); [injection H as <- _; auto|discriminate].
Qed.

Lemma get_private_errors m part item want_size e :
  qcom_smem_get_private m part item want_size = Some (Err e) ->
  e = EINVAL \/ e = ENOENT.
Proof.
  unfold qcom_smem_get_private, qcom_smem_get_private_run. intros H.
  destruct (uncached_scan _ m _ _ item) as [[tr [x|x|x]]|];
    cbn [option_map snd] in H; try discriminate.
  - unfold get_uncached_item in H.
    destruct (_ && _); [injection H as <-; auto|].
    destruct (_ >? _); [injection H as <-; auto|discriminate].
  - injection H as <-. auto.
  - destruct (_ >? _); [injection H as <-; auto|].
    unfold get_private_cached in H.
    destruct (_ || _); [injection H as <-; auto|].
    destruct (cached_scan _ m _ _ _ item) as [[tr2 [y|y|y]]|];
      cbn [option_map snd] in H; try discriminate.
    + unfold get_cached_item in H.
      destruct (_ && _); [injection H as <-; auto|].
      destruct (_ <? _); [injection H as <-; auto|discriminate].
    + injection H as <-. auto.
    + destruct (_ <? _); injection H as <-; auto.
Qed.

Lemma get_global_regions_errors n smem m entry aux_base want_size : forall i e,
  get_global_regions n smem m i entry aux_base want_size = Err e ->
  e = EINVAL \/ e = ENOENT.
Proof.
  induction n as [|n IH]; intros i e H; cbn [get_global_regions] in H.
  - injection H as <-. auto.
  - destruct (_ || _); [|eapply IH; exact H].
    destruct (_ >? _); [injection H as <-; auto|discriminate].
Qed.

(** X17.  The error codes of the entry points, as their C callers read
    them.  Before [qcom_smem_init] has succeeded [qcom_smem_alloc],
    [qcom_smem_get] and [qcom_smem_get_free_space] all return
    [-EPROBE_DEFER].  On an initialised heap [qcom_smem_alloc] fails only
    with [-EINVAL], [-EEXIST], [-ENOSPC] (in a partition) or [-ENOMEM] (in
    the global heap), never with [-EPROBE_DEFER], and a failed allocation
    leaves the memory as it was.  [qcom_smem_get_free_space] returns an
    unsigned number as an [int]: where the partition, or the first region for
    the global heap, is smaller than 2 GiB, what it returns on an initialised
    heap is [-EINVAL] or a number between 0 and that size. *)
Theorem entry_point_errors errno_num smem m host item size want_size :
  (qcom_smem_is_available smem = false ->
   qcom_smem_alloc smem m host item size = Some (Err EPROBE_DEFER, m)
   /\ qcom_smem_get smem m host item want_size = Some (Err EPROBE_DEFER)
   /\ qcom_smem_get_free_space errno_num smem m host
      = - errno_num EPROBE_DEFER)
  /\ (qcom_smem_is_available smem = true ->
      (forall e m',
          qcom_smem_alloc smem m host item size = Some (Err e, m') ->
          m' = m
          /\ (e = EINVAL \/ e = EEXIST
              \/ (e = ENOSPC /\ exists s part,
                     smem = Some s /\ select_partition s host = Some part)
              \/ (e = ENOMEM /\ exists s,
                     smem = Some s /\ select_partition s host = None)))
      /\ (forall s bound,
            smem = Some s ->
            bound = match select_partition s host with
                    | Some part => wrap32 (part_size part)
                    | None => region_size (region_of s 0)
                    end ->
            bound < 2 ^ 31 ->
            qcom_smem_get_free_space errno_num smem m host
            = - errno_num EINVAL
            \/ 0 <= qcom_smem_get_free_space errno_num smem m host <= bound)).
Proof.
  split.
  - destruct smem as [s|]; [discriminate|]. intros _. auto.
  - destruct smem as [s|]; [|discriminate]. intros _.
    split.
    + intros e m' H. unfold qcom_smem_alloc in H.
      destruct (_ <? _); [injection H as <- <-; auto|].
      destruct (_ >=? _); [injection H as <- <-; auto|].
      destruct (select_partition s host) as [part|] eqn:Esel.
      * apply alloc_private_errors in H as [-> [->|[->| ->]]]; auto.
        split; [reflexivity|]. right. right. left.
        split; [reflexivity|]. exists s, part. auto.
      * injection H as H.
        apply alloc_global_errors in H as [-> [->| ->]]; auto.
        split; [reflexivity|]. right. right. right.
        split; [reflexivity|]. exists s. auto.
    + intros s' bound [= <-] -> Hb. unfold qcom_smem_get_free_space.
      destruct (select_partition s host) as [part|].
      * destruct (Z.gtb_spec
                    (wrap32 (phdr_offset_free_cached m (part_virt_base part)
                             - phdr_offset_free_uncached m (part_virt_base part)))
                    (wrap32 (part_size part))); [left; reflexivity|].
        right. rewrite int_of_unsigned_small; [|split; [|lia]];
          unfold wrap32 in *; lia.
      * pose proof (load32_range m (region_virt_base (region_of s 0) + 200)) as R.
        unfold header_available.
        destruct (Z.gtb_spec (load32 m (region_virt_base (region_of s 0) + 200))
                             (region_size (region_of s 0)));
          [left; reflexivity|].
        right. rewrite int_of_unsigned_small; lia.
Qed.

Lemma entry_point_errors_witness :
  qcom_smem_is_available (Some part_smem) = true
  /\ qcom_smem_alloc (Some part_smem) part_mem 1 9 8
     = Some (Err EEXIST, part_mem)
  /\ 256 = match select_partition part_smem 1 with
           | Some part => wrap32 (part_size part)
           | None => region_size (region_of part_smem 0)
           end
  /\ 256 < 2 ^ 31
  /\ (qcom_smem_get_free_space sample_errno_num (Some part_smem) part_mem 1
      = - sample_errno_num EINVAL
      \/ 0 <= qcom_smem_get_free_space sample_errno_num (Some part_smem)
                 part_mem 1 <= 256).
Proof.
  assert (H1 : qcom_smem_is_available (Some part_smem) = true)
    by reflexivity.
  assert (H2 : qcom_smem_alloc (Some part_smem) part_mem 1 9 8
               = Some (Err EEXIST, part_mem)) by (vm_compute; reflexivity).
  assert (H3 : 256 = match select_partition part_smem 1 with
                     | Some part => wrap32 (part_size part)
                     | None => region_size (region_of part_smem 0)
                     end)
    by (rewrite demo_part_selected; reflexivity).
  assert (H4 : 256 < 2 ^ 31) by lia.
  exact (conj H1 (conj H2 (conj H3 (conj H4
           (proj2 (proj2 (entry_point_errors sample_errno_num (Some part_smem)
                            part_mem 1 9 8 true) H1)
                  part_smem 256 eq_refl H3 H4))))).
Defined.

(** The free space of the sample partition, and what the function makes of
    cursors that are 2 GiB apart in a partition as large as that: a negative
    number that is no error code. *)
Example free_space_samples :
  qcom_smem_get_free_space sample_errno_num (Some part_smem) part_mem 1 = 120
  /\ (let part := mk_partition 86016 86016 64 (2 ^ 32 - 1) in
      let smem := with_partition part_smem 1 part in
      let m := store32 (store32 part_mem (86016 + 12) 32)
                       (86016 + 16) (2 ^ 31 + 32) in
      qcom_smem_get_free_space sample_errno_num (Some smem) m 1 = - 2 ^ 31).
Proof. split; vm_compute; reflexivity. Qed.

(** * Publishing the banks *)

Lemma configure_bi_dram_loop_spec banks : forall n i bi_dram,
  (i + n = length banks)%nat ->
  length bi_dram = length banks ->
  let r := configure_bi_dram_loop n banks bi_dram (Z.of_nat i) in
  length r = length banks
  /\ (forall k, (k < i)%nat -> nth k r no_bank = nth k bi_dram no_bank)
  /\ (forall k, (i <= k < length banks)%nat ->
        (forall j, (i <= j < k)%nat -> bank_size (nth j banks no_bank) <> 0) ->
        nth k r no_bank = nth k banks no_bank)
  /\ (forall k j, (i <= j < k)%nat -> bank_size (nth j banks no_bank) = 0 ->
        nth k r no_bank = nth k bi_dram no_bank).
Proof.
  induction n as [|n IH]; intros i bi_dram Hi Hlen r; subst r;
    cbn [configure_bi_dram_loop].
  - repeat split; auto; intros; lia.
  - rewrite Nat2Z.id.
    set (b := nth i banks no_bank).
    set (bi1 := list_set bi_dram i b).
    assert (Hlen1 : length bi1 = length banks)
      by (subst bi1; rewrite list_set_length; exact Hlen).
    assert (Hat : nth i bi1 no_bank = b)
      by (subst bi1; rewrite nth_list_set, Nat.eqb_refl by lia; reflexivity).
    assert (Hother : forall k, k <> i -> nth k bi1 no_bank = nth k bi_dram no_bank)
      by (intros k Hk; subst bi1; apply nth_list_set_other; lia).
    destruct (Z.eqb_spec (bank_size b) 0) as [Hz|Hnz].
    + split; [exact Hlen1|]. split; [|split].
      * intros k Hk. apply Hother. lia.
      * intros k Hk Hall.
        destruct (Nat.eq_dec k i) as [->|Hne]; [exact Hat|].
        exfalso. apply (Hall i); [lia|exact Hz].
      * intros k j Hj _. apply Hother. lia.
    + replace (Z.of_nat i + 1) with (Z.of_nat (S i)) by lia.
      destruct (IH (S i) bi1 ltac:(lia) Hlen1) as (Hl & Hlow & Hcopy & Hkeep).
      split; [exact Hl|]. split; [|split].
      * intros k Hk. rewrite Hlow by lia. apply Hother. lia.
      * intros k Hk Hall.
        destruct (Nat.eq_dec k i) as [->|Hne].
        -- rewrite Hlow by lia. exact Hat.
        -- apply Hcopy; [lia|]. intros j Hj. apply Hall. lia.
      * intros k j Hj Hzero.
        destruct (Nat.eq_dec j i) as [->|Hne]; [contradiction|].
        rewrite (Hkeep k j) by (lia || assumption). apply Hother. lia.
Qed.

(** X18.  [qcom_configure_bi_dram] publishes the banks up to and including
    the first one of size 0 and nothing behind it: an entry of [bi_dram] is
    overwritten with the bank of the same index if all banks before that
    index are non-empty, and keeps its old value if a bank before it is
    empty. *)
Theorem configure_bi_dram_stops_at_empty banks bi_dram :
  length bi_dram = length banks ->
  let r := qcom_configure_bi_dram banks bi_dram in
  length r = length banks
  /\ (forall k, (k < length banks)%nat ->
        (forall j, (j < k)%nat -> bank_size (nth j banks no_bank) <> 0) ->
        nth k r no_bank = nth k banks no_bank)
  /\ (forall k j, (j < k)%nat -> bank_size (nth j banks no_bank) = 0 ->
        nth k r no_bank = nth k bi_dram no_bank).
Proof.
  intros Hlen r.
  destruct (configure_bi_dram_loop_spec banks (length banks) 0 bi_dram
              ltac:(lia) Hlen) as (Hl & _ & Hcopy & Hkeep).
  subst r. unfold qcom_configure_bi_dram.
  split; [exact Hl|]. split.
  - intros k Hk Hall. apply Hcopy; [lia|]. intros j Hj. apply Hall. lia.
  - intros k j Hj Hz. apply (Hkeep k j); [lia|exact Hz].
Qed.

Lemma configure_bi_dram_stops_at_empty_witness :
  length [mk_bank 1 1; mk_bank 2 2; mk_bank 3 3]
  = length [mk_bank 0x80000000 0x3c000000; no_bank; mk_bank 0x880000000 1]
  /\ nth 2 (qcom_configure_bi_dram
              [mk_bank 0x80000000 0x3c000000; no_bank; mk_bank 0x880000000 1]
              [mk_bank 1 1; mk_bank 2 2; mk_bank 3 3]) no_bank
     = nth 2 [mk_bank 1 1; mk_bank 2 2; mk_bank 3 3] no_bank.
Proof.
  assert (H1 : length [mk_bank 1 1; mk_bank 2 2; mk_bank 3 3]
               = length [mk_bank 0x80000000 0x3c000000; no_bank;
                         mk_bank 0x880000000 1]) by reflexivity.
  refine (conj H1 _).
  apply (proj2 (proj2 (configure_bi_dram_stops_at_empty _ _ H1)) 2%nat 1%nat).
  - lia.
  - reflexivity.
Defined.

(** * The touch controller *)

Lemma byte_at_range buf i : 0 <= byte_at buf i < 256.
Proof. unfold byte_at. lia. Qed.

Lemma point_x_range buf p : 0 <= point_x buf p < 4096.
Proof.
  unfold point_x.
  pose proof (byte_at_range buf (p + 3)). pose proof (byte_at_range buf (p + 4)).
  lia.
Qed.

Lemma point_y_range buf p : 0 <= point_y buf p < 4096.
Proof.
  unfold point_y.
  pose proof (byte_at_range buf (p + 4)). pose proof (byte_at_range buf (p + 5)).
  lia.
Qed.

(** X19.  [tcm_handle_touch_report], called with the [len + 2] that
    [tcm_report_irq] passes for a report whose length field is [len], draws
    exactly when [len] is at most 2 or at least 14: the function takes 4
    more bytes off and the loop bound [(len - 1) / 11] is computed in
    [size_t], so it wraps for the short reports and is 0 from 3 to 13.  When
    it draws, the first point of the report is placed at column
    [x * 67 / 1080] and row [y * 74 / 2400], and that cell lies on the grid
    of 67 by 74 characters exactly when the point lies on the panel of 1080
    by 2400 pixels. *)
Theorem touch_report_cell buf len :
  0 <= len <= 254 ->
  let x := point_x buf 5 in
  let y := point_y buf 5 in
  tcm_handle_touch_report buf (len + 2)
  = (if (len <=? 2) || (14 <=? len)
     then Some (x * 67 / 1080, y * 74 / 2400) else None)
  /\ (x * 67 / 1080 < CHARWIDTH <-> x < WIDTH)
  /\ (y * 74 / 2400 < CHARHEIGHT <-> y < HEIGHT).
Proof.
  intros Hlen x y.
  pose proof (point_x_range buf 5) as Hx. pose proof (point_y_range buf 5) as Hy.
  fold x in Hx. fold y in Hy.
  unfold CHARWIDTH, CHARHEIGHT, WIDTH, HEIGHT.
  split; [|split; lia].
  unfold tcm_handle_touch_report, REPORT_PEAK_LEN.
  change (4 + 1 + 11 * 0) with 5. fold x y.
  unfold CHARWIDTH, CHARHEIGHT, WIDTH, HEIGHT.
  assert (Ex : wrap64 (x * 67 * 1000) / 1080 / 1000 = x * 67 / 1080).
  { unfold wrap64. rewrite Z.mod_small by lia. lia. }
  assert (Ey : wrap64 (y * 74 * 1000) / 2400 / 1000 = y * 74 / 2400).
  { unfold wrap64. rewrite Z.mod_small by lia. lia. }
  rewrite Ex, Ey.
  destruct (Z.leb_spec len 2) as [Hs|Hs]; cbn [orb].
  - assert (E : (0 <? wrap64 (wrap64 (len + 2 - 4) - 1) / 11) = true).
    { apply Z.ltb_lt. unfold wrap64.
      assert (len = 0 \/ len = 1 \/ len = 2) as [->|[->| ->]] by lia;
        vm_compute; reflexivity. }
    rewrite E. reflexivity.
  - assert (W : wrap64 (wrap64 (len + 2 - 4) - 1) = len - 3).
    { unfold wrap64. rewrite (Z.mod_small (len + 2 - 4)) by lia.
      rewrite Z.mod_small by lia. lia. }
    rewrite W.
    destruct (Z.leb_spec 14 len).
    + destruct (Z.ltb_spec 0 ((len - 3) / 11)); [reflexivity|lia].
    + destruct (Z.ltb_spec 0 ((len - 3) / 11)); [lia|reflexivity].
Qed.

Lemma touch_report_cell_witness :
  0 <= 23 <= 254
  /\ tcm_handle_touch_report touch_report (23 + 2)
     = (if (23 <=? 2) || (14 <=? 23)
        then Some (point_x touch_report 5 * 67 / 1080,
                   point_y touch_report 5 * 74 / 2400)
        else None)
  /\ (point_x touch_report 5 * 67 / 1080 < CHARWIDTH
      <-> point_x touch_report 5 < WIDTH)
  /\ (point_y touch_report 5 * 74 / 2400 < CHARHEIGHT
      <-> point_y touch_report 5 < HEIGHT).
Proof.
  assert (H1 : 0 <= 23 <= 254) by lia.
  exact (conj H1 (touch_report_cell touch_report 23 H1)).
Defined.

(** The sample report puts the cursor at column 33, row 37. *)
Example touch_report_sample :
  tcm_report_irq idle_tcm (Some touch_report) = (idle_tcm, Some (33, 37)).
Proof. vm_compute. reflexivity. Qed.

Lemma report_copy_shape (buf old : list Z) n :
  (n <= length buf)%nat ->
  length old = length buf ->
  let new := firstn n buf ++ skipn n old in
  length new = length buf
  /\ firstn n new = firstn n buf
  /\ skipn n new = skipn n old.
Proof.
  intros Hn Hlen new. subst new.
  assert (Hf : length (firstn n buf) = n)
    by (rewrite length_firstn; lia).
  split; [|split].
  - rewrite length_app, Hf, length_skipn. lia.
  - rewrite firstn_app, Hf, Nat.sub_diag. cbn [firstn].
    rewrite app_nil_r. rewrite <- Hf at 1. apply firstn_all.
  - rewrite skipn_app, Hf, Nat.sub_diag. cbn [skipn].
    rewrite <- Hf at 1. rewrite skipn_all. reflexivity.
Qed.

(** X20.  [tcm_report_irq] never writes past the 256 bytes of [tcm->buf].
    Whatever the 256 bytes of a transfer contain, the buffer keeps its
    length, and the state is either unchanged or holds a stored report: then
    the report code is one of the accepted ones other than [REPORT_TOUCH],
    [buf_size] is the length field plus 2 and at most 256, the first
    [buf_size] bytes of the buffer are those received and the bytes behind
    them are as before.  A failed transfer, an unknown report code, a length
    field above 254 and a touch report leave the state unchanged, and only a
    touch report moves the cursor. *)
Theorem report_irq_keeps_buffer tcm recv :
  length (tcm_buf tcm) = 256%nat ->
  (forall buf, recv = Some buf -> length buf = 256%nat) ->
  let tcm' := fst (tcm_report_irq tcm recv) in
  let cell := snd (tcm_report_irq tcm recv) in
  length (tcm_buf tcm') = 256%nat
  /\ (tcm' = tcm
      \/ exists buf,
           recv = Some buf
           /\ report_code_handled (byte_at buf 1) = true
           /\ byte_at buf 1 <> REPORT_TOUCH
           /\ tcm_buf_size tcm' = get_unaligned_le16 buf 2 + 2
           /\ 2 <= tcm_buf_size tcm' <= 256
           /\ firstn (Z.to_nat (tcm_buf_size tcm')) (tcm_buf tcm')
              = firstn (Z.to_nat (tcm_buf_size tcm')) buf
           /\ skipn (Z.to_nat (tcm_buf_size tcm')) (tcm_buf tcm')
              = skipn (Z.to_nat (tcm_buf_size tcm')) (tcm_buf tcm))
  /\ (cell <> None ->
      tcm' = tcm /\ exists buf, recv = Some buf /\ byte_at buf 1 = REPORT_TOUCH)
  /\ (recv = None -> tcm' = tcm /\ cell = None).
Proof.
  intros Hold Hrecv tcm' cell. subst tcm' cell. unfold tcm_report_irq.
  destruct recv as [buf|]; cbn [fst snd];
    [|repeat split; auto; congruence].
  specialize (Hrecv buf eq_refl).
  destruct (report_code_handled (byte_at buf 1)) eqn:Hcode; cbn [negb fst snd];
    [|repeat split; auto; congruence].
  pose proof (byte_at_range buf 2) as R2. pose proof (byte_at_range buf (2 + 1)) as R3.
  assert (Hle : 0 <= get_unaligned_le16 buf 2)
    by (unfold get_unaligned_le16; lia).
  destruct (Z.gtb_spec (get_unaligned_le16 buf 2) (256 - 2)) as [|Hlen];
    cbn [fst snd]; [repeat split; auto; congruence|].
  destruct (Z.eqb_spec (byte_at buf 1) REPORT_TOUCH) as [Ht|Hnt];
    cbn [fst snd tcm_buf tcm_buf_size].
  - split; [exact Hold|]. split; [left; reflexivity|].
    split; [|discriminate].
    intros _. split; [reflexivity|]. exists buf. auto.
  - assert (W : wrap16 (get_unaligned_le16 buf 2 + 2)
                = get_unaligned_le16 buf 2 + 2)
      by (unfold wrap16; rewrite Z.mod_small; lia).
    rewrite W.
    destruct (report_copy_shape buf (tcm_buf tcm)
                (Z.to_nat (get_unaligned_le16 buf 2 + 2)))
      as (Hl & Hf & Hs); [lia|congruence|].
    cbv zeta in Hl, Hf, Hs.
    split; [congruence|]. split; [|split; [congruence|discriminate]].
    right. exists buf. repeat split; auto; lia.
Qed.

Lemma report_irq_keeps_buffer_witness :
  length (tcm_buf idle_tcm) = 256%nat
  /\ (forall buf, Some identify_report = Some buf -> length buf = 256%nat)
  /\ length (tcm_buf (fst (tcm_report_irq idle_tcm (Some identify_report))))
     = 256%nat
  /\ tcm_buf_size (fst (tcm_report_irq idle_tcm (Some identify_report))) = 6.
Proof.
  assert (H1 : length (tcm_buf idle_tcm) = 256%nat) by reflexivity.
  assert (H2 : forall buf, Some identify_report = Some buf ->
                           length buf = 256%nat)
    by (intros buf [= <-]; reflexivity).
  refine (conj H1 (conj H2
            (conj (proj1 (report_irq_keeps_buffer idle_tcm
                            (Some identify_report) H1 H2)) _))).
  vm_compute. reflexivity.
Defined.

(** * What an allocation may write, and isolation of the partitions *)

(** X21.  [qcom_smem_alloc_private] writes only into free space: for sizes
    that fit (a record of that size placed at the very end of the
    partition would still end 16 GiB or more below [2^64]), whether the
    call succeeds or fails, every byte other than the four bytes of the
    forward cursor and the bytes between the two cursors keeps its
    value.  The partition header, the records of both lists and everything
    outside the partition are left alone. *)
Theorem alloc_private_writes_free_space m part item size r m' x :
  qcom_smem_alloc_private m part item size = Some (r, m') ->
  size_fits part size ->
  let phdr := part_virt_base part in
  x < phdr + 12
  \/ phdr + 16 <= x < phdr_to_last_uncached_entry m phdr
  \/ phdr_to_last_cached_entry m phdr <= x ->
  m' x = m x.
Proof.
  intros Ha Hvs phdr Hx.
  destruct r as [[]|e].
  - pose proof (alloc_private_effect _ _ _ _ _ Ha Hvs) as He.
    cbv zeta in He. fold phdr in He.
    destruct He as (tr & hdr & _ & Hfirst & Hend & Hagree & _ & _ & _ & Hasz
                    & _ & _ & Hfit & _).
    unfold phdr_to_first_uncached_entry, sizeof_partition_header,
      sizeof_private_entry in *.
    apply Hagree. lia.
  - apply alloc_private_err_mem in Ha. subst m'. reflexivity.
Qed.

Lemma alloc_private_writes_free_space_witness :
  qcom_smem_alloc_private part_mem demo_part 11 24
  = Some (Ok tt, mem_after_first_request)
  /\ size_fits demo_part 24
  /\ (86208 < part_virt_base demo_part + 12
      \/ part_virt_base demo_part + 16 <= 86208
         < phdr_to_last_uncached_entry part_mem (part_virt_base demo_part)
      \/ phdr_to_last_cached_entry part_mem (part_virt_base demo_part)
         <= 86208)
  /\ mem_after_first_request 86208 = part_mem 86208.
Proof.
  assert (H1 : qcom_smem_alloc_private part_mem demo_part 11 24
               = Some (Ok tt, mem_after_first_request))
    by (vm_compute; reflexivity).
  assert (H2 : size_fits demo_part 24)
    by (apply demo_part_fits; change (2 ^ 32) with 4294967296; lia).
  assert (H3 : 86208 < part_virt_base demo_part + 12
               \/ part_virt_base demo_part + 16 <= 86208
                  < phdr_to_last_uncached_entry part_mem
                      (part_virt_base demo_part)
               \/ phdr_to_last_cached_entry part_mem
                    (part_virt_base demo_part) <= 86208)
    by (right; right; apply Z.leb_le; vm_compute; reflexivity).
  exact (conj H1 (conj H2 (conj H3
           (alloc_private_writes_free_space part_mem demo_part 11 24 (Ok tt)
              mem_after_first_request 86208 H1 H2 H3)))).
Defined.

(** A lookup in a well-formed partition reads the partition only. *)
Lemma uncached_scan_local m m' end_ item : forall fuel e,
  (exists f, uncached_chain f m e end_ = true) ->
  (forall x, e <= x < end_ -> m' x = m x) ->
  uncached_scan fuel m' e end_ item = uncached_scan fuel m e end_ item.
Proof.
  induction fuel as [|fuel IH]; intros e [f Hchain] Hagree.
  - reflexivity.
  - rewrite !uncached_scan_S.
    destruct (Z.ltb_spec e end_) as [Hlt|]; [|reflexivity].
    destruct f as [|f]; cbn [uncached_chain] in Hchain;
      destruct (Z.ltb_spec e end_); try lia; try discriminate.
    pose proof (uncached_chain_le _ _ _ _ Hchain) as Hn.
    pose proof (uncached_entry_next_ge m e) as Hge.
    unfold sizeof_private_entry in Hge.
    assert (Hf : forall x, e <= x < e + 12 -> m' x = m x)
      by (intros x Hx; apply Hagree; lia).
    pose proof (entry_fields_ext _ _ _ Hf) as (Ec & Ei & _).
    rewrite (uncached_entry_next_ext _ _ _ Hf), Ec, Ei.
    rewrite IH; [reflexivity|exists f; exact Hchain|].
    intros x Hx. apply Hagree. lia.
Qed.

Lemma uncached_scan_found_end fuel m end_ item : forall e0 tr x f,
  uncached_scan fuel m e0 end_ item = Some (tr, ScanFound x) ->
  uncached_chain f m e0 end_ = true ->
  x + sizeof_private_entry <= end_.
Proof.
  induction fuel as [|fuel IH]; intros e0 tr x f Es Hchain.
  - cbn [uncached_scan] in Es. destruct (e0 <? end_); discriminate.
  - rewrite uncached_scan_S in Es.
    destruct (Z.ltb_spec e0 end_) as [Hlt|]; [|discriminate].
    destruct f as [|f]; cbn [uncached_chain] in Hchain;
      destruct (Z.ltb_spec e0 end_); try lia; try discriminate.
    destruct (negb _); [discriminate|].
    destruct (_ =? item).
    + injection Es as _ <-.
      apply uncached_chain_le in Hchain.
      pose proof (uncached_entry_next_ge m e0). lia.
    + destruct (uncached_scan fuel m _ end_ item) as [[tr1 r1]|] eqn:E1;
        [|discriminate].
      injection Es as _ ->. eapply IH; eassumption.
Qed.

(** While no step wraps, the backward walk reads between its end and its
    start only. *)
Lemma cached_scan_local m m' end_ cacheline item e0 : forall fuel e tr res,
  e <= e0 < 2 ^ 64 ->
  (forall x, end_ < x < e0 + 12 -> m' x = m x) ->
  cached_scan fuel m e end_ cacheline item = Some (tr, res) ->
  (forall x, In x tr ->
     entry_size m x + ALIGN sizeof_private_entry cacheline <= x) ->
  cached_scan fuel m' e end_ cacheline item = Some (tr, res).
Proof.
  induction fuel as [|fuel IH]; intros e tr res He Hagree H Hnw;
    cbn [cached_scan] in H |- *.
  - exact H.
  - destruct (Z.gtb_spec e end_) as [Hgt|]; [|exact H].
    assert (Hf : forall x, e <= x < e + 12 -> m' x = m x)
      by (intros x Hx; apply Hagree; lia).
    pose proof (entry_fields_ext _ _ _ Hf) as (Ec & Ei & Es & _).
    rewrite Ec, Ei.
    destruct (negb _); [exact H|].
    destruct (_ =? item); [exact H|].
    destruct (cached_scan fuel m _ end_ cacheline item) as [[tr1 r1]|] eqn:E1;
      [|discriminate].
    injection H as <- <-.
    destruct (cached_entry_next_le m e cacheline) as [_ Hle].
    { split; [apply Hnw; left; reflexivity|lia]. }
    assert (En : cached_entry_next m' e cacheline = cached_entry_next m e cacheline)
      by (unfold cached_entry_next; rewrite Es; reflexivity).
    rewrite En.
    rewrite (IH _ tr1 r1); [reflexivity|lia|exact Hagree|exact E1|].
    intros x Hx. apply Hnw. right. exact Hx.
Qed.

(** A lookup in a partition that is in order, and whose walk stays clear of
    entries larger than their own address, reads the partition only. *)
Lemma get_private_local m m' part item want_size tr r :
  let phdr := part_virt_base part in
  let A := ALIGN sizeof_private_entry (part_cacheline part) in
  (forall x, phdr <= x < phdr + part_size part -> m' x = m x) ->
  uncached_list_ok m phdr = true ->
  phdr_offset_free_uncached m phdr <= part_size part ->
  phdr_size m phdr <= part_size part ->
  12 <= A <= phdr_size m phdr ->
  0 <= phdr ->
  phdr + part_size part <= 2 ^ 64 ->
  qcom_smem_get_private_run m part item want_size = Some (tr, r) ->
  (forall e, In e tr -> entry_size m e + A <= e) ->
  qcom_smem_get_private_run m' part item want_size = Some (tr, r).
Proof.
  intros phdr A Hagree Hwf Hofu Hsize Hal Hpos Htop Hrun Hnw.
  unfold uncached_list_ok in Hwf. fold phdr in Hwf.
  pose proof (uncached_chain_le _ _ _ _ Hwf) as H32.
  unfold phdr_to_first_uncached_entry, phdr_to_last_uncached_entry,
    sizeof_partition_header in H32.
  pose proof (load32_range m (phdr + 16)) as Rc.
  assert (Eofu : phdr_offset_free_uncached m' phdr
                 = phdr_offset_free_uncached m phdr)
    by (apply load32_ext; intros x Hx; apply Hagree; lia).
  assert (Eofc : phdr_offset_free_cached m' phdr
                 = phdr_offset_free_cached m phdr)
    by (apply load32_ext; intros x Hx; apply Hagree; lia).
  assert (Esz : phdr_size m' phdr = phdr_size m phdr)
    by (apply load32_ext; intros x Hx; apply Hagree; lia).
  unfold qcom_smem_get_private_run in Hrun |- *. fold phdr in Hrun |- *.
  unfold phdr_to_last_uncached_entry in Hrun |- *. rewrite Eofu.
  rewrite (uncached_scan_local m m').
  2:{ eexists. exact Hwf. }
  2:{ intros x Hx. apply Hagree.
      unfold phdr_to_first_uncached_entry, sizeof_partition_header in Hx.
      lia. }
  destruct (uncached_scan _ m _ _ item) as [[tr1 [x|x|x]]|] eqn:Es;
    try exact Hrun.
  - injection Hrun as <- <-. f_equal. f_equal.
    apply get_uncached_item_ext. intros y Hy. apply Hagree.
    pose proof (uncached_scan_found _ _ _ _ _ _ _ Es) as (Hx1 & _).
    unfold phdr_to_first_uncached_entry, sizeof_partition_header in Hx1.
    pose proof (uncached_scan_found_end _ _ _ _ _ _ _ _ Es Hwf) as Hx2.
    unfold phdr_to_last_uncached_entry, sizeof_private_entry in Hx2.
    lia.
  - destruct (_ >? _); [exact Hrun|].
    destruct (get_private_cached m part item want_size) as [[tr2 r2]|] eqn:Ec;
      [|discriminate].
    injection Hrun as <- <-.
    assert (Ec' : get_private_cached m' part item want_size = Some (tr2, r2)).
    { unfold get_private_cached in Ec |- *. fold phdr in Ec |- *.
      unfold phdr_to_first_cached_entry, phdr_to_last_cached_entry in Ec |- *.
      fold A in Ec |- *. rewrite Esz, Eofc.
      destruct (_ || _); [exact Ec|].
      assert (He0 : wrap64 (phdr + phdr_size m phdr - A)
                    = phdr + phdr_size m phdr - A).
      { unfold wrap64. change (2 ^ 64) with 18446744073709551616 in *.
        apply Z.mod_small. lia. }
      rewrite He0 in Ec |- *.
      set (e0 := phdr + phdr_size m phdr - A) in *.
      set (endc := phdr + phdr_offset_free_cached m phdr) in *.
      assert (Hloc : forall y, endc < y < e0 + 12 -> m' y = m y).
      { intros y Hy. apply Hagree. subst e0 endc.
        unfold phdr_offset_free_cached in *. lia. }
      destruct (cached_scan _ m e0 endc _ item) as [[tr0 res]|] eqn:Ecs;
        [|discriminate].
      assert (Hnw0 : forall y, In y tr0 -> entry_size m y + A <= y).
      { intros y Hy. apply Hnw. apply in_or_app. right.
        destruct res; [| |destruct (_ <? _)]; injection Ec as <- _; exact Hy. }
      rewrite (cached_scan_local m m' endc (part_cacheline part) item e0
                 _ e0 tr0 res); try assumption; [|lia].
      destruct res as [y|y|y]; try exact Ec.
      pose proof (cached_scan_found_gt _ _ _ _ _ _ _ _ Ecs) as Hgt.
      pose proof (cached_scan_found _ _ _ _ _ _ _ _ Ecs ltac:(lia) Hnw0)
        as (Hle & _).
      assert (Hf : forall z, y <= z < y + 12 -> m' z = m z)
        by (intros z Hz; apply Hloc; lia).
      pose proof (entry_fields_ext _ _ _ Hf) as (_ & _ & Esy & Epy & _).
      unfold get_cached_item, cached_entry_to_item in Ec |- *.
      rewrite Esy, Epy. exact Ec. }
    rewrite Ec'. reflexivity.
Qed.

(** X22.  The partitions are isolated from each other.  If the partitions
    that serve two hosts do not overlap, a successful [qcom_smem_alloc]
    for the first host, of a size that fits (a record of that size placed
    at the very end of the partition would still end 16 GiB or more below
    [2^64]), does not change what [qcom_smem_get] returns for the second
    host, for any item, provided the second partition is in order: it lies
    inside the address space, its forward list is well formed and ends
    inside the partition, its header does not claim more than the
    descriptor's size, its cache line keeps the aligned entry header
    between 12 bytes and the size in the header, and the lookup returns
    after visiting only entries that are no larger than their own address,
    so that no pointer of the backward walk wraps. *)
Theorem partitions_isolated smem m host item size m' host2 item2 want_size
  part part2 tr r :
  qcom_smem_alloc (Some smem) m host item size = Some (Ok tt, m') ->
  size_fits part size ->
  select_partition smem host = Some part ->
  select_partition smem host2 = Some part2 ->
  part_virt_base part + part_size part <= part_virt_base part2
  \/ part_virt_base part2 + part_size part2 <= part_virt_base part ->
  0 <= part_virt_base part2 ->
  part_virt_base part2 + part_size part2 <= 2 ^ 64 ->
  uncached_list_ok m (part_virt_base part2) = true ->
  phdr_offset_free_uncached m (part_virt_base part2) <= part_size part2 ->
  phdr_size m (part_virt_base part2) <= part_size part2 ->
  12 <= ALIGN sizeof_private_entry (part_cacheline part2)
     <= phdr_size m (part_virt_base part2) ->
  qcom_smem_get_private_run m part2 item2 want_size = Some (tr, r) ->
  (forall e, In e tr ->
     entry_size m e + ALIGN sizeof_private_entry (part_cacheline part2) <= e) ->
  qcom_smem_get (Some smem) m' host2 item2 want_size
  = qcom_smem_get (Some smem) m host2 item2 want_size.
Proof.
  intros Ha Hvs Hsel Hsel2 Hdisj Hpos Htop Hwf Hofu Hsize Hal Hrun Hnw.
  apply alloc_accepts_item in Ha as [_ Ha]. rewrite Hsel in Ha.
  unfold qcom_smem_get. rewrite Hsel2.
  destruct (_ >=? _); [reflexivity|].
  unfold qcom_smem_get_private. rewrite Hrun.
  rewrite (get_private_local m m' part2 item2 want_size tr r);
    try assumption; [reflexivity|].
  intros x Hx.
  pose proof (alloc_private_effect _ _ _ _ _ Ha Hvs) as He.
  cbv zeta in He.
  destruct He as (tr0 & hdr & _ & Hfirst & Hend & Hagree & _ & _ & _ & Hasz
                  & _ & _ & Hfit & Hcend).
  unfold phdr_to_first_uncached_entry, sizeof_partition_header,
    sizeof_private_entry in *.
  apply Hagree. lia.
Qed.

Lemma partitions_isolated_witness :
  qcom_smem_alloc (Some part_smem) part_mem 5 100 20
  = Some (Ok tt, global_mem_after)
  /\ size_fits demo_global_part 20
  /\ select_partition part_smem 5 = Some demo_global_part
  /\ select_partition part_smem 1 = Some demo_part
  /\ (part_virt_base demo_global_part + part_size demo_global_part
      <= part_virt_base demo_part
      \/ part_virt_base demo_part + part_size demo_part
         <= part_virt_base demo_global_part)
  /\ 0 <= part_virt_base demo_part
  /\ part_virt_base demo_part + part_size demo_part <= 2 ^ 64
  /\ uncached_list_ok part_mem (part_virt_base demo_part) = true
  /\ phdr_offset_free_uncached part_mem (part_virt_base demo_part)
     <= part_size demo_part
  /\ phdr_size part_mem (part_virt_base demo_part) <= part_size demo_part
  /\ 12 <= ALIGN sizeof_private_entry (part_cacheline demo_part)
        <= phdr_size part_mem (part_virt_base demo_part)
  /\ qcom_smem_get_private_run part_mem demo_part 10 true
     = Some ([86048; 86208], Ok (86192, Some 16))
  /\ (forall e, In e [86048; 86208] ->
        entry_size part_mem e
        + ALIGN sizeof_private_entry (part_cacheline demo_part) <= e)
  /\ qcom_smem_get (Some part_smem) global_mem_after 1 10 true
     = qcom_smem_get (Some part_smem) part_mem 1 10 true.
Proof.
  assert (H1 : qcom_smem_alloc (Some part_smem) part_mem 5 100 20
               = Some (Ok tt, global_mem_after)) by (vm_compute; reflexivity).
  assert (H2 : size_fits demo_global_part 20).
  { unfold size_fits. cbn [part_virt_base part_size demo_global_part].
    change (2 ^ 64) with 18446744073709551616. lia. }
  assert (H3 : select_partition part_smem 5 = Some demo_global_part)
    by (vm_compute; reflexivity).
  assert (H4 : select_partition part_smem 1 = Some demo_part)
    by (vm_compute; reflexivity).
  assert (H5 : part_virt_base demo_global_part + part_size demo_global_part
               <= part_virt_base demo_part
               \/ part_virt_base demo_part + part_size demo_part
                  <= part_virt_base demo_global_part) by (left; cbn; lia).
  assert (H5a : 0 <= part_virt_base demo_part) by (cbn; lia).
  assert (H5b : part_virt_base demo_part + part_size demo_part <= 2 ^ 64)
    by (cbn [part_virt_base part_size demo_part];
        change (2 ^ 64) with 18446744073709551616; lia).
  assert (H6 : uncached_list_ok part_mem (part_virt_base demo_part) = true)
    by (vm_compute; reflexivity).
  assert (H7 : phdr_offset_free_uncached part_mem (part_virt_base demo_part)
               <= part_size demo_part)
    by (apply Z.leb_le; vm_compute; reflexivity).
  assert (H8 : phdr_size part_mem (part_virt_base demo_part)
               <= part_size demo_part)
    by (apply Z.leb_le; vm_compute; reflexivity).
  assert (H9 : 12 <= ALIGN sizeof_private_entry (part_cacheline demo_part)
                  <= phdr_size part_mem (part_virt_base demo_part))
    by (split; apply Z.leb_le; vm_compute; reflexivity).
  assert (H10 : qcom_smem_get_private_run part_mem demo_part 10 true
                = Some ([86048; 86208], Ok (86192, Some 16)))
    by (vm_compute; reflexivity).
  assert (H11 : forall e, In e [86048; 86208] ->
              entry_size part_mem e
              + ALIGN sizeof_private_entry (part_cacheline demo_part) <= e)
    by (intros e [<-|[<-|[]]]; apply Z.leb_le; vm_compute; reflexivity).
  exact (conj H1 (conj H2 (conj H3 (conj H4 (conj H5 (conj H5a (conj H5b
           (conj H6 (conj H7 (conj H8 (conj H9 (conj H10 (conj H11
              (partitions_isolated part_smem part_mem 5 100 20
                 global_mem_after 1 10 true demo_global_part demo_part
                 [86048; 86208] (Ok (86192, Some 16))
                 H1 H2 H3 H4 H5 H5a H5b H6 H7 H8 H9 H10 H11)))))))))))))).
Defined.

(** * The entry points return *)

Lemma get_private_none m part item want_size :
  qcom_smem_get_private m part item want_size = None ->
  exists x,
    phdr_to_last_cached_entry m (part_virt_base part) < x < 2 ^ 64
    /\ entry_canary m x = SMEM_PRIVATE_CANARY
    /\ entry_item m x <> item
    /\ x <= cached_entry_next m x (part_cacheline part).
Proof.
  unfold qcom_smem_get_private, qcom_smem_get_private_run. intros H.
  destruct (uncached_scan_total
              (Z.to_nat (phdr_to_last_uncached_entry m (part_virt_base part)
                         - phdr_to_first_uncached_entry (part_virt_base part)))
              m (phdr_to_last_uncached_entry m (part_virt_base part)) item
              (phdr_to_first_uncached_entry (part_virt_base part)))
    as (tr & r & E); [lia|].
  rewrite E in H.
  destruct r as [x|x|x]; cbn [option_map snd] in H; try discriminate.
  destruct (_ >? _); [discriminate|].
  unfold get_private_cached in H.
  destruct (_ || _); [discriminate|].
  destruct (cached_scan _ m _ _ _ item) as [[tr2 r2]|] eqn:Ec.
  - destruct r2; [discriminate|discriminate|].
    destruct (_ <? _); discriminate.
  - apply cached_scan_none in Ec;
      [exact Ec|unfold phdr_to_first_cached_entry; apply wrap64_range|lia].
Qed.

(** X23.  The entry points return, for a partition that lies 16 GiB or more
    below [2^64], where no pointer of a forward walk can wrap.
    [qcom_smem_alloc] returns for every input: its walk of the forward list
    always ends.  [qcom_smem_get] returns whenever the partition it searches
    has, moreover, a cache line that does not align the entry header to 0
    bytes and lies at or above [2^32] plus the aligned entry header size,
    where no entry can be larger than its own address and no pointer of the
    backward walk can wrap.  Where the model of [qcom_smem_get] gives no
    result, the backward walk has met a record with a good canary and
    another item number whose successor does not lie below it: a record that
    is its own successor (size 0 in a partition whose aligned entry header is
    0 bytes), on which the C loop spins, or a record larger than its own
    address, behind which the pointer wraps to the top of the address
    space. *)
Theorem entry_points_return smem m host item size want_size :
  ((forall s part,
       smem = Some s -> select_partition s host = Some part ->
       0 <= part_virt_base part
       /\ part_virt_base part + part_size part <= 2 ^ 64 - 2 ^ 34) ->
   exists r, qcom_smem_alloc smem m host item size = Some r)
  /\ ((forall s part,
          smem = Some s -> select_partition s host = Some part ->
          0 < ALIGN sizeof_private_entry (part_cacheline part)
          /\ 2 ^ 32 + ALIGN sizeof_private_entry (part_cacheline part)
             <= part_virt_base part <= 2 ^ 64 - 2 ^ 34) ->
      exists r, qcom_smem_get smem m host item want_size = Some r)
  /\ (qcom_smem_get smem m host item want_size = None ->
      exists s part x,
        smem = Some s /\ select_partition s host = Some part
        /\ phdr_to_last_cached_entry m (part_virt_base part) < x
        /\ entry_canary m x = SMEM_PRIVATE_CANARY
        /\ entry_item m x <> item
        /\ ((entry_size m x = 0
             /\ ALIGN sizeof_private_entry (part_cacheline part) = 0)
            \/ x < entry_size m x
                   + ALIGN sizeof_private_entry (part_cacheline part))).
Proof.
  split; [|split].
  - intros _. unfold qcom_smem_alloc. destruct smem as [s|]; [|eauto].
    destruct (_ <? _); [eauto|]. destruct (_ >=? _); [eauto|].
    destruct (select_partition s host) as [part|]; [|eauto].
    destruct (alloc_private_total m part item size) as (r & m' & ->). eauto.
  - intros Hal. unfold qcom_smem_get. destruct smem as [s|]; [|eauto].
    destruct (_ >=? _); [eauto|].
    destruct (select_partition s host) as [part|] eqn:Esel; [|eauto].
    destruct (Hal s part eq_refl Esel) as [H1 [H2 _]].
    apply get_private_total; assumption.
  - unfold qcom_smem_get. destruct smem as [s|]; [|discriminate].
    destruct (_ >=? _); [discriminate|].
    destruct (select_partition s host) as [part|] eqn:Esel; [|discriminate].
    intros H. apply get_private_none in H as (x & Hx & Hc & Hi & Hn).
    exists s, part, x.
    split; [reflexivity|]. split; [exact Esel|]. split; [lia|].
    split; [exact Hc|]. split; [exact Hi|].
    pose proof (load32_range m (x + 4)) as R. fold (entry_size m x) in R.
    pose proof (ALIGN_nonneg sizeof_private_entry (part_cacheline part)) as HA.
    destruct (Z.lt_ge_cases x (entry_size m x
                + ALIGN sizeof_private_entry (part_cacheline part)))
      as [Hw|Hnw]; [right; exact Hw|].
    left.
    destruct (cached_entry_next_le m x (part_cacheline part)) as [Heq _];
      [lia|].
    rewrite Heq in Hn. lia.
Qed.

Lemma entry_points_return_witness :
  (forall s part,
      Some part_smem_high = Some s -> select_partition s 1 = Some part ->
      0 <= part_virt_base part
      /\ part_virt_base part + part_size part <= 2 ^ 64 - 2 ^ 34)
  /\ (forall s part,
        Some part_smem_high = Some s -> select_partition s 1 = Some part ->
        0 < ALIGN sizeof_private_entry (part_cacheline part)
        /\ 2 ^ 32 + ALIGN sizeof_private_entry (part_cacheline part)
           <= part_virt_base part <= 2 ^ 64 - 2 ^ 34)
  /\ (exists r,
        qcom_smem_alloc (Some part_smem_high) high_mem 1 100 20 = Some r)
  /\ (exists r,
        qcom_smem_get (Some part_smem_high) high_mem 1 10 true = Some r).
Proof.
  assert (E : select_partition part_smem_high 1 = Some high_part)
    by (vm_compute; reflexivity).
  assert (H0 : forall s part,
             Some part_smem_high = Some s -> select_partition s 1 = Some part ->
             0 <= part_virt_base part
             /\ part_virt_base part + part_size part <= 2 ^ 64 - 2 ^ 34).
  { intros s part [= <-] Hsel. rewrite E in Hsel. injection Hsel as <-.
    split; apply Z.leb_le; vm_compute; reflexivity. }
  assert (H1 : forall s part,
             Some part_smem_high = Some s -> select_partition s 1 = Some part ->
             0 < ALIGN sizeof_private_entry (part_cacheline part)
             /\ 2 ^ 32 + ALIGN sizeof_private_entry (part_cacheline part)
                <= part_virt_base part <= 2 ^ 64 - 2 ^ 34).
  { intros s part [= <-] Hsel. rewrite E in Hsel. injection Hsel as <-.
    split; [apply Z.ltb_lt|split; apply Z.leb_le]; vm_compute; reflexivity. }
  exact (conj H0 (conj H1
           (conj (proj1 (entry_points_return (Some part_smem_high) high_mem
                           1 100 20 true) H0)
                 (proj1 (proj2 (entry_points_return (Some part_smem_high)
                                  high_mem 1 10 20 true)) H1)))).
Defined.

(** On that heap the lookup walks both lists and finds item 10 in the
    backward one. *)
Example high_lookup :
  qcom_smem_get (Some part_smem_high) high_mem 1 10 true
  = Some (Ok (2 ^ 33 + 176, Some 16)).
Proof. vm_compute. reflexivity. Qed.

(** * Item numbers *)

(** X24.  On the handle of a successful [qcom_smem_init] every item number
    that [qcom_smem_alloc] or [qcom_smem_get] lets through fits the 16-bit
    [item] field of a record, so the truncation in
    [hdr->item = cpu_to_le16(item)] loses nothing and two items that are
    accepted never share a tag: an allocation that succeeds has an item
    number from [SMEM_ITEM_LAST_FIXED] to 65535, a lookup that succeeds has
    one below 65536, and both calls return [-EINVAL], without touching the
    memory, for every item number from 65536 on. *)
Theorem accepted_items_fit cfg m0 smem m host item size want_size :
  qcom_smem_init cfg m0 = Ok smem ->
  (forall m', qcom_smem_alloc (Some smem) m host item size = Some (Ok tt, m') ->
              SMEM_ITEM_LAST_FIXED <= item < 65536 /\ wrap16 item = item)
  /\ (forall r, qcom_smem_get (Some smem) m host item want_size = Some (Ok r) ->
                item < 65536)
  /\ (65536 <= item ->
      qcom_smem_alloc (Some smem) m host item size = Some (Err EINVAL, m)
      /\ qcom_smem_get (Some smem) m host item want_size = Some (Err EINVAL)).
Proof.
  intros Hinit. apply init_item_count in Hinit.
  split; [|split].
  - intros m' Ha. apply alloc_accepts_item in Ha as [Hi _].
    unfold SMEM_ITEM_LAST_FIXED in *. split; [lia|].
    unfold wrap16. apply Z.mod_small. lia.
  - intros r Hg. unfold qcom_smem_get in Hg.
    destruct (Z.geb_spec item (item_count smem)); [discriminate|lia].
  - intros Hbig. unfold qcom_smem_alloc, qcom_smem_get, SMEM_ITEM_LAST_FIXED.
    destruct (Z.ltb_spec item 8); [lia|].
    destruct (Z.geb_spec item (item_count smem)); [auto|lia].
Qed.

Lemma accepted_items_fit_witness :
  qcom_smem_init part_cfg part_mem = Ok part_smem
  /\ (forall m',
         qcom_smem_alloc (Some part_smem) part_mem 1 65636 20
         = Some (Ok tt, m') ->
         SMEM_ITEM_LAST_FIXED <= 65636 < 65536 /\ wrap16 65636 = 65636)
  /\ (forall r,
         qcom_smem_get (Some part_smem) part_mem 1 65636 true = Some (Ok r) ->
         65636 < 65536)
  /\ (65536 <= 65636 ->
      qcom_smem_alloc (Some part_smem) part_mem 1 65636 20
      = Some (Err EINVAL, part_mem)
      /\ qcom_smem_get (Some part_smem) part_mem 1 65636 true
         = Some (Err EINVAL)).
Proof.
  assert (H1 : qcom_smem_init part_cfg part_mem = Ok part_smem)
    by (vm_compute; reflexivity).
  exact (conj H1
           (accepted_items_fit part_cfg part_mem part_smem part_mem 1 65636 20
              true H1)).
Defined.
